(** * Knowledge-base ingestion pipeline ([rag_pipeline.py]) and the upload
      reader ([file_processor.py]): a shallow embedding and its properties.

    Python values are modelled as follows.
    - [str] is a sequence of Unicode code points ([list N]); literals of the
      source are written [lit "..."].
    - [bytes] is [list Byte.byte].
    - Python [int]s are [Z]; list lengths and loop counters that cannot be
      negative are [nat].
    - A call that can raise returns a [result]; a handler that mutates the
      stores before raising returns the mutated world together with its
      [outcome]. *)

From Stdlib Require Import List NArith ZArith Lia Bool Arith.
From Stdlib Require Import Strings.String Strings.Ascii Strings.Byte.
From Stdlib Require Import Numbers.DecimalString Numbers.DecimalNat.
Import ListNotations.

Set Implicit Arguments.

(** ** Strings *)

Definition char := N.
Definition str := list char.

Definition lit (s : string) : str :=
  List.map Byte.to_N (list_byte_of_string s).

Fixpoint str_eqb (a b : str) : bool :=
  match a, b with
  | [], [] => true
  | x :: a', y :: b' => N.eqb x y && str_eqb a' b'
  | _, _ => false
  end.

(** Truth value of a string: non-empty. *)
Definition truthy (s : str) : bool :=
  match s with [] => false | _ :: _ => true end.

(** [s.startswith(p)] *)
Fixpoint startswith (s p : str) : bool :=
  match p, s with
  | [], _ => true
  | x :: p', y :: s' => N.eqb x y && startswith s' p'
  | _ :: _, [] => false
  end.

(** [str(n)] for a non-negative integer. *)
Definition str_of_nat (n : nat) : str :=
  lit (NilEmpty.string_of_uint (Nat.to_uint n)).

(** [sep.join(l)] *)
Fixpoint join (sep : str) (l : list str) : str :=
  match l with
  | [] => []
  | w :: r => match r with [] => w | _ :: _ => w ++ sep ++ join sep r end
  end.

(** The code points on which [str.isspace] holds, which are the separators
    of [str.split()] without arguments. *)
Definition isspace (c : char) : bool :=
  ((9 <=? c) && (c <=? 13) || (28 <=? c) && (c <=? 32)
   || (c =? 133) || (c =? 160) || (c =? 5760)
   || (8192 <=? c) && (c <=? 8202)
   || (c =? 8232) || (c =? 8233) || (c =? 8239) || (c =? 8287)
   || (c =? 12288))%N.

Definition cons_word (w : str) (ws : list str) : list str :=
  match w with [] => ws | _ :: _ => w :: ws end.

(** [words_of s] is the run of non-space characters [s] starts with, and the
    words that follow the first separator. *)
Fixpoint words_of (s : str) : str * list str :=
  match s with
  | [] => ([], [])
  | c :: r =>
      let (w, ws) := words_of r in
      if isspace c then ([], cons_word w ws) else (c :: w, ws)
  end.

(** [text.split()]: maximal runs of non-space characters, in order. *)
Definition split (s : str) : list str :=
  let (w, ws) := words_of s in cons_word w ws.

(** [s.lower()], on the Basic Latin and Latin-1 letters; the other code
    points are left as they are.  Of those, only U+212A and U+0130 have a
    Basic Latin letter in their lower case ([k], and [i] with a combining
    dot): no name with a code point outside this table lower-cases to one of
    the extensions the code compares with, which have no [k] and would need
    [i] alone. *)
Definition lower_char (c : char) : char :=
  (if (65 <=? c) && (c <=? 90) then c + 32
   else if (192 <=? c) && (c <=? 222) && negb (c =? 215) then c + 32
   else c)%N.

Definition lower (s : str) : str := List.map lower_char s.

(** ** Exceptions and results *)

Inductive exn : Type :=
| ValueError
| TypeError
| KeyError
| UnicodeDecodeError
| FileNotFoundError
| ExternalError (service : string)
| UnicodeEncodeError
| JSONDecodeError
| OSError (errno : nat)
| APIConnectionError
| APITimeoutError
| APIStatusError (status_code : nat) (x_should_retry : option bool)
| OpenAIError.

Inductive result (A : Type) : Type :=
| Ok (a : A)
| Raise (e : exn).

Arguments Ok {A} a.
Arguments Raise {A} e.

(** ** Sequences: [range] and slices *)

(** Number of items of [range(start, stop, step)], [step <> 0]. *)
Definition range_len (start stop step : Z) : Z :=
  (if 0 <? step
   then if start <? stop then (stop - start - 1) / step + 1 else 0
   else if stop <? start then (start - stop - 1) / (- step) + 1 else 0)%Z.

Definition py_range (start stop step : Z) : result (list Z) :=
  if (step =? 0)%Z then Raise ValueError
  else Ok (List.map (fun k => (start + Z.of_nat k * step)%Z)
                    (seq 0 (Z.to_nat (range_len start stop step)))).

(** Bound of a slice, clamped to [0..n]; a negative bound counts from the
    end. *)
Definition slice_index (n i : Z) : Z :=
  (if i <? 0 then Z.max (i + n) 0 else Z.min i n)%Z.

(** [l[lo:hi]] *)
Definition py_slice {A : Type} (l : list A) (lo hi : Z) : list A :=
  let n := Z.of_nat (List.length l) in
  let a := slice_index n lo in
  let b := slice_index n hi in
  firstn (Z.to_nat (b - a)) (skipn (Z.to_nat a) l).

(** [enumerate(l)] *)
Definition enumerate {A : Type} (l : list A) : list (nat * A) :=
  combine (seq 0 (List.length l)) l.

(** ** [chunk_text] *)

(** One iteration of the loop of [chunk_text]. *)
Definition chunk_step (words : list str) (chunk_size : Z)
    (chunks : list str) (i : Z) : list str :=
  let chunk := join (lit " ") (py_slice words i (i + chunk_size)) in
  if truthy chunk then chunks ++ [chunk] else chunks.

Definition chunk_text (text : str) (chunk_size overlap : Z)
    : result (list str) :=
  let words := split text in
  match py_range 0 (Z.of_nat (List.length words)) (chunk_size - overlap) with
  | Raise e => Raise e
  | Ok starts => Ok (fold_left (chunk_step words chunk_size) starts [])
  end.

Definition default_chunk_size : Z := 500.
Definition default_overlap : Z := 50.


(** ** Paths ([os.path], POSIX flavour) *)

(** [s.rfind(c)] from offset [i]: index of the last occurrence, [-1] if
    there is none. *)
Fixpoint rfind_from (c : char) (s : str) (i : Z) : Z :=
  match s with
  | [] => (-1)%Z
  | x :: r =>
      let j := rfind_from c r (i + 1) in
      if (0 <=? j)%Z then j else if N.eqb x c then i else (-1)%Z
  end.

Definition rfind (c : char) (s : str) : Z := rfind_from c s 0.

Definition slash : char := 47%N.
Definition dot : char := 46%N.

Definition len (s : str) : Z := Z.of_nat (List.length s).

(** [os.path.basename(p)] *)
Definition basename (p : str) : str :=
  py_slice p (rfind slash p + 1) (len p).

(** [os.path.splitext(p)[1]]: the extension starts at the last dot of the
    last component, unless that component has only dots before it. *)
Definition splitext_ext (p : str) : str :=
  let sepIndex := rfind slash p in
  let dotIndex := rfind dot p in
  if (sepIndex <? dotIndex)%Z then
    if existsb (fun x => negb (N.eqb x dot)) (py_slice p (sepIndex + 1) dotIndex)
    then py_slice p dotIndex (len p)
    else []
  else [].

(** ** Codecs and text-mode reading *)

Definition bytes := list byte.

Inductive encoding : Type := utf_8 | latin_1 | cp1252.

Definition is_cont (b : N) : bool := ((128 <=? b) && (b <=? 191))%N.

(** Strict UTF-8: shortest form only, no surrogates, at most U+10FFFF. *)
Fixpoint utf8_decode (bs : list N) : option str :=
  match bs with
  | [] => Some []
  | b0 :: r0 =>
      if (b0 <? 128)%N then option_map (cons b0) (utf8_decode r0)
      else if ((194 <=? b0) && (b0 <=? 223))%N then
        match r0 with
        | b1 :: r1 =>
            if is_cont b1
            then option_map (cons ((b0 - 192) * 64 + (b1 - 128))%N)
                            (utf8_decode r1)
            else None
        | [] => None
        end
      else if ((224 <=? b0) && (b0 <=? 239))%N then
        match r0 with
        | b1 :: b2 :: r2 =>
            let cp := ((b0 - 224) * 4096 + (b1 - 128) * 64 + (b2 - 128))%N in
            if is_cont b1 && is_cont b2 && (2048 <=? cp)%N
               && negb ((55296 <=? cp) && (cp <=? 57343))%N
            then option_map (cons cp) (utf8_decode r2)
            else None
        | _ => None
        end
      else if ((240 <=? b0) && (b0 <=? 244))%N then
        match r0 with
        | b1 :: b2 :: b3 :: r3 =>
            let cp := ((b0 - 240) * 262144 + (b1 - 128) * 4096
                       + (b2 - 128) * 64 + (b3 - 128))%N in
            if is_cont b1 && is_cont b2 && is_cont b3
               && (65536 <=? cp)%N && (cp <=? 1114111)%N
            then option_map (cons cp) (utf8_decode r3)
            else None
        | _ => None
        end
      else None
  end.

(** Windows-1252: the bytes 0x80..0x9F that differ from Latin-1; five of
    them are unassigned. *)
Definition cp1252_high : list (N * option N) :=
  [ (128, Some 8364); (129, None); (130, Some 8218); (131, Some 402);
    (132, Some 8222); (133, Some 8230); (134, Some 8224); (135, Some 8225);
    (136, Some 710); (137, Some 8240); (138, Some 352); (139, Some 8249);
    (140, Some 338); (141, None); (142, Some 381); (143, None);
    (144, None); (145, Some 8216); (146, Some 8217); (147, Some 8220);
    (148, Some 8221); (149, Some 8226); (150, Some 8211); (151, Some 8212);
    (152, Some 732); (153, Some 8482); (154, Some 353); (155, Some 8250);
    (156, Some 339); (157, None); (158, Some 382); (159, Some 376) ]%N.

Fixpoint assoc_N {A : Type} (k : N) (l : list (N * A)) : option A :=
  match l with
  | [] => None
  | (k', v) :: r => if N.eqb k k' then Some v else assoc_N k r
  end.

Definition cp1252_char (b : N) : option char :=
  match assoc_N b cp1252_high with
  | Some v => v
  | None => Some b
  end.

Fixpoint cp1252_decode (bs : list N) : option str :=
  match bs with
  | [] => Some []
  | b :: r =>
      match cp1252_char b with
      | None => None
      | Some c => option_map (cons c) (cp1252_decode r)
      end
  end.

(** [bs.decode(e)], strict; [None] is [UnicodeDecodeError]. *)
Definition decode (e : encoding) (bs : bytes) : option str :=
  let ns := List.map Byte.to_N bs in
  match e with
  | utf_8 => utf8_decode ns
  | latin_1 => Some ns
  | cp1252 => cp1252_decode ns
  end.

(** Text mode translates ["\r\n"] and a lone ["\r"] to ["\n"] on input. *)
Fixpoint universal_newlines (s : str) : str :=
  match s with
  | [] => []
  | c :: r =>
      if N.eqb c 13 then
        10%N :: match r with
                | [] => []
                | c' :: r' =>
                    if N.eqb c' 10 then universal_newlines r'
                    else universal_newlines r
                end
      else c :: universal_newlines r
  end.

(** The file system, as far as the readers see it. *)
Definition filesystem := str -> option bytes.

(** [with open(path, 'r', encoding=e) as f: f.read()] *)
Definition open_read (fs : filesystem) (path : str) (e : encoding)
    : result str :=
  match fs path with
  | None => Raise FileNotFoundError
  | Some bs =>
      match decode e bs with
      | None => Raise UnicodeDecodeError
      | Some s => Ok (universal_newlines s)
      end
  end.

Definition extract_text_from_txt (fs : filesystem) (txt_path : str)
    : result str :=
  open_read fs txt_path utf_8.

Module FileProcessor.

Definition encodings : list encoding := [utf_8; latin_1; cp1252].

Definition content_header : str := lit "File content:" ++ [10; 10]%N.

Definition undecodable : str :=
  lit "Could not decode file content. Binary file or unsupported encoding.".

(** The [for encoding in encodings] loop of [_read_text_file]: only
    [UnicodeDecodeError] is caught. *)
Fixpoint try_encodings (fs : filesystem) (file_path : str)
    (es : list encoding) : result str :=
  match es with
  | [] => Ok undecodable
  | e :: rest =>
      match open_read fs file_path e with
      | Ok content => Ok (content_header ++ content)
      | Raise UnicodeDecodeError => try_encodings fs file_path rest
      | Raise x => Raise x
      end
  end.

Definition _read_text_file (fs : filesystem) (file_path : str)
    : result str :=
  try_encodings fs file_path encodings.

End FileProcessor.

(** ** The stores and the handlers *)

(** A metadata dictionary of a vector-store record. *)
Definition dict := list (str * str).

Fixpoint dict_get (k : str) (d : dict) : option str :=
  match d with
  | [] => None
  | (k', v) :: r => if str_eqb k k' then Some v else dict_get k r
  end.

(** Graph store: labelled nodes with properties, and [CONTAINS]
    relationships between node identities. *)
Inductive label : Type := File | Chunk.

Definition label_eqb (a b : label) : bool :=
  match a, b with
  | File, File | Chunk, Chunk => true
  | _, _ => false
  end.

Record node : Type := mkNode {
  nid : nat;
  nlabel : label;
  props : dict
}.

Record graph : Type := mkGraph {
  nodes : list node;
  contains : list (nat * nat);
  next_nid : nat
}.

Definition rel_eqb (a b : nat * nat) : bool :=
  Nat.eqb (fst a) (fst b) && Nat.eqb (snd a) (snd b).

(** A node matches the pattern [(:l {k1: v1, ...})]. *)
Definition matches (l : label) (pat : dict) (n : node) : bool :=
  label_eqb l (nlabel n)
  && forallb (fun kv => match dict_get (fst kv) (props n) with
                        | Some v => str_eqb v (snd kv)
                        | None => false
                        end) pat.

(** [MERGE (:l {pat})]: create the node unless one matches. *)
Definition merge_node (l : label) (pat : dict) (g : graph) : graph :=
  if existsb (matches l pat) (nodes g) then g
  else {| nodes := nodes g ++ [mkNode (next_nid g) l pat];
          contains := contains g;
          next_nid := S (next_nid g) |}.

Definition merge_rel (rels : list (nat * nat)) (r : nat * nat)
    : list (nat * nat) :=
  if existsb (rel_eqb r) rels then rels else rels ++ [r].

(** [MATCH (f:File {id}), (c:Chunk {id}) MERGE (f)-[:CONTAINS]->(c)]: one
    merge per matched pair. *)
Definition merge_contains (file_id chunk_id : str) (g : graph) : graph :=
  let fs := filter (matches File [(lit "id", file_id)]) (nodes g) in
  let cs := filter (matches Chunk [(lit "id", chunk_id)]) (nodes g) in
  let rows := List.map (fun fc => (nid (fst fc), nid (snd fc)))
                       (list_prod fs cs) in
  {| nodes := nodes g;
     contains := fold_left merge_rel rows (contains g);
     next_nid := next_nid g |}.

(** [MATCH (f:File {id}) DETACH DELETE f]: the matched nodes go, with every
    relationship that touches one of them. *)
Definition detach_delete_file (file_id : str) (g : graph) : graph :=
  let is_f := matches File [(lit "id", file_id)] in
  let dead := List.map nid (filter is_f (nodes g)) in
  let alive := fun i => negb (existsb (Nat.eqb i) dead) in
  {| nodes := filter (fun n => negb (is_f n)) (nodes g);
     contains := filter (fun r => alive (fst r) && alive (snd r)) (contains g);
     next_nid := next_nid g |}.

(** The three statements [add_to_neo4j] runs in its session. *)
Definition merge_file_chunk (file_id chunk_id chunk : str) (g : graph)
    : graph :=
  let g1 := merge_node File [(lit "id", file_id)] g in
  let g2 := merge_node Chunk [(lit "id", chunk_id); (lit "text", chunk)]
                       g1 in
  merge_contains file_id chunk_id g2.

Inductive outcome : Type :=
| Returned
| Raised (e : exn).

Record event : Type := mkEvent {
  is_directory : bool;
  src_path : str
}.

Section Pipeline.

(** The vectors of the embedding model are carried, never inspected. *)
Variable embedding : Type.

(** Vector store: the records of the collection ['knowledge'], in
    insertion order. *)
Record record : Type := mkRecord {
  rec_id : str;
  document : str;
  vector : embedding;
  metadata : option dict
}.

Definition collection := list record.

Definition ids (c : collection) : list str := List.map rec_id c.

(** [collection.add(documents=[d], embeddings=[e], ids=[i])]: no metadata
    is given, so the record has none; a record whose id is already in the
    collection is kept as it is ([add] is not [upsert]). *)
Definition collection_add (i d : str) (e : embedding) (c : collection)
    : collection :=
  if existsb (str_eqb i) (ids c) then c
  else c ++ [mkRecord i d e None].

(** [collection.get()['metadatas']] *)
Definition get_metadatas (c : collection) : list (option dict) :=
  List.map metadata c.

(** [collection.delete(ids=l)] *)
Definition collection_delete (l : list str) (c : collection) : collection :=
  filter (fun r => negb (existsb (str_eqb (rec_id r)) l)) c.

(** What the handlers read, and what the run decides for them. *)
Record env : Type := mkEnv {
  files : filesystem;
  (** [PdfReader(path).pages], each with its [extract_text()] *)
  pdf_pages : str -> result (list (option str));
  (** [pytesseract.image_to_string(Image.open(path))] *)
  image_to_string : str -> result str;
  (** answer of the embedding service to its [n]-th request *)
  embeddings_create : nat -> str -> result embedding;
  (** The place of a name in the iteration of the set of the given names:
      a [for] over a Python set of strings follows its hash table, whose
      order changes from run to run and from set to set. *)
  set_rank : list str -> str -> nat;
  (** [os.getenv('OPENAI_API_KEY')] *)
  OPENAI_API_KEY : option str
}.

(** What the handlers change: both stores, the requests sent to the
    embedding service, and the printed lines. *)
Record world : Type := mkWorld {
  knowledge : collection;
  db : graph;
  requests : list str;
  stdout : list str
}.

Definition print (line : str) (w : world) : world :=
  {| knowledge := knowledge w; db := db w; requests := requests w;
     stdout := stdout w ++ [line] |}.

Definition or_empty (o : option str) : str :=
  match o with Some s => s | None => [] end.

Definition extract_text_from_pdf (E : env) (pdf_path : str) : result str :=
  match pdf_pages E pdf_path with
  | Raise e => Raise e
  | Ok pages => Ok (fold_left (fun text page => text ++ or_empty page)
                              pages [])
  end.

Definition extract_text_from_image (E : env) (image_path : str)
    : result str :=
  image_to_string E image_path.

(** The client of [openai.OpenAI(api_key=...)] is built with its default
    [max_retries]. *)
Definition max_retries : nat := 2.

(** What the client takes to be transient: a connection error, a timeout,
    and a status the header [x-should-retry] or, without the header, the
    code 408, 409, 429 or 5xx marks so. *)
Definition should_retry (e : exn) : bool :=
  match e with
  | APIConnectionError | APITimeoutError => true
  | APIStatusError status_code header =>
      match header with
      | Some b => b
      | None => (status_code =? 408) || (status_code =? 409)
                || (status_code =? 429) || (500 <=? status_code)
      end
  | _ => false
  end.

(** [client.embeddings.create(input=[text], ...)] with [retries] re-sends
    left: every request is sent to the service, and a failure is final when
    it is not transient or no re-send is left. *)
Fixpoint embeddings_request (E : env) (retries : nat) (text : str)
    (w : world) : world * result embedding :=
  let w1 := {| knowledge := knowledge w; db := db w;
               requests := requests w ++ [text]; stdout := stdout w |} in
  match embeddings_create E (List.length (requests w)) text with
  | Ok emb => (w1, Ok emb)
  | Raise e =>
      match retries with
      | S n => if should_retry e then embeddings_request E n text w1
               else (w1, Raise e)
      | O => (w1, Raise e)
      end
  end.

(** [embed_text]: the client is built, which raises [OpenAIError] when
    there is no key, and called once; an error it raises after its
    re-sends propagates. *)
Definition embed_text (E : env) (text : str) (w : world)
    : world * result embedding :=
  match OPENAI_API_KEY E with
  | None => (w, Raise OpenAIError)
  | Some _ => embeddings_request E max_retries text w
  end.

Arguments embed_text : simpl never.

(** In [process_file] and the handlers below the two stores answer every
    write; what a store that raises leaves behind is [interrupted],
    further down. *)
Definition add_to_chroma (doc_id chunk : str) (e : embedding) (w : world)
    : world :=
  {| knowledge := collection_add doc_id chunk e (knowledge w);
     db := db w; requests := requests w; stdout := stdout w |}.

Definition add_to_neo4j (file_id chunk_id chunk : str) (w : world)
    : world :=
  {| knowledge := knowledge w;
     db := merge_file_chunk file_id chunk_id chunk (db w);
     requests := requests w; stdout := stdout w |}.

Definition chunk_id_of (file_id : str) (idx : nat) : str :=
  file_id ++ lit "_chunk_" ++ str_of_nat idx.

(** The loop [for idx, chunk in enumerate(chunks)] of [process_file]. *)
Fixpoint process_chunks (E : env) (file_id : str)
    (ichunks : list (nat * str)) (w : world) : world * outcome :=
  match ichunks with
  | [] => (w, Returned)
  | (idx, chunk) :: rest =>
      let chunk_id := chunk_id_of file_id idx in
      match embed_text E chunk w with
      | (w1, Raise e) => (w1, Raised e)
      | (w1, Ok emb) =>
          process_chunks E file_id rest
            (add_to_neo4j file_id chunk_id chunk
               (add_to_chroma chunk_id chunk emb w1))
      end
  end.

Definition image_exts : list str :=
  [lit ".jpg"; lit ".jpeg"; lit ".png"; lit ".bmp"; lit ".tiff"].

Definition text_exts : list str := [lit ".txt"; lit ".md"].

Definition mem (s : str) (l : list str) : bool := existsb (str_eqb s) l.

(** The extension dispatch of [process_file]; [None] is the [else]
    branch. *)
Definition extract (E : env) (ext file_path : str) : option (result str) :=
  if str_eqb ext (lit ".pdf") then Some (extract_text_from_pdf E file_path)
  else if mem ext image_exts then Some (extract_text_from_image E file_path)
  else if mem ext text_exts
       then Some (extract_text_from_txt (files E) file_path)
  else None.

Definition process_file (E : env) (file_path : str) (w : world)
    : world * outcome :=
  let ext := lower (splitext_ext file_path) in
  let file_id := basename file_path in
  match extract E ext file_path with
  | None => (print (lit "Unsupported file type: " ++ file_path) w, Returned)
  | Some (Raise e) => (w, Raised e)
  | Some (Ok text) =>
      match chunk_text text default_chunk_size default_overlap with
      | Raise e => (w, Raised e)
      | Ok chunks =>
          match process_chunks E file_id (enumerate chunks) w with
          | (w1, Raised e) => (w1, Raised e)
          | (w1, Returned) =>
              (print (lit "Processed " ++ file_path ++ lit " with "
                      ++ str_of_nat (List.length chunks) ++ lit " chunks.")
                     w1,
               Returned)
          end
      end
  end.

Definition on_created (E : env) (ev : event) (w : world) : world * outcome :=
  if is_directory ev then (w, Returned) else process_file E (src_path ev) w.

Definition on_modified (E : env) (ev : event) (w : world)
    : world * outcome :=
  if is_directory ev then (w, Returned) else process_file E (src_path ev) w.

(** The comprehension
    [[doc['id'] for doc in metadatas if doc['id'].startswith(file_id)]]:
    subscripting [None] is a [TypeError], a missing key a [KeyError]. *)
Fixpoint ids_to_remove (metadatas : list (option dict)) (file_id : str)
    : result (list str) :=
  match metadatas with
  | [] => Ok []
  | None :: _ => Raise TypeError
  | Some doc :: rest =>
      match dict_get (lit "id") doc with
      | None => Raise KeyError
      | Some i =>
          match ids_to_remove rest file_id with
          | Raise e => Raise e
          | Ok l => Ok (if startswith i file_id then i :: l else l)
          end
      end
  end.

Definition on_deleted (ev : event) (w : world) : world * outcome :=
  if is_directory ev then (w, Returned)
  else
    let file_id := basename (src_path ev) in
    match ids_to_remove (get_metadatas (knowledge w)) file_id with
    | Raise e => (w, Raised e)
    | Ok l =>
        let c := match l with
                 | [] => knowledge w
                 | _ :: _ => collection_delete l (knowledge w)
                 end in
        let g := detach_delete_file file_id (db w) in
        (print (lit "Deleted " ++ file_id ++ lit " from vector and graph DB.")
               {| knowledge := c; db := g; requests := requests w;
                  stdout := stdout w |},
         Returned)
    end.

End Pipeline.

Unset Implicit Arguments.

(** ** The chunk counts: the formula of the specification and the count of
       the loop *)

Definition ceil_div (a b : Z) : Z := ((a + b - 1) / b)%Z.

(** The specification's count,
    [ceil(max(W - overlap, 0) / (size - overlap))]. *)
Definition spec_chunk_count (W size overlap : Z) : Z :=
  ceil_div (Z.max (W - overlap) 0) (size - overlap).

(** The number of window starts below [W]: [ceil(W / (size - overlap))]. *)
Definition window_count (W size overlap : Z) : Z :=
  ceil_div W (size - overlap).

(** ** Words and windows *)

Definition nospace (w : str) : Prop := Forall (fun c => isspace c = false) w.

Definition is_word (w : str) : Prop := w <> [] /\ nospace w.

(** The [size] words from word [i] on. *)
Definition window (words : list str) (size : Z) (i : nat) : list str :=
  firstn (Z.to_nat size) (skipn i words).

(** ** States of the stores *)

Definition init_graph : graph := mkGraph [] [] 0.

(** Both stores empty, nothing requested, nothing printed. *)
Definition init_world {embedding : Type} : world embedding :=
  mkWorld [] init_graph [] [].

(** Every record is as [add_to_chroma] writes it: without metadata. *)
Definition written_by_pipeline {embedding : Type} (c : collection embedding)
    : Prop :=
  Forall (fun r => metadata r = None) c.

(** Node identities are unique and below the next one to be given. *)
Definition graph_wf (g : graph) : Prop :=
  NoDup (List.map nid (nodes g))
  /\ Forall (fun n => nid n < next_nid g) (nodes g).

(** [add_to_neo4j file_id chunk_id text] finds everything it merges. *)
Definition merged (g : graph) (file_id chunk_id text : str) : Prop :=
  existsb (matches File [(lit "id", file_id)]) (nodes g) = true
  /\ existsb (matches Chunk [(lit "id", chunk_id); (lit "text", text)])
             (nodes g) = true
  /\ forall f c,
       In f (nodes g) -> In c (nodes g) ->
       matches File [(lit "id", file_id)] f = true ->
       matches Chunk [(lit "id", chunk_id)] c = true ->
       In (nid f, nid c) (contains g).

(** The chunk [ic = (idx, text)] of [file_id] is in both stores. *)
Definition stored {embedding : Type} (c : collection embedding) (g : graph)
    (file_id : str) (ic : nat * str) : Prop :=
  In (chunk_id_of file_id (fst ic)) (ids c)
  /\ merged g file_id (chunk_id_of file_id (fst ic)) (snd ic).

(** The world after [n] embedding requests for [text] were sent. *)
Definition resent {embedding : Type} (text : str) (n : nat)
    (w : world embedding) : world embedding :=
  mkWorld (knowledge w) (db w) (requests w ++ repeat text n) (stdout w).

(** What the loop of [process_file] adds to the vector store for the
    numbered chunks [l], each given with its embedding. *)
Fixpoint add_chunks {embedding : Type} (file_id : str)
    (l : list ((nat * str) * embedding)) (c : collection embedding)
    : collection embedding :=
  match l with
  | [] => c
  | ((idx, chunk), emb) :: rest =>
      add_chunks file_id rest
        (collection_add (chunk_id_of file_id idx) chunk emb c)
  end.

(** What the loop of [process_file] merges into the graph for the numbered
    chunks [l]. *)
Fixpoint merge_chunks (file_id : str) (l : list (nat * str)) (g : graph)
    : graph :=
  match l with
  | [] => g
  | (idx, chunk) :: rest =>
      merge_chunks file_id rest
        (merge_file_chunk file_id (chunk_id_of file_id idx) chunk g)
  end.

(** The requests for the texts of [l] in turn, each sent as many times as
    [l] gives. *)
Fixpoint sent (l : list (str * nat)) : list str :=
  match l with
  | [] => []
  | (text, n) :: rest => repeat text n ++ sent rest
  end.

(** Every record carries its id in its metadata as well, under the key
    ['id'] that the comprehension of [on_deleted] reads. *)
Definition carries_ids {embedding : Type} (c : collection embedding) : Prop :=
  Forall (fun r => exists d, metadata r = Some d
                             /\ dict_get (lit "id") d = Some (rec_id r)) c.

(** The node is a [File] node with the id [file_id]. *)
Definition file_node (file_id : str) (n : node) : Prop :=
  nlabel n = File /\ dict_get (lit "id") (props n) = Some file_id.

(** The answers of the service to the requests from number [start] on
    make a call of the client for [text] send [n] requests and return an
    embedding: [n - 1] errors that the client takes to be transient, then
    an answer. *)
Fixpoint answered {embedding : Type} (E : env embedding) (start : nat)
    (text : str) (n : nat) : Prop :=
  match n with
  | 0 => False
  | S m =>
      match m with
      | 0 => exists emb, embeddings_create E start text = Ok emb
      | S _ =>
          (exists e, embeddings_create E start text = Raise e
                     /\ should_retry e = true)
          /\ answered E (S start) text m
      end
  end.

(** They make it send [n] requests and raise [e]: [n - 1] errors that the
    client takes to be transient, then [e]. *)
Fixpoint refused {embedding : Type} (E : env embedding) (start : nat)
    (text : str) (n : nat) (e : exn) : Prop :=
  match n with
  | 0 => False
  | S m =>
      match m with
      | 0 => embeddings_create E start text = Raise e
      | S _ =>
          (exists e', embeddings_create E start text = Raise e'
                      /\ should_retry e' = true)
          /\ refused E (S start) text m e
      end
  end.

(** The calls for the texts of [l] in turn, from request [start] on, are
    answered with as many requests as [l] gives. *)
Fixpoint all_answered {embedding : Type} (E : env embedding) (start : nat)
    (l : list (str * nat)) : Prop :=
  match l with
  | [] => True
  | (text, n) :: rest =>
      answered E start text n /\ all_answered E (start + n) rest
  end.

(** The records of a collection under the id [i]. *)
Definition records_of {embedding : Type} (i : str)
    (c : collection embedding) : collection embedding :=
  filter (fun r => str_eqb (rec_id r) i) c.

(** The collection lives in the memory of the process ([chromadb.Client]
    is given no persistent implementation) and the graph in the database
    server: when the monitor is started again the collection is empty, the
    graph is as it was left, and nothing has been requested or printed. *)
Definition restart {embedding : Type} (w : world embedding)
    : world embedding :=
  mkWorld [] (db w) [] [].

(** The three kinds of event the observer delivers to the handler. *)
Inductive fs_event : Type :=
| Created (ev : event)
| Modified (ev : event)
| Deleted (ev : event).

Definition dispatch {embedding : Type} (E : env embedding) (x : fs_event)
    (w : world embedding) : world embedding * outcome :=
  match x with
  | Created ev => on_created E ev w
  | Modified ev => on_modified E ev w
  | Deleted ev => on_deleted ev w
  end.

(** The points at which a store that raises cuts the writes for a chunk:
    at [collection.add], or at the first, second or third [session.run] of
    [add_to_neo4j], each of which is a transaction of its own. *)
Inductive cut : Type := AtAdd | AtMergeFile | AtMergeChunk | AtMergeContains.

(** What is written for the chunk when the store raises at the point. *)
Definition cut_writes {embedding : Type} (file_id chunk_id chunk : str)
    (emb : embedding) (point : cut) (w : world embedding)
    : world embedding :=
  let c1 := collection_add chunk_id chunk emb (knowledge w) in
  let g1 := merge_node File [(lit "id", file_id)] (db w) in
  let g2 := merge_node Chunk [(lit "id", chunk_id); (lit "text", chunk)]
                       g1 in
  match point with
  | AtAdd => w
  | AtMergeFile => mkWorld c1 (db w) (requests w) (stdout w)
  | AtMergeChunk => mkWorld c1 g1 (requests w) (stdout w)
  | AtMergeContains => mkWorld c1 g2 (requests w) (stdout w)
  end.

(** [interrupted E x w w']: a store raises in the middle of the handler of
    [x], which leaves [w'].  In an ingestion the chunks before [k] have
    been written, chunk [k] has its embedding, and the store raises at one
    of the writes for it; in a deletion the records have been deleted and
    the graph store raises. *)
Inductive interrupted {embedding : Type} (E : env embedding)
    : fs_event -> world embedding -> world embedding -> Prop :=
| cut_ingest x ev text chunks k c w w1 w2 emb point :
    x = Created ev \/ x = Modified ev ->
    is_directory ev = false ->
    extract E (lower (splitext_ext (src_path ev))) (src_path ev)
    = Some (Ok text) ->
    chunk_text text default_chunk_size default_overlap = Ok chunks ->
    nth_error chunks k = Some c ->
    process_chunks E (basename (src_path ev)) (firstn k (enumerate chunks)) w
    = (w1, Returned) ->
    embed_text E c w1 = (w2, Ok emb) ->
    interrupted E x w
      (cut_writes (basename (src_path ev))
                  (chunk_id_of (basename (src_path ev)) k) c emb point w2)
| cut_delete ev w l :
    is_directory ev = false ->
    ids_to_remove (get_metadatas (knowledge w)) (basename (src_path ev))
    = Ok l ->
    interrupted E (Deleted ev) w
      (mkWorld match l with
               | [] => knowledge w
               | _ :: _ => collection_delete l (knowledge w)
               end
               (db w) (requests w) (stdout w)).

(** The worlds the handlers produce from empty stores: a handler that
    returns or raises leaves the world it had reached, and so does a
    handler that a store cuts short. *)
Inductive reachable {embedding : Type} (E : env embedding)
    : world embedding -> Prop :=
| reach_init : reachable E init_world
| reach_event x w : reachable E w -> reachable E (fst (dispatch E x w))
| reach_cut x w w' : reachable E w -> interrupted E x w w' -> reachable E w'.

(** ** Example environments *)

Module Examples.

Definition doc1 : str := lit "knowledge_base/doc1.txt".
Definition other : str := lit "knowledge_base/other.txt".
Definition cafe : str := lit "knowledge_base/cafe.txt".
Definition long : str := lit "knowledge_base/long.txt".
Definition exe : str := lit "knowledge_base/doc1.exe".
Definition blank : str := lit "knowledge_base/blank.md".

(** 451 one-letter words: two windows of the default chunker. *)
Definition long_bytes : bytes :=
  List.concat (repeat (list_byte_of_string "w ") 451).

(** [cafe.txt] holds the single byte 0xE9, the Latin-1 e-acute. *)
Definition fs : filesystem := fun p =>
  if str_eqb p doc1 then Some (list_byte_of_string "hello world")
  else if str_eqb p other then Some (list_byte_of_string "other words")
  else if str_eqb p cafe then Some [xe9]
  else if str_eqb p long then Some long_bytes
  else if str_eqb p blank then Some [x20; x09; x0d; x0a; x20]
  else None.

(** Every embedding request is answered. *)
Definition E_up : env nat :=
  mkEnv fs (fun _ => Raise (ExternalError "pdf"))
        (fun _ => Raise (ExternalError "ocr"))
        (fun n _ => Ok n)
        (fun _ _ => 0) (Some (lit "sk-example")).

Definition w0 : world nat := init_world.

Definition long_text : str := List.concat (repeat (lit "w ") 451).

Definition long_chunks : list str :=
  match chunk_text long_text default_chunk_size default_overlap with
  | Ok chunks => chunks
  | Raise _ => []
  end.

(** The world after [doc1.txt] was ingested. *)
Definition w_doc1 : world nat := fst (process_file E_up doc1 w0).

(** The world after [other.txt] was ingested. *)
Definition w_other : world nat := fst (process_file E_up other w0).

(** A collection that holds one record under the id of a chunk. *)
Definition c_old : collection nat :=
  [mkRecord (lit "doc1.txt_chunk_0") (lit "old text") 7 None].

Definition long3 : str := lit "knowledge_base/long3.txt".

(** 901 one-letter words: three windows of the default chunker. *)
Definition long3_bytes : bytes :=
  List.concat (repeat (list_byte_of_string "w ") 901).

Definition long3_text : str := List.concat (repeat (lit "w ") 901).

Definition long3_chunks : list str :=
  match chunk_text long3_text default_chunk_size default_overlap with
  | Ok chunks => chunks
  | Raise _ => []
  end.

Definition fs3 : filesystem := fun p =>
  if str_eqb p long3 then Some long3_bytes else None.

(** The first embedding request is answered, the next three meet the
    status 503, and every later one is answered. *)
Definition E_second_fails : env nat :=
  mkEnv fs3 (fun _ => Raise (ExternalError "pdf"))
        (fun _ => Raise (ExternalError "ocr"))
        (fun n _ => if (1 <=? n) && (n <=? 3)
                    then Raise (APIStatusError 503 None)
                    else Ok n)
        (fun _ _ => 0) (Some (lit "sk-example")).

(** The first embedding request meets the status 429, every later one is
    answered. *)
Definition E_flaky : env nat :=
  mkEnv fs (fun _ => Raise (ExternalError "pdf"))
        (fun _ => Raise (ExternalError "ocr"))
        (fun n _ => match n with
                    | 0 => Raise (APIStatusError 429 None)
                    | S _ => Ok n
                    end)
        (fun _ _ => 0) (Some (lit "sk-example")).

(** The service would answer, but there is no key in the environment. *)
Definition E_no_key : env nat :=
  mkEnv fs (fun _ => Raise (ExternalError "pdf"))
        (fun _ => Raise (ExternalError "ocr"))
        (fun n _ => Ok n)
        (fun _ _ => 0) None.

Definition a_txt : str := lit "knowledge_base/a.txt".
Definition a_txt_md : str := lit "knowledge_base/a.txt.md".

Definition b_txt : str := lit "knowledge_base/b.txt".

Definition fs_a : filesystem := fun p =>
  if str_eqb p a_txt then Some (list_byte_of_string "words")
  else if str_eqb p a_txt_md then Some (list_byte_of_string "kept words")
  else if str_eqb p b_txt then Some (list_byte_of_string "other words")
  else None.

Definition E_a : env nat :=
  mkEnv fs_a (fun _ => Raise (ExternalError "pdf"))
        (fun _ => Raise (ExternalError "ocr"))
        (fun n _ => Ok n)
        (fun _ _ => 0) (Some (lit "sk-example")).

(** The world after [a.txt], [a.txt.md] and [b.txt] were ingested. *)
Definition w_a : world nat :=
  fst (process_file E_a b_txt
         (fst (process_file E_a a_txt_md (fst (process_file E_a a_txt w0))))).



End Examples.

(** ** Further states of the stores *)

(** [w'] holds everything [w] holds, in the same order, and possibly more
    after it. *)
Definition grows {embedding : Type} (w w' : world embedding) : Prop :=
  (exists rs, knowledge w' = knowledge w ++ rs)
  /\ (exists ns, nodes (db w') = nodes (db w) ++ ns)
  /\ (exists es, contains (db w') = contains (db w) ++ es).

(** Every relationship joins two nodes of the graph. *)
Definition rels_closed (g : graph) : Prop :=
  forall a b, In (a, b) (contains g) ->
              In a (List.map nid (nodes g)) /\ In b (List.map nid (nodes g)).

(** How the two stores stand to each other while every write of the
    handlers is answered: a record has a [Chunk] node with its id and its
    text, a [Chunk] node carries the id of a record (whose text may be
    another), and a [Chunk] node is contained in a [File] node. *)
Definition cross_consistent {embedding : Type} (c : collection embedding)
    (g : graph) : Prop :=
  (forall r, In r c ->
     existsb (matches Chunk [(lit "id", rec_id r); (lit "text", document r)])
             (nodes g) = true)
  /\ (forall n, In n (nodes g) -> nlabel n = Chunk ->
        exists i, dict_get (lit "id") (props n) = Some i /\ In i (ids c))
  /\ (forall n, In n (nodes g) -> nlabel n = Chunk ->
        exists f, In f (nodes g) /\ nlabel f = File
                  /\ In (nid f, nid n) (contains g)).

(** Every [Chunk] node carries the id of a record. *)
Definition chunk_nodes_recorded {embedding : Type}
    (c : collection embedding) (g : graph) : Prop :=
  forall n, In n (nodes g) -> nlabel n = Chunk ->
    exists i, dict_get (lit "id") (props n) = Some i /\ In i (ids c).

(** What holds of the two stores after any sequence of events, also when
    a store has cut a handler short. *)
Definition stores_inv {embedding : Type} (c : collection embedding)
    (g : graph) : Prop :=
  NoDup (ids c)
  /\ written_by_pipeline c
  /\ graph_wf g
  /\ rels_closed g
  /\ chunk_nodes_recorded c g
  /\ (c = [] -> g = init_graph).

(** What holds of the two stores after any sequence of events in which no
    store has raised. *)
Definition stores_ok {embedding : Type} (c : collection embedding)
    (g : graph) : Prop :=
  NoDup (ids c)
  /\ written_by_pipeline c
  /\ graph_wf g
  /\ rels_closed g
  /\ cross_consistent c g
  /\ (c = [] -> g = init_graph).

(** ** The polling loop of [start_monitor] *)

(** [s.endswith('/')] *)
Definition endswith_sep (s : str) : bool :=
  match rev s with
  | c :: _ => N.eqb c slash
  | [] => false
  end.

(** [os.path.join(a, b)] *)
Definition path_join (a b : str) : str :=
  if startswith b [slash] then b
  else if negb (truthy a) || endswith_sep a then a ++ b
  else a ++ [slash] ++ b.

Definition KNOWLEDGE_BASE_DIR : str := lit "knowledge_base".

(** A set of names, kept as a list without duplicates in the order of the
    first occurrences. *)
Fixpoint set_of (l : list str) : list str :=
  match l with
  | [] => []
  | x :: r => x :: filter (fun y => negb (str_eqb y x)) (set_of r)
  end.

(** An entry of [os.listdir], with what [os.path.isfile] says of it. *)
Definition entry : Type := str * bool.

(** Insertion by rank, before the names of the same or of a higher
    rank. *)
Fixpoint insert_by (rank : str -> nat) (x : str) (l : list str) : list str :=
  match l with
  | [] => [x]
  | y :: r => if rank x <=? rank y then x :: l else y :: insert_by rank x r
  end.

(** The names in the order of their ranks; names of one rank keep their
    order. *)
Definition sort_by (rank : str -> nat) (l : list str) : list str :=
  fold_right (insert_by rank) [] l.

Section Monitor.

Variable embedding : Type.

(** The order in which [for f in s] meets the names of the set [s]. *)
Definition iteration (E : env embedding) (s : list str) : list str :=
  sort_by (set_rank E s) s.

(** [for f in new_files: event_handler.process_file(os.path.join(dir, f))] *)
Fixpoint process_new (E : env embedding) (new_files : list str)
    (w : world embedding) : world embedding * outcome :=
  match new_files with
  | [] => (w, Returned)
  | f :: rest =>
      match process_file E (path_join KNOWLEDGE_BASE_DIR f) w with
      | (w1, Returned) => process_new E rest w1
      | (w1, Raised e) => (w1, Raised e)
      end
  end.

(** One pass of the body of [while True]: the new files are processed in
    the order of the iteration of their set, and [processed_files] is
    updated only after the whole batch went through. *)
Definition tick (E : env embedding) (entries : list entry)
    (processed_files : list str) (w : world embedding)
    : list str * world embedding * outcome :=
  let files := set_of (List.map fst (filter snd entries)) in
  let new_files :=
    iteration E (filter (fun f => negb (mem f processed_files)) files) in
  match new_files with
  | [] => (processed_files, w, Returned)
  | _ :: _ =>
      match process_new E new_files w with
      | (w1, Returned) => (processed_files ++ new_files, w1, Returned)
      | (w1, Raised e) => (processed_files, w1, Raised e)
      end
  end.

(** The loop over the successive listings of the directory; only
    [KeyboardInterrupt] is caught around it, so any other exception ends
    it. *)
Fixpoint poll (E : env embedding) (listings : list (list entry))
    (processed_files : list str) (w : world embedding)
    : list str * world embedding * outcome :=
  match listings with
  | [] => (processed_files, w, Returned)
  | entries :: rest =>
      match tick E entries processed_files w with
      | (p1, w1, Returned) => poll E rest p1 w1
      | (p1, w1, Raised e) => (p1, w1, Raised e)
      end
  end.

End Monitor.

Arguments iteration {embedding} E s.
Arguments process_new {embedding} E new_files w.
Arguments tick {embedding} E entries processed_files w.
Arguments poll {embedding} E listings processed_files w.

(** ** Code points *)

(** A Unicode scalar value: at most U+10FFFF and no surrogate. *)
Definition scalar_value (c : char) : Prop :=
  (c <= 1114111 /\ ~ (55296 <= c <= 57343))%N.

(** ** The upload side: [FileProcessor], [ChatHistoryManager] and the
       [/api/upload] handler *)

(** [os.path.splitext(p)] *)
Definition splitext (p : str) : str * str :=
  let sepIndex := rfind slash p in
  let dotIndex := rfind dot p in
  if (sepIndex <? dotIndex)%Z then
    if existsb (fun x => negb (N.eqb x dot)) (py_slice p (sepIndex + 1) dotIndex)
    then (py_slice p 0 dotIndex, py_slice p dotIndex (len p))
    else (p, [])
  else (p, []).

(** [s.split(sep)]: the first field, and the fields after the first
    separator. *)
Fixpoint fields_of (sep : char) (s : str) : str * list str :=
  match s with
  | [] => ([], [])
  | c :: r =>
      let (w, ws) := fields_of sep r in
      if N.eqb c sep then ([], w :: ws) else (c :: w, ws)
  end.

Definition split_on (sep : char) (s : str) : list str :=
  let (w, ws) := fields_of sep s in w :: ws.

(** [Path(p).name]: the last component that is neither empty nor ["."]. *)
Definition path_name (p : str) : str :=
  last (filter (fun x => truthy x && negb (str_eqb x (lit ".")))
               (split_on slash p)) [].

(** [Path(p).suffix]: from the last dot of the name on, unless that dot is
    the first or the last character of the name. *)
Definition path_suffix (p : str) : str :=
  let name := path_name p in
  let i := rfind dot name in
  if ((0 <? i) && (i <? len name - 1))%Z then py_slice name i (len name)
  else [].

Fixpoint lstrip (s : str) : str :=
  match s with
  | [] => []
  | c :: r => if isspace c then lstrip r else s
  end.

(** [s.rstrip()] *)
Definition rstrip (s : str) : str := rev (lstrip (rev s)).

(** [s.strip()] *)
Definition strip (s : str) : str := lstrip (rstrip s).

(** [datetime.now()], as far as [strftime] reads it. *)
Record datetime : Type := mkDatetime {
  year : nat; month : nat; day : nat;
  hour : nat; minute : nat; second : nat
}.

(** A field printed on two digits. *)
Definition pad2 (n : nat) : str :=
  if n <? 10 then lit "0" ++ str_of_nat n else str_of_nat n.

(** [d.strftime("%Y%m%d_%H%M%S")]; the year is printed as it is, which
    is what [%Y] gives for the years from 1000 on. *)
Definition strftime_stamp (d : datetime) : str :=
  str_of_nat (year d) ++ pad2 (month d) ++ pad2 (day d) ++ lit "_"
  ++ pad2 (hour d) ++ pad2 (minute d) ++ pad2 (second d).

(** What the upload side takes from the platform. *)
Record platform : Type := mkPlatform {
  now : datetime;
  (** [datetime.now().isoformat()] *)
  now_isoformat : str;
  (** [c.isalnum()] *)
  isalnum : char -> bool;
  (** [mimetypes.guess_type(name)[0]] *)
  guess_type : str -> option str;
  (** [str(e)] *)
  str_of_exn : exn -> str;
  (** The exception, if any, with which the operating system refuses to
      open the path for writing: the name is too long for the file
      system, the directory is gone, the path cannot be encoded, ... *)
  open_error : str -> option exn;
  (** The exception, if any, with which writing the bytes of an upload to
      the open file at the path fails, and the number of bytes that have
      reached the file. *)
  write_error : str -> option (exn * nat);
  (** The exception, if any, with which writing a session file at the path
      fails, and the exception that reading what is left of the file
      raises: a proper part of a JSON document is no JSON document. *)
  dump_error : str -> option (exn * exn);
  (** The exception, if any, with which the operating system refuses to
      open the path for reading although the file exists. *)
  read_error : str -> option exn
}.

(** [str.isalnum] on the Basic Latin block. *)
Definition ascii_isalnum (c : char) : bool :=
  ((48 <=? c) && (c <=? 57) || (65 <=? c) && (c <=? 90)
   || (97 <=? c) && (c <=? 122))%N.

(** The platform's [isalnum] is [str.isalnum] on the Basic Latin block. *)
Definition isalnum_on_ascii (P : platform) : Prop :=
  forall c, (c < 128)%N -> isalnum P c = ascii_isalnum c.

(** A surrogate code point, which the strict UTF-8 encoder refuses. *)
Definition is_surrogate (c : char) : bool :=
  ((55296 <=? c) && (c <=? 57343))%N.

(** The surrogates U+DC80 .. U+DCFF, which stand for the bytes 0x80 .. 0xFF
    in a file name. *)
Definition is_escape (c : char) : bool := ((56448 <=? c) && (c <=? 56575))%N.

(** What the conversion of a path raises before the operating system is
    asked: [UnicodeEncodeError] for a surrogate that stands for no byte,
    [ValueError] for an embedded null character. *)
Definition path_error (path : str) : option exn :=
  if existsb (fun c => is_surrogate c && negb (is_escape c)) path
  then Some UnicodeEncodeError
  else if existsb (N.eqb 0) path then Some ValueError
  else None.

(** [with open(path, 'wb') as f: f.write(content)]: the file system it
    leaves, and the exception if one is raised.  When [open] fails the
    file system is as it was; when the write fails the file holds the
    bytes that reached it; otherwise the path holds the content. *)
Definition fs_write (P : platform) (path : str) (content : bytes)
    (fs : filesystem) : filesystem * option exn :=
  match path_error path with
  | Some e => (fs, Some e)
  | None =>
    match open_error P path with
    | Some e => (fs, Some e)
    | None =>
        match write_error P path with
        | Some (e, k) =>
            (fun p => if str_eqb p path then Some (firstn k content)
                      else fs p,
             Some e)
        | None =>
            (fun p => if str_eqb p path then Some content else fs p, None)
        end
    end
  end.

Module FP.

Definition text_exts : list str :=
  [lit ".txt"; lit ".md"; lit ".py"; lit ".js"; lit ".html"; lit ".css";
   lit ".json"; lit ".xml"; lit ".csv"].

Definition image_exts : list str :=
  [lit ".jpg"; lit ".jpeg"; lit ".png"; lit ".gif"; lit ".bmp"; lit ".webp"].

Definition supported_extensions : list str :=
  text_exts ++ [lit ".pdf"; lit ".doc"; lit ".docx"] ++ image_exts
  ++ [lit ".cpp"; lit ".c"; lit ".java"; lit ".php"; lit ".rb"; lit ".go";
      lit ".rs"; lit ".swift"].

Record file_info : Type := mkFileInfo {
  filename : str;
  original_filename : str;
  file_path : str;
  size : nat;
  mime_type : option str;
  extension : str
}.

Definition keeps (P : platform) (c : char) : bool :=
  isalnum P c || N.eqb c 32 || N.eqb c 45 || N.eqb c 95.

Definition _generate_safe_filename (P : platform) (name_in : str) : str :=
  let timestamp := strftime_stamp (now P) in
  let (name, ext) := splitext name_in in
  let safe_name := rstrip (filter (keeps P) name) in
  timestamp ++ lit "_" ++ safe_name ++ ext.

Definition save_uploaded_file (P : platform) (upload_dir : str)
    (file_content : bytes) (name_in : str) (fs : filesystem)
    : filesystem * result file_info :=
  let safe_filename := _generate_safe_filename P name_in in
  let path := path_join upload_dir safe_filename in
  match fs_write P path file_content fs with
  | (fs1, Some e) => (fs1, Raise e)
  | (fs1, None) =>
      (fs1,
       Ok (mkFileInfo safe_filename name_in path (List.length file_content)
                      (guess_type P name_in) (lower (path_suffix name_in))))
  end.

Definition is_supported_file (name_in : str) : bool :=
  mem (lower (path_suffix name_in)) supported_extensions.

Definition nl : str := [10%N].

(** [f"{x}"] of an optional string. *)
Definition fmt_option (o : option str) : str :=
  match o with Some s => s | None => lit "None" end.

Definition _process_pdf (fs : filesystem) (path : str) : result str :=
  match fs path with
  | None => Raise FileNotFoundError
  | Some bs =>
      Ok (lit "PDF file uploaded successfully." ++ nl ++ lit "File size: "
          ++ str_of_nat (List.length bs) ++ lit " bytes" ++ nl ++ nl
          ++ lit "Note: PDF text extraction requires additional libraries. Consider uploading the text content directly for analysis.")
  end.

Definition _process_image (info : file_info) : str :=
  lit "Image uploaded: " ++ original_filename info ++ nl ++ lit "Size: "
  ++ str_of_nat (size info) ++ lit " bytes" ++ nl ++ lit "Format: "
  ++ extension info ++ nl ++ nl
  ++ lit "Image analysis capabilities would require computer vision models. The image has been saved and can be referenced in our conversation.".

Definition not_analysed (info : file_info) : str :=
  lit "File uploaded: " ++ original_filename info ++ lit " ("
  ++ str_of_nat (size info) ++ lit " bytes)" ++ nl ++ lit "File type: "
  ++ fmt_option (mime_type info) ++ nl ++ nl
  ++ lit "This file type is supported but content analysis is not available yet.".

(** The body of the [try] of [process_file]; a file that the operating
    system does not open is not read. *)
Definition dispatch_file (P : platform) (fs : filesystem) (info : file_info)
    : result str :=
  if mem (extension info) text_exts
  then match read_error P (file_path info) with
       | Some e => Raise e
       | None => FileProcessor._read_text_file fs (file_path info)
       end
  else if str_eqb (extension info) (lit ".pdf")
       then _process_pdf fs (file_path info)
  else if mem (extension info) image_exts then Ok (_process_image info)
  else Ok (not_analysed info).

Definition process_file (P : platform) (fs : filesystem) (info : file_info)
    : str :=
  match dispatch_file P fs info with
  | Ok s => s
  | Raise e =>
      lit "Error processing file " ++ original_filename info ++ lit ": "
      ++ str_of_exn P e
  end.

End FP.

Module ChatHistoryManager.

Record message : Type := mkMessage {
  role : str;
  content : str;
  timestamp : str
}.

Record session : Type := mkSession {
  session_id : str;
  created_at : str;
  title : str;
  messages : list message
}.

(** A session file holds the document [save_session] dumped, or what a
    failed dump left of it, which is no JSON document: [Garbled e] is a
    file whose reading raises [e]. *)
Inductive session_file : Type :=
| Valid (data : session)
| Garbled (e : exn).

(** The session files, by path. *)
Definition session_files : Type := str -> option session_file.

Definition session_path (storage_dir id : str) : str :=
  path_join storage_dir (id ++ lit ".json").

(** A string the strict UTF-8 encoder of a text file takes. *)
Definition encodable (s : str) : bool := negb (existsb is_surrogate s).

Definition message_encodable (m : message) : bool :=
  encodable (role m) && encodable (content m) && encodable (timestamp m).

(** Every string of the session can be written to a UTF-8 file. *)
Definition session_encodable (d : session) : bool :=
  encodable (session_id d) && encodable (created_at d) && encodable (title d)
  && forallb message_encodable (messages d).

(** [os.path.exists] is false for a path that cannot be converted. *)
Definition load_session (P : platform) (storage_dir id : str)
    (files : session_files) : result (option session) :=
  let path := session_path storage_dir id in
  match path_error path with
  | Some _ => Ok None
  | None =>
    match files path with
    | None => Ok None
    | Some f =>
        match read_error P path with
        | Some e => Raise e
        | None =>
            match f with
            | Valid data => Ok (Some data)
            | Garbled e => Raise e
            end
        end
    end
  end.

Definition put (path : str) (f : session_file) (files : session_files)
    : session_files :=
  fun p => if str_eqb p path then Some f else files p.

(** [with open(path, 'w', encoding='utf-8') as f: json.dump(data, f,
    indent=2, ensure_ascii=False)]: opening truncates the file, the
    document is written piece by piece, and the piece with a surrogate is
    refused with [UnicodeEncodeError] after the pieces before it were
    written. *)
Definition save_session (P : platform) (storage_dir id : str)
    (data : session) (files : session_files) : session_files * outcome :=
  let path := session_path storage_dir id in
  match path_error path with
  | Some e => (files, Raised e)
  | None =>
    match open_error P path with
    | Some e => (files, Raised e)
    | None =>
        match dump_error P path with
        | Some (e, e') => (put path (Garbled e') files, Raised e)
        | None =>
            if session_encodable data
            then (put path (Valid data) files, Returned)
            else (put path (Garbled JSONDecodeError) files,
                  Raised UnicodeEncodeError)
        end
    end
  end.

(** [m["content"][:60] + ("..." if len(m["content"]) > 60 else "")] *)
Definition shorten (text : str) : str :=
  py_slice text 0 60 ++ (if (60 <? len text)%Z then lit "..." else []).

Fixpoint first_user_title (ms : list message) : str :=
  match ms with
  | [] => lit "New Chat"
  | m :: rest =>
      if str_eqb (role m) (lit "user") && truthy (strip (content m))
      then shorten (content m)
      else first_user_title rest
  end.

Definition summarize_session (ms : list message) : str :=
  match ms with
  | [] => lit "New Chat"
  | _ :: _ => first_user_title ms
  end.

(** [if session_data:] holds for every document [save_session] dumped,
    which has its four keys. *)
Definition add_message (P : platform) (storage_dir id role_in content_in : str)
    (files : session_files) : session_files * outcome :=
  match load_session P storage_dir id files with
  | Raise e => (files, Raised e)
  | Ok None => (files, Returned)
  | Ok (Some data) =>
      let ms := messages data
                ++ [mkMessage role_in content_in (now_isoformat P)] in
      save_session P storage_dir id
        (mkSession (session_id data) (created_at data)
                   (summarize_session ms) ms)
        files
  end.

End ChatHistoryManager.

Module Main.

Record FileUploadResponse : Type := mkFileUploadResponse {
  success : bool;
  filename : str;
  file_id : str;
  content_preview : str;
  error : option str
}.

Inductive http_result : Type :=
| HTTPException (status_code : nat) (detail : str)
| Response (r : FileUploadResponse).

Definition max_upload : Z := 10 * 1024 * 1024.

Definition upload_dir : str := lit "uploads".
Definition storage_dir : str := lit "chat_sessions".

(** [content_preview[:500] + ("..." if len(content_preview) > 500 else "")] *)
Definition preview (text : str) : str :=
  py_slice text 0 500 ++ (if (500 <? len text)%Z then lit "..." else []).

(** The paperclip of the chat message, U+1F4CE. *)
Definition paperclip : char := 128206%N.

(** The message [upload_file] adds to the session. *)
Definition file_message (name_in text : str) : str :=
  [paperclip] ++ lit " Uploaded file: " ++ name_in ++ FP.nl ++ FP.nl ++ text.

(** The block [if session_id: ...] of [upload_file]. *)
Definition record_upload (P : platform) (session : option str)
    (name_in text : str) (chats : ChatHistoryManager.session_files)
    : ChatHistoryManager.session_files * outcome :=
  match session with
  | Some id =>
      if truthy id
      then ChatHistoryManager.add_message P storage_dir id (lit "user")
             (file_message name_in text) chats
      else (chats, Returned)
  | None => (chats, Returned)
  end.

(** The answer of the branch [except Exception as e]. *)
Definition failed (P : platform) (name_in : str) (e : exn)
    : FileUploadResponse :=
  mkFileUploadResponse false name_in [] [] (Some (str_of_exn P e)).

(** [upload_file(file, session_id)], for a file that has a name; the
    files of both directories are what it leaves.  The two
    [HTTPException]s are raised again; every other exception, of the
    writing of the file or of the session, is answered by [failed]. *)
Definition upload_file (P : platform) (content : bytes) (name_in : str)
    (session : option str)
    (fs : filesystem) (chats : ChatHistoryManager.session_files)
    : filesystem * ChatHistoryManager.session_files * http_result :=
  if (max_upload <? Z.of_nat (List.length content))%Z
  then (fs, chats,
        HTTPException 413 (lit "File too large. Maximum size is 10MB."))
  else if negb (FP.is_supported_file name_in)
  then (fs, chats, HTTPException 400 (lit "File type not supported."))
  else
    match FP.save_uploaded_file P upload_dir content name_in fs with
    | (fs1, Raise e) => (fs1, chats, Response (failed P name_in e))
    | (fs1, Ok info) =>
        let text := FP.process_file P fs1 info in
        match record_upload P session name_in text chats with
        | (chats1, Raised e) => (fs1, chats1, Response (failed P name_in e))
        | (chats1, Returned) =>
            (fs1, chats1,
             Response (mkFileUploadResponse true (FP.filename info)
                         (FP.filename info) (preview text) None))
        end
    end.

End Main.

(** An upload platform for the examples: the clock reads 2024-03-07
    09:05:00, and a file name of more than 255 characters is refused with
    the error number 36, [ENAMETOOLONG]. *)
Definition example_platform : platform :=
  mkPlatform (mkDatetime 2024 3 7 9 5 0) (lit "2024-03-07T09:05:00.000000")
             (fun c => (c <? 128)%N && ascii_isalnum c)
             (fun _ => None) (fun _ => lit "error")
             (fun path => if 255 <? List.length (basename path)
                          then Some (OSError 36) else None)
             (fun _ => None) (fun _ => None) (fun _ => None).

(** A decimal digit. *)
Definition is_digit (c : char) : Prop := (48 <= c <= 57)%N.

(** One stored session, with a user message, for the examples. *)
Definition example_sessions : ChatHistoryManager.session_files :=
  fun p =>
    if str_eqb p (lit "chat_sessions/s1.json")
    then Some (ChatHistoryManager.Valid (ChatHistoryManager.mkSession
                 (lit "s1") (lit "2024-03-07T09:00:00") (lit "hello")
                 [ChatHistoryManager.mkMessage (lit "user") (lit "hello")
                    (lit "2024-03-07T09:00:01")]))
    else None.

(** An upload name with a stem of 300 letters. *)
Definition long_name : str := repeat 97%N 300 ++ lit ".txt".

(** * Properties *)

(** ** Tokenization *)


Lemma cons_word_words w ws :
  nospace w -> Forall is_word ws -> Forall is_word (cons_word w ws).
Proof.
  destruct w as [|c w]; simpl; intros Hw Hws; auto.
  constructor; auto. split; [discriminate | exact Hw].
Qed.

Lemma words_of_ok s :
  nospace (fst (words_of s)) /\ Forall is_word (snd (words_of s)).
Proof.
  induction s as [|c r [IH1 IH2]]; simpl.
  - split; constructor.
  - destruct (words_of r) as [w ws]; simpl in *.
    destruct (isspace c) eqn:Hc; simpl.
    + split; [constructor | apply cons_word_words; assumption].
    + split; [constructor; assumption | assumption].
Qed.

Lemma split_words s : Forall is_word (split s).
Proof.
  unfold split. pose proof (words_of_ok s) as [H1 H2].
  destruct (words_of s) as [w ws]. now apply cons_word_words.
Qed.

Lemma words_of_app w s :
  nospace w ->
  words_of (w ++ s) = (w ++ fst (words_of s), snd (words_of s)).
Proof.
  induction 1 as [|c w Hc Hw IH]; simpl.
  - now destruct (words_of s).
  - rewrite IH, Hc. reflexivity.
Qed.

Lemma words_of_join ws :
  Forall is_word ws ->
  words_of (join (lit " ") ws)
  = match ws with [] => ([], []) | w :: r => (w, r) end.
Proof.
  induction 1 as [|w r [Hne Hw] Hr IH]; [reflexivity|].
  simpl join. destruct r as [|w' r'].
  - rewrite <- (app_nil_r w) at 1. rewrite (words_of_app w [] Hw).
    simpl. now rewrite app_nil_r.
  - rewrite (words_of_app w _ Hw).
    change (lit " " ++ join (lit " ") (w' :: r'))
      with (32%N :: join (lit " ") (w' :: r')).
    cbn [words_of]. rewrite IH.
    change (isspace 32%N) with true. cbn [fst snd].
    rewrite app_nil_r. inversion Hr as [|? ? [Hne' _] _]; subst.
    destruct w'; [contradiction|reflexivity].
Qed.

(** Tokenizing a chunk gives back the words it was joined from. *)
Lemma split_join ws : Forall is_word ws -> split (join (lit " ") ws) = ws.
Proof.
  intros H. unfold split. rewrite (words_of_join ws H).
  destruct H as [|w r [Hne _] _]; [reflexivity|].
  destruct w; [contradiction|reflexivity].
Qed.

Lemma split_nil_iff s : split s = [] <-> forallb isspace s = true.
Proof.
  unfold split. induction s as [|c r IH]; simpl.
  - tauto.
  - destruct (words_of r) as [w ws]. destruct (isspace c); simpl.
    + exact IH.
    + split; discriminate.
Qed.

Lemma join_truthy w r : is_word w -> truthy (join (lit " ") (w :: r)) = true.
Proof.
  intros [Hne _]. destruct w as [|c w]; [contradiction|].
  simpl. now destruct r.
Qed.

(** ** Windows of [chunk_text] *)


Lemma py_slice_window {A : Type} (l : list A) (i : nat) (size : Z) :
  (0 < size)%Z ->
  py_slice l (Z.of_nat i) (Z.of_nat i + size)
  = firstn (Z.to_nat size) (skipn i l).
Proof.
  intros Hs. unfold py_slice, slice_index.
  destruct (Z.ltb_spec (Z.of_nat i) 0); [lia|].
  destruct (Z.ltb_spec (Z.of_nat i + size) 0); [lia|].
  destruct (Z.le_ge_cases (Z.of_nat i) (Z.of_nat (List.length l))) as [Hi|Hi].
  - rewrite (Z.min_l (Z.of_nat i)) by lia. rewrite Nat2Z.id.
    destruct (Z.le_ge_cases (Z.of_nat i + size) (Z.of_nat (List.length l))).
    + rewrite Z.min_l by lia. f_equal. lia.
    + rewrite Z.min_r by lia.
      rewrite !firstn_all2; auto; rewrite length_skipn; lia.
  - rewrite (Z.min_r (Z.of_nat i)) by lia. rewrite Z.min_r by lia.
    rewrite Z.sub_diag. simpl.
    rewrite skipn_all2 by lia. now rewrite firstn_nil.
Qed.

Lemma window_words words size i :
  Forall is_word words -> Forall is_word (window words size i).
Proof.
  intros H. unfold window.
  rewrite <- (firstn_skipn i words) in H. apply Forall_app in H as [_ H].
  rewrite <- (firstn_skipn (Z.to_nat size) (skipn i words)) in H.
  now apply Forall_app in H.
Qed.

Lemma window_truthy words size i :
  Forall is_word words -> (0 < size)%Z -> i < List.length words ->
  truthy (join (lit " ") (window words size i)) = true.
Proof.
  intros Hw Hs Hi. pose proof (window_words words size i Hw) as Hf.
  unfold window in *.
  destruct (skipn i words) as [|x r] eqn:Hsk.
  - apply (f_equal (@List.length str)) in Hsk. rewrite length_skipn in Hsk.
    simpl in Hsk. lia.
  - destruct (Z.to_nat size) as [|n] eqn:Hn; [lia|].
    simpl firstn in *. apply join_truthy. now inversion Hf.
Qed.

(** The loop keeps every window that starts inside the text. *)
Lemma fold_chunk_step words size starts acc :
  Forall is_word words -> (0 < size)%Z ->
  Forall (fun i => i < List.length words) starts ->
  fold_left (chunk_step words size) (List.map Z.of_nat starts) acc
  = acc ++ List.map (fun i => join (lit " ") (window words size i)) starts.
Proof.
  intros Hw Hs Hst. revert acc.
  induction Hst as [|i starts Hi _ IH]; intros acc; simpl.
  - now rewrite app_nil_r.
  - rewrite IH. unfold chunk_step.
    rewrite py_slice_window by assumption.
    fold (window words size i).
    rewrite window_truthy by assumption.
    now rewrite <- app_assoc.
Qed.

Lemma range_len_windows W step :
  (0 <= W)%Z -> (0 < step)%Z -> range_len 0 W step = ceil_div W step.
Proof.
  intros HW Hs. unfold range_len, ceil_div.
  destruct (Z.ltb_spec 0 step); [|lia].
  destruct (Z.ltb_spec 0 W).
  - replace (W + step - 1)%Z with (W - 0 - 1 + 1 * step)%Z by lia.
    now rewrite Z.div_add by lia.
  - replace W with 0%Z by lia. simpl. symmetry. apply Z.div_small. lia.
Qed.

Lemma window_start_lt W step k :
  (0 < step)%Z -> (0 <= W)%Z ->
  (Z.of_nat k < ceil_div W step)%Z -> (Z.of_nat k * step < W)%Z.
Proof.
  intros Hs HW Hk. unfold ceil_div in Hk.
  pose proof (Z.mul_div_le (W + step - 1) step Hs). nia.
Qed.

(** [chunk_text] with [0 < size] and [overlap < size]: one chunk per window
    start [0, step, 2*step, ...] below the word count. *)
Lemma chunk_text_windows text size overlap :
  (0 < size)%Z -> (overlap < size)%Z ->
  chunk_text text size overlap
  = Ok (List.map
          (fun k => join (lit " ")
                      (window (split text) size
                              (k * Z.to_nat (size - overlap))))
          (seq 0 (Z.to_nat (window_count (Z.of_nat (List.length (split text)))
                                         size overlap)))).
Proof.
  intros Hs Ho. unfold chunk_text, py_range, window_count.
  destruct (Z.eqb_spec (size - overlap) 0) as [Hz|Hz]; [lia|].
  rewrite range_len_windows by lia.
  set (words := split text). set (step := (size - overlap)%Z).
  set (n := Z.to_nat (ceil_div (Z.of_nat (List.length words)) step)).
  f_equal.
  rewrite (map_ext_in _ (fun k => Z.of_nat (k * Z.to_nat step))).
  2:{ intros k _. lia. }
  rewrite <- (map_map (fun k => k * Z.to_nat step) Z.of_nat).
  rewrite fold_chunk_step.
  - simpl. now rewrite map_map.
  - apply split_words.
  - assumption.
  - apply Forall_forall. intros i Hi. apply in_map_iff in Hi as [k [<- Hk]].
    apply in_seq in Hk. subst n.
    assert (Z.of_nat k * step < Z.of_nat (List.length words))%Z.
    { apply window_start_lt; lia. }
    nia.
Qed.

Lemma chunk_text_word_at text size overlap j w :
  (0 <= overlap)%Z -> (overlap < size)%Z ->
  nth_error (split text) j = Some w ->
  let step := Z.to_nat (size - overlap) in
  let k := j / step in
  k < Z.to_nat (window_count (Z.of_nat (List.length (split text)))
                             size overlap)
  /\ nth_error (window (split text) size (k * step)) (j - k * step) = Some w.
Proof.
  intros Ho Hs Hj step k.
  assert (Hstep : 0 < step) by (subst step; lia).
  assert (HjW : j < List.length (split text)).
  { apply nth_error_Some. congruence. }
  pose proof (Nat.div_mod_eq j step) as Hdm.
  pose proof (Nat.mod_upper_bound j step ltac:(lia)) as Hmod.
  fold k in Hdm.
  split.
  - unfold window_count, ceil_div.
    replace (size - overlap)%Z with (Z.of_nat step) by (subst step; lia).
    set (W := List.length (split text)) in *.
    assert (Z.of_nat k + 1 <= (Z.of_nat W + Z.of_nat step - 1) / Z.of_nat step)%Z.
    { apply Z.div_le_lower_bound; nia. }
    lia.
  - unfold window. rewrite nth_error_firstn.
    destruct (Nat.ltb_spec (j - k * step) (Z.to_nat size)).
    + rewrite nth_error_skipn.
      replace (k * step + (j - k * step)) with j by nia. exact Hj.
    + subst step. nia.
Qed.

Lemma enumerate_ordinals {A : Type} (l : list A) :
  List.map fst (enumerate l) = seq 0 (List.length l).
Proof.
  unfold enumerate. generalize 0.
  induction l as [|x l IH]; intros s; simpl; [reflexivity|].
  now rewrite IH.
Qed.

Lemma enumerate_values {A : Type} (l : list A) :
  List.map snd (enumerate l) = l.
Proof.
  unfold enumerate. generalize 0.
  induction l as [|x l IH]; intros s; simpl; [reflexivity|].
  now rewrite IH.
Qed.

(** ** Claims about [chunk_text] *)

(** The counts of the two formulas on the word counts the specification
    lists. *)
Lemma window_count_listed :
  List.map (fun W => window_count W default_chunk_size default_overlap)
           [0; 1; 500; 501; 1000]%Z = [0; 1; 2; 2; 3]%Z
  /\ List.map (fun W => spec_chunk_count W default_chunk_size default_overlap)
              [0; 1; 500; 501; 1000]%Z = [0; 0; 1; 2; 3]%Z.
Proof. split; reflexivity. Qed.

(** C2, as the code has it: with the default size 500 and overlap 50 a text
    of [W] words yields [ceil(W / (size - overlap))] chunks, for every
    [W >= 0]. *)
Theorem chunk_count_default text :
  exists chunks,
    chunk_text text default_chunk_size default_overlap = Ok chunks
    /\ Z.of_nat (List.length chunks)
       = window_count (Z.of_nat (List.length (split text)))
                      default_chunk_size default_overlap.
Proof.
  eexists. split.
  - apply chunk_text_windows; reflexivity.
  - rewrite length_map, length_seq. apply Z2Nat.id.
    unfold window_count, ceil_div. apply Z.div_pos; [|reflexivity].
    unfold default_chunk_size, default_overlap. lia.
Qed.

(** C2, as the specification states it, fails on a text of one word: the
    code yields one chunk where [ceil(max(W - overlap, 0) / (size - overlap))]
    is zero. *)
Lemma chunk_count_one_word :
  List.length (split (lit "hello")) = 1
  /\ chunk_text (lit "hello") default_chunk_size default_overlap
     = Ok [lit "hello"]
  /\ Z.of_nat (List.length [lit "hello"])
     <> spec_chunk_count 1 default_chunk_size default_overlap.
Proof. repeat split; vm_compute; congruence. Qed.

(** C7, as the code has it: [chunk_text] takes the size and the overlap with
    each call and checks neither; with [overlap = size] the [range] of the
    loop raises [ValueError] once the text is tokenized, and with
    [overlap > size] the loop body never runs and the result is the empty
    list. *)
Theorem chunk_text_overlap_not_below_size text size overlap :
  (size <= overlap)%Z ->
  chunk_text text size overlap
  = if (size =? overlap)%Z then Raise ValueError else Ok [].
Proof.
  intros H. unfold chunk_text, py_range, range_len.
  destruct (Z.eqb_spec size overlap) as [->|Hne].
  - now rewrite Z.sub_diag.
  - destruct (Z.eqb_spec (size - overlap) 0); [lia|].
    destruct (Z.ltb_spec 0 (size - overlap)); [lia|].
    destruct (Z.ltb_spec (Z.of_nat (List.length (split text))) 0); [lia|].
    reflexivity.
Qed.

Lemma chunk_text_overlap_not_below_size_witness :
  (2 <= 3)%Z /\ chunk_text (lit "a b c") 2 3 = Ok [].
Proof.
  split; [lia|].
  exact (chunk_text_overlap_not_below_size (lit "a b c") 2 3 ltac:(lia)).
Defined.

(** C7, as the specification states it, fails: a call with an overlap above
    the size is not rejected, it returns normally with no chunk. *)
Lemma chunk_text_accepts_large_overlap :
  (2 - 3 <= 0)%Z
  /\ chunk_text (lit "a b c") 2 3 = Ok []
  /\ forall e, chunk_text (lit "a b c") 2 3 <> Raise e.
Proof. repeat split; vm_compute; congruence. Qed.

(** C10: with [size > overlap >= 0] every word of the tokenization, at its
    position [j], is a word of chunk [j / (size - overlap)], and the
    ordinals given by [enumerate] are [0, 1, ..., n-1]. *)
Theorem chunk_text_covers_words text size overlap :
  (0 <= overlap)%Z -> (overlap < size)%Z ->
  exists chunks,
    chunk_text text size overlap = Ok chunks
    /\ (forall j w,
          nth_error (split text) j = Some w ->
          exists k c,
            nth_error chunks k = Some c
            /\ nth_error (split c) (j - k * Z.to_nat (size - overlap))
               = Some w)
    /\ List.map fst (enumerate chunks) = seq 0 (List.length chunks)
    /\ List.map snd (enumerate chunks) = chunks.
Proof.
  intros Ho Hs. eexists. split; [apply chunk_text_windows; lia|].
  split; [|split; [apply enumerate_ordinals | apply enumerate_values]].
  intros j w Hj.
  destruct (chunk_text_word_at text size overlap j w Ho Hs Hj) as [Hk Hw].
  set (step := Z.to_nat (size - overlap)) in *.
  exists (j / step), (join (lit " ") (window (split text) size (j / step * step))).
  split.
  - rewrite nth_error_map, nth_error_seq.
    destruct (Nat.ltb_spec (j / step)
                (Z.to_nat (window_count (Z.of_nat (List.length (split text)))
                                        size overlap))); [reflexivity|lia].
  - rewrite split_join; [exact Hw|].
    apply window_words, split_words.
Qed.

Lemma chunk_text_covers_words_witness :
  exists chunks,
    chunk_text (lit "a b c d e") 3 1 = Ok chunks
    /\ (forall j w,
          nth_error (split (lit "a b c d e")) j = Some w ->
          exists k c,
            nth_error chunks k = Some c
            /\ nth_error (split c) (j - k * Z.to_nat (3 - 1)) = Some w)
    /\ List.map fst (enumerate chunks) = seq 0 (List.length chunks)
    /\ List.map snd (enumerate chunks) = chunks.
Proof.
  apply (chunk_text_covers_words (lit "a b c d e") 3 1); lia.
Defined.

(** ** String equality and membership *)

Lemma str_eqb_eq a b : str_eqb a b = true <-> a = b.
Proof.
  revert b. induction a as [|x a IH]; intros [|y b]; simpl;
    try (split; [discriminate | congruence]); [tauto|].
  rewrite andb_true_iff, N.eqb_eq, IH. split; [intros []|intros [=]]; now subst.
Qed.

Lemma str_eqb_refl a : str_eqb a a = true.
Proof. now apply str_eqb_eq. Qed.

Lemma str_eqb_neq a b : a <> b -> str_eqb a b = false.
Proof.
  intros H. destruct (str_eqb a b) eqn:E; [|reflexivity].
  now apply str_eqb_eq in E.
Qed.

Lemma mem_In s l : mem s l = true <-> In s l.
Proof.
  unfold mem. rewrite existsb_exists. split.
  - intros [x [Hx E]]. apply str_eqb_eq in E. now subst.
  - intros H. exists s. split; [assumption | apply str_eqb_refl].
Qed.

Lemma mem_not_In s l : ~ In s l -> mem s l = false.
Proof.
  intros H. destruct (mem s l) eqn:E; [|reflexivity].
  now apply mem_In in E.
Qed.

(** ** The loop of [process_file] *)

(** A call of the client sends between one and [S max_retries] requests
    for the text and touches nothing else. *)
Lemma embeddings_request_shape {embedding : Type} (E : env embedding) text :
  forall k w, exists n r,
    1 <= n <= S k /\ embeddings_request E k text w = (resent text n w, r).
Proof.
  induction k as [|k IH]; intros w; simpl.
  - destruct (embeddings_create E (List.length (requests w)) text) as [a|e];
      exists 1; eexists; (split; [lia | reflexivity]).
  - destruct (embeddings_create E (List.length (requests w)) text) as [a|e].
    + exists 1; eexists; (split; [lia | reflexivity]).
    + destruct (should_retry e).
      * destruct (IH {| knowledge := knowledge w; db := db w;
                        requests := requests w ++ [text];
                        stdout := stdout w |}) as (n & r & Hn & ->).
        exists (S n), r. split; [lia|].
        unfold resent. cbn. now rewrite <- app_assoc.
      * exists 1; eexists; (split; [lia | reflexivity]).
Qed.

(** What a call of the client has met: transient errors on all its
    requests but the last, and on the last an answer, or an error that is
    final because it is not transient or because no re-send is left. *)
Lemma embeddings_request_spec {embedding : Type} (E : env embedding) text :
  forall k w w' r,
    embeddings_request E k text w = (w', r) ->
    exists n,
      1 <= n <= S k /\ w' = resent text n w
      /\ match r with
         | Ok _ => answered E (List.length (requests w)) text n
         | Raise e =>
             refused E (List.length (requests w)) text n e
             /\ (n = S k \/ should_retry e = false)
         end.
Proof.
  induction k as [|k IH]; intros w w' r; simpl.
  - destruct (embeddings_create E (List.length (requests w)) text)
      as [a|e] eqn:Hc; intros [= <- <-]; exists 1;
      (split; [lia|]); (split; [reflexivity|]); simpl; eauto.
  - destruct (embeddings_create E (List.length (requests w)) text)
      as [a|e] eqn:Hc.
    + intros [= <- <-]. exists 1. split; [lia|]. split; [reflexivity|].
      simpl. eauto.
    + destruct (should_retry e) eqn:Hs.
      * intros H. apply IH in H as (n & Hn & -> & Hr).
        cbn [requests] in Hr. rewrite length_app in Hr. simpl in Hr.
        rewrite Nat.add_1_r in Hr.
        exists (S n). split; [lia|]. split.
        { unfold resent. cbn. now rewrite <- app_assoc. }
        destruct n as [|m]; [lia|].
        destruct r as [a|e'].
        -- split; [eauto | exact Hr].
        -- destruct Hr as [Hr Hfin]. split; [split; [eauto | exact Hr]|].
           destruct Hfin as [->|Hfin]; auto.
      * intros [= <- <-]. exists 1. split; [lia|]. split; [reflexivity|].
        simpl. auto.
Qed.

Lemma resent_0 {embedding : Type} text (w : world embedding) :
  resent text 0 w = w.
Proof. destruct w. unfold resent. cbn. now rewrite app_nil_r. Qed.

Lemma embed_text_spec {embedding : Type} (E : env embedding) text w w' r :
  embed_text E text w = (w', r) ->
  exists n,
    n <= S max_retries /\ w' = resent text n w
    /\ match r with
       | Ok _ => 1 <= n /\ answered E (List.length (requests w)) text n
       | Raise e =>
           (n = 0 /\ OPENAI_API_KEY E = None /\ e = OpenAIError)
           \/ (1 <= n /\ OPENAI_API_KEY E <> None
               /\ refused E (List.length (requests w)) text n e
               /\ (n = S max_retries \/ should_retry e = false))
       end.
Proof.
  unfold embed_text. destruct (OPENAI_API_KEY E) as [key|] eqn:Hkey.
  - intros H. apply embeddings_request_spec in H as (n & Hn & -> & Hr).
    exists n. split; [lia|]. split; [reflexivity|].
    destruct r as [a|e]; [split; [lia | exact Hr]|].
    right. destruct Hr as [Hr Hfin].
    split; [lia|]. split; [discriminate|]. now split.
  - intros [= <- <-]. exists 0. split; [lia|].
    split; [now rewrite resent_0|]. left. now repeat split.
Qed.

Lemma embed_text_shape {embedding : Type} (E : env embedding) text w :
  exists n r,
    n <= S max_retries /\ embed_text E text w = (resent text n w, r).
Proof.
  destruct (embed_text E text w) as [w' r] eqn:He.
  apply embed_text_spec in He as (n & Hn & -> & _). now exists n, r.
Qed.

(** The two ends of a call of [embed_text] in the loop: the answer [a], or
    the exception that leaves the loop. *)
Ltac embed_cases E chunk w a :=
  let n := fresh "sent_n" in
  let r := fresh "answer" in
  let Hn := fresh "Hsent" in
  let He := fresh "Hembed" in
  destruct (embed_text_shape E chunk w) as (n & r & Hn & He);
  rewrite He; clear He Hn; destruct r as [a|?]; unfold resent;
  cbv beta iota.

Lemma process_chunks_app {embedding : Type} (E : env embedding) file_id a b w :
  process_chunks E file_id (a ++ b) w
  = match process_chunks E file_id a w with
    | (w1, Returned) => process_chunks E file_id b w1
    | (w1, Raised e) => (w1, Raised e)
    end.
Proof.
  revert w. induction a as [|[idx chunk] a IH]; intros w; simpl.
  - reflexivity.
  - embed_cases E chunk w emb;
      [apply IH | reflexivity].
Qed.

Lemma nth_error_combine_seq {A : Type} (l : list A) s k x :
  nth_error l k = Some x ->
  nth_error (combine (seq s (List.length l)) l) k = Some (s + k, x).
Proof.
  revert s k. induction l as [|y l IH]; intros s [|k]; simpl; try discriminate.
  - intros [= ->]. now rewrite Nat.add_0_r.
  - intros H. rewrite (IH (S s) k H). do 2 f_equal. lia.
Qed.

Lemma nth_error_enumerate {A : Type} (l : list A) k x :
  nth_error l k = Some x -> nth_error (enumerate l) k = Some (k, x).
Proof. apply (nth_error_combine_seq l 0). Qed.

(** ** Claims about [process_file] *)

(** C8: a path whose lower-cased extension is not [.pdf], an image
    extension or a text extension is skipped: [process_file] prints the
    skip and returns; the stores and the embedding requests are as
    before. *)
Theorem unsupported_extension_skipped {embedding : Type}
    (E : env embedding) file_path w :
  lower (splitext_ext file_path) <> lit ".pdf" ->
  ~ In (lower (splitext_ext file_path)) image_exts ->
  ~ In (lower (splitext_ext file_path)) text_exts ->
  process_file E file_path w
  = (print (lit "Unsupported file type: " ++ file_path) w, Returned)
  /\ knowledge (fst (process_file E file_path w)) = knowledge w
  /\ db (fst (process_file E file_path w)) = db w
  /\ requests (fst (process_file E file_path w)) = requests w
  /\ on_created E (mkEvent false file_path) w
     = (print (lit "Unsupported file type: " ++ file_path) w, Returned)
  /\ on_modified E (mkEvent false file_path) w
     = (print (lit "Unsupported file type: " ++ file_path) w, Returned).
Proof.
  intros Hpdf Himg Htxt.
  assert (H : process_file E file_path w
              = (print (lit "Unsupported file type: " ++ file_path) w,
                 Returned)).
  { unfold process_file, extract.
    rewrite (str_eqb_neq _ _ Hpdf), (mem_not_In _ _ Himg),
      (mem_not_In _ _ Htxt). reflexivity. }
  unfold on_created, on_modified. cbn [is_directory src_path].
  rewrite H. repeat split.
Qed.

Lemma unsupported_extension_skipped_witness :
  process_file Examples.E_up Examples.exe Examples.w0
  = (print (lit "Unsupported file type: " ++ Examples.exe) Examples.w0,
     Returned).
Proof.
  apply (unsupported_extension_skipped Examples.E_up Examples.exe Examples.w0).
  - vm_compute. discriminate.
  - vm_compute. intuition discriminate.
  - vm_compute. intuition discriminate.
Defined.

(** C9: a text with an empty tokenization has no chunk, and a file with
    such a text is processed without any embedding request and without any
    store write. *)
Theorem blank_text_no_work {embedding : Type}
    (E : env embedding) file_path text w :
  extract E (lower (splitext_ext file_path)) file_path = Some (Ok text) ->
  split text = [] ->
  chunk_text text default_chunk_size default_overlap = Ok []
  /\ exists w',
       process_file E file_path w = (w', Returned)
       /\ knowledge w' = knowledge w
       /\ db w' = db w
       /\ requests w' = requests w.
Proof.
  intros Hext Hsplit.
  assert (Hc : chunk_text text default_chunk_size default_overlap = Ok []).
  { rewrite chunk_text_windows by reflexivity. now rewrite Hsplit. }
  split; [exact Hc|].
  unfold process_file. rewrite Hext, Hc. simpl.
  eexists. split; [reflexivity|]. repeat split.
Qed.

Lemma blank_text_no_work_witness :
  chunk_text [32; 9; 10; 32]%N default_chunk_size default_overlap = Ok []
  /\ exists w',
       process_file Examples.E_up Examples.blank Examples.w0 = (w', Returned)
       /\ knowledge w' = knowledge Examples.w0
       /\ db w' = db Examples.w0
       /\ requests w' = requests Examples.w0.
Proof.
  apply (blank_text_no_work Examples.E_up Examples.blank [32; 9; 10; 32]%N
                            Examples.w0).
  - vm_compute. reflexivity.
  - vm_compute. reflexivity.
Defined.

(** ** The vector store *)

Section Collection.

Context {embedding : Type}.
Implicit Types (c : collection embedding) (i j d : str) (e : embedding).

Lemma collection_add_present i d e c :
  In i (ids c) -> collection_add i d e c = c.
Proof.
  intros H. apply mem_In in H. unfold collection_add.
  unfold mem in H. now rewrite H.
Qed.

Lemma collection_add_In i d e c : In i (ids (collection_add i d e c)).
Proof.
  unfold collection_add.
  destruct (existsb (str_eqb i) (ids c)) eqn:Hm.
  - now apply mem_In.
  - unfold ids. rewrite map_app, in_app_iff. right. now left.
Qed.

Lemma collection_add_keeps i d e c j :
  In j (ids c) -> In j (ids (collection_add i d e c)).
Proof.
  unfold collection_add. destruct (existsb (str_eqb i) (ids c)); auto.
  intros H. unfold ids. rewrite map_app, in_app_iff. now left.
Qed.

Lemma collection_add_NoDup i d e c :
  NoDup (ids c) -> NoDup (ids (collection_add i d e c)).
Proof.
  unfold collection_add.
  destruct (existsb (str_eqb i) (ids c)) eqn:Hm; auto.
  intros H. unfold ids in *. rewrite map_app.
  apply NoDup_app; [exact H | repeat constructor; intros [] |].
  intros a Ha [<-|[]]. simpl in Ha.
  apply mem_In in Ha. unfold mem in Ha. congruence.
Qed.

Lemma collection_add_written i d e c :
  written_by_pipeline c -> written_by_pipeline (collection_add i d e c).
Proof.
  unfold collection_add, written_by_pipeline.
  destruct (existsb (str_eqb i) (ids c)); auto.
  intros H. apply Forall_app. split; auto.
Qed.

(** On records without metadata the comprehension of [on_deleted] fails
    at the first record. *)
Lemma ids_to_remove_written c file_id :
  written_by_pipeline c ->
  ids_to_remove (get_metadatas c) file_id
  = match c with [] => Ok [] | _ :: _ => Raise TypeError end.
Proof.
  intros H. destruct H as [|r c Hr _]; simpl; [reflexivity|].
  now rewrite Hr.
Qed.

End Collection.

(** ** The graph store *)

Lemma rel_eqb_eq r r' : rel_eqb r r' = true <-> r = r'.
Proof.
  destruct r as [a b], r' as [a' b']. unfold rel_eqb. simpl.
  rewrite andb_true_iff, !Nat.eqb_eq. split; [intros []|intros [=]]; now subst.
Qed.

Lemma existsb_rel_In r rels : existsb (rel_eqb r) rels = true <-> In r rels.
Proof.
  rewrite existsb_exists. split.
  - intros [x [Hx E]]. apply rel_eqb_eq in E. now subst.
  - intros H. exists r. split; [assumption | now apply rel_eqb_eq].
Qed.

Lemma merge_rel_incl rels r r0 : In r0 rels -> In r0 (merge_rel rels r).
Proof.
  unfold merge_rel. destruct (existsb (rel_eqb r) rels); auto.
  intros H. apply in_app_iff. now left.
Qed.

Lemma merge_rel_In rels r : In r (merge_rel rels r).
Proof.
  unfold merge_rel. destruct (existsb (rel_eqb r) rels) eqn:E.
  - now apply existsb_rel_In.
  - apply in_app_iff. right. now left.
Qed.

Lemma fold_merge_rel_incl rows rels r0 :
  In r0 rels -> In r0 (fold_left merge_rel rows rels).
Proof.
  revert rels. induction rows as [|r rows IH]; intros rels H; simpl; auto.
  apply IH, merge_rel_incl, H.
Qed.

Lemma fold_merge_rel_In rows rels r :
  In r rows -> In r (fold_left merge_rel rows rels).
Proof.
  revert rels. induction rows as [|r' rows IH]; intros rels; simpl; [easy|].
  intros [->|H].
  - apply fold_merge_rel_incl, merge_rel_In.
  - now apply IH.
Qed.

Lemma fold_merge_rel_id rows rels :
  (forall r, In r rows -> In r rels) -> fold_left merge_rel rows rels = rels.
Proof.
  induction rows as [|r rows IH]; intros H; simpl; [reflexivity|].
  unfold merge_rel at 2.
  assert (E : existsb (rel_eqb r) rels = true).
  { apply existsb_rel_In, H. now left. }
  rewrite E. apply IH. intros r' Hr'. apply H. now right.
Qed.

Lemma matches_label l l' pat i ps :
  matches l pat (mkNode i l' ps) = true -> l = l'.
Proof.
  unfold matches. simpl. rewrite andb_true_iff. intros [H _].
  now destruct l, l'.
Qed.

Lemma matches_file_new file_id i :
  matches File [(lit "id", file_id)] (mkNode i File [(lit "id", file_id)])
  = true.
Proof.
  unfold matches. cbn [nlabel props label_eqb forallb fst snd dict_get].
  now rewrite !str_eqb_refl.
Qed.

Lemma matches_chunk_new chunk_id text i :
  matches Chunk [(lit "id", chunk_id); (lit "text", text)]
          (mkNode i Chunk [(lit "id", chunk_id); (lit "text", text)]) = true.
Proof.
  unfold matches. cbn [nlabel props label_eqb forallb fst snd dict_get].
  change (str_eqb (lit "text") (lit "id")) with false.
  now rewrite !str_eqb_refl.
Qed.

Lemma matches_chunk_id chunk_id c text i :
  matches Chunk [(lit "id", chunk_id)]
          (mkNode i Chunk [(lit "id", c); (lit "text", text)]) = true ->
  c = chunk_id.
Proof.
  unfold matches. cbn [nlabel props label_eqb forallb fst snd dict_get].
  rewrite str_eqb_refl, andb_true_r. simpl. apply str_eqb_eq.
Qed.

Lemma merge_node_present l pat g :
  existsb (matches l pat) (nodes g) = true -> merge_node l pat g = g.
Proof. intros H. unfold merge_node. now rewrite H. Qed.

Lemma merge_node_nodes l pat g n :
  In n (nodes (merge_node l pat g)) <->
  In n (nodes g)
  \/ (existsb (matches l pat) (nodes g) = false
      /\ n = mkNode (next_nid g) l pat).
Proof.
  unfold merge_node. destruct (existsb (matches l pat) (nodes g)); simpl.
  - split; [auto | intros [H|[H _]]; [assumption | discriminate]].
  - rewrite in_app_iff. simpl. split.
    + intros [H|[<-|[]]]; auto.
    + intros [H|[_ ->]]; auto.
Qed.

Lemma merge_node_contains l pat g : contains (merge_node l pat g) = contains g.
Proof. unfold merge_node. now destruct (existsb (matches l pat) (nodes g)). Qed.

Lemma merge_node_exists l pat g :
  matches l pat (mkNode (next_nid g) l pat) = true ->
  existsb (matches l pat) (nodes (merge_node l pat g)) = true.
Proof.
  intros Hm. unfold merge_node.
  destruct (existsb (matches l pat) (nodes g)) eqn:E; [exact E|].
  simpl. rewrite existsb_app. simpl. rewrite Hm. now rewrite orb_true_r.
Qed.

Lemma existsb_incl {A : Type} (p : A -> bool) l l' :
  (forall x, In x l -> In x l') -> existsb p l = true -> existsb p l' = true.
Proof.
  intros H. rewrite !existsb_exists. intros [x [Hx Hp]]. exists x. auto.
Qed.

(** *** [merge_file_chunk] *)

Lemma merge_file_chunk_nodes_incl f c t g n :
  In n (nodes g) -> In n (nodes (merge_file_chunk f c t g)).
Proof.
  intros H. unfold merge_file_chunk, merge_contains. cbn [nodes].
  apply merge_node_nodes. left. apply merge_node_nodes. now left.
Qed.

Lemma merge_file_chunk_nodes f c t g n :
  In n (nodes (merge_file_chunk f c t g)) ->
  In n (nodes g)
  \/ (existsb (matches File [(lit "id", f)]) (nodes g) = false
      /\ n = mkNode (next_nid g) File [(lit "id", f)])
  \/ (exists i, n = mkNode i Chunk [(lit "id", c); (lit "text", t)]).
Proof.
  unfold merge_file_chunk, merge_contains. cbn [nodes]. intros H.
  apply merge_node_nodes in H as [H|[_ ->]].
  - apply merge_node_nodes in H as [H|H]; auto.
  - right. right. eauto.
Qed.

Lemma merge_file_chunk_contains_incl f c t g r :
  In r (contains g) -> In r (contains (merge_file_chunk f c t g)).
Proof.
  intros H. unfold merge_file_chunk, merge_contains. cbn [contains].
  apply fold_merge_rel_incl. now rewrite !merge_node_contains.
Qed.

Lemma merge_contains_complete file_id chunk_id g f c :
  In f (nodes g) -> In c (nodes g) ->
  matches File [(lit "id", file_id)] f = true ->
  matches Chunk [(lit "id", chunk_id)] c = true ->
  In (nid f, nid c) (contains (merge_contains file_id chunk_id g)).
Proof.
  intros Hf Hc Mf Mc. unfold merge_contains. cbn [contains].
  apply fold_merge_rel_In.
  apply (in_map (fun fc => (nid (fst fc), nid (snd fc))) _ (f, c)).
  apply in_prod; apply filter_In; auto.
Qed.

Lemma merge_contains_id file_id chunk_id g :
  (forall f c,
     In f (nodes g) -> In c (nodes g) ->
     matches File [(lit "id", file_id)] f = true ->
     matches Chunk [(lit "id", chunk_id)] c = true ->
     In (nid f, nid c) (contains g)) ->
  merge_contains file_id chunk_id g = g.
Proof.
  intros H. unfold merge_contains. rewrite fold_merge_rel_id.
  - now destruct g.
  - intros r Hr. apply in_map_iff in Hr as [[f c] [<- Hfc]].
    apply in_prod_iff in Hfc as [Hf Hc].
    apply filter_In in Hf as [Hf Mf]. apply filter_In in Hc as [Hc Mc].
    now apply H.
Qed.

(** Once merged, merging again creates nothing. *)
Lemma merged_fix g f c t : merged g f c t -> merge_file_chunk f c t g = g.
Proof.
  intros (Hf & Hc & Hrel). unfold merge_file_chunk.
  rewrite (merge_node_present _ _ _ Hf), (merge_node_present _ _ _ Hc).
  now apply merge_contains_id.
Qed.

Lemma merged_after g f c t : merged (merge_file_chunk f c t g) f c t.
Proof.
  unfold merged, merge_file_chunk.
  set (g1 := merge_node File [(lit "id", f)] g).
  set (g2 := merge_node Chunk [(lit "id", c); (lit "text", t)] g1).
  assert (H1 : existsb (matches File [(lit "id", f)]) (nodes g1) = true).
  { apply merge_node_exists, matches_file_new. }
  assert (H2 : existsb (matches Chunk [(lit "id", c); (lit "text", t)])
                       (nodes g2) = true).
  { apply merge_node_exists, matches_chunk_new. }
  repeat split.
  - cbn [merge_contains nodes]. revert H1. apply existsb_incl.
    intros n Hn. apply merge_node_nodes. now left.
  - exact H2.
  - intros f0 c0 Hf0 Hc0. now apply merge_contains_complete.
Qed.

Lemma merged_keeps g f c t c' t' :
  merged g f c t -> merged (merge_file_chunk f c' t' g) f c t.
Proof.
  intros (Hf & Hc & Hrel). repeat split.
  - revert Hf. apply existsb_incl. intros n.
    apply merge_file_chunk_nodes_incl.
  - revert Hc. apply existsb_incl. intros n.
    apply merge_file_chunk_nodes_incl.
  - intros f0 c0 Hf0 Hc0 Mf Mc. pose proof Hc0 as Hin.
    apply merge_file_chunk_nodes in Hc0 as [Hc0|[[_ ->]|[i ->]]].
    + apply merge_file_chunk_nodes in Hf0 as [Hf0|[[E _]|[i ->]]].
      * apply merge_file_chunk_contains_incl. now apply Hrel.
      * congruence.
      * apply matches_label in Mf. discriminate.
    + apply matches_label in Mc. discriminate.
    + apply matches_chunk_id in Mc as Heq. subst c'.
      unfold merge_file_chunk. apply merge_contains_complete; auto.

Qed.

(** ** Ingesting a file again *)

Section Reingest.

Context {embedding : Type} (E : env embedding).
Implicit Types (w : world embedding) (ic : nat * str).

Lemma step_stores file_id idx chunk emb w :
  let chunk_id := chunk_id_of file_id idx in
  let w' := add_to_neo4j file_id chunk_id chunk
              (add_to_chroma chunk_id chunk emb w) in
  stored (knowledge w') (db w') file_id (idx, chunk).
Proof.
  split; cbn; [apply collection_add_In | apply merged_after].
Qed.

Lemma step_keeps_stored file_id chunk_id chunk emb w ic :
  let w' := add_to_neo4j file_id chunk_id chunk
              (add_to_chroma chunk_id chunk emb w) in
  stored (knowledge w) (db w) file_id ic ->
  stored (knowledge w') (db w') file_id ic.
Proof.
  intros w' [H1 H2].
  split; cbn; [now apply collection_add_keeps | now apply merged_keeps].
Qed.

Lemma process_chunks_keeps file_id l : forall w w' o ic,
  process_chunks E file_id l w = (w', o) ->
  stored (knowledge w) (db w) file_id ic ->
  stored (knowledge w') (db w') file_id ic.
Proof.
  induction l as [|[idx chunk] l IH]; intros w w' o ic; simpl.
  - now intros [= <- <-].
  - embed_cases E chunk w a.
    + intros H Hs. eapply IH; [exact H|].
      now apply step_keeps_stored.
    + now intros [= <- <-].
Qed.

Lemma process_chunks_all_stored file_id l : forall w w',
  process_chunks E file_id l w = (w', Returned) ->
  Forall (stored (knowledge w') (db w') file_id) l.
Proof.
  induction l as [|[idx chunk] l IH]; intros w w'; simpl.
  - constructor.
  - embed_cases E chunk w a;
      [|discriminate].
    intros H. constructor.
    + eapply process_chunks_keeps; [exact H|]. apply step_stores.
    + eapply IH; exact H.
Qed.

(** Chunks that are in both stores are processed without a write. *)
Lemma process_chunks_noop file_id l : forall w w' o,
  Forall (stored (knowledge w) (db w) file_id) l ->
  process_chunks E file_id l w = (w', o) ->
  knowledge w' = knowledge w /\ db w' = db w.
Proof.
  induction l as [|[idx chunk] l IH]; intros w w' o HF; simpl.
  - now intros [= <- <-].
  - inversion HF as [|ic l' [Hin Hm] HF']; subst. cbn [fst snd] in *.
    embed_cases E chunk w a.
    + intros H. apply IH in H.
      * cbn in H. rewrite collection_add_present in H by assumption.
        rewrite merged_fix in H by assumption. exact H.
      * cbn. rewrite collection_add_present by assumption.
        rewrite merged_fix by assumption. exact HF'.
    + now intros [= <- <-].
Qed.

Lemma process_chunks_NoDup file_id l : forall w w' o,
  process_chunks E file_id l w = (w', o) ->
  NoDup (ids (knowledge w)) -> NoDup (ids (knowledge w')).
Proof.
  induction l as [|[idx chunk] l IH]; intros w w' o; simpl.
  - now intros [= <- <-].
  - embed_cases E chunk w a.
    + intros H Hn. eapply IH; [exact H|]. cbn.
      now apply collection_add_NoDup.
    + now intros [= <- <-].
Qed.

Lemma process_chunks_written file_id l : forall w w' o,
  process_chunks E file_id l w = (w', o) ->
  written_by_pipeline (knowledge w) -> written_by_pipeline (knowledge w').
Proof.
  induction l as [|[idx chunk] l IH]; intros w w' o; simpl.
  - now intros [= <- <-].
  - embed_cases E chunk w a.
    + intros H Hn. eapply IH; [exact H|]. cbn.
      now apply collection_add_written.
    + now intros [= <- <-].
Qed.

End Reingest.

(** C6, as the code has it: ingesting an unchanged file again leaves both
    stores as they were after the first ingestion, so the chunk ids are the
    same and no record, node or relationship is duplicated; the
    vector-store write of an id that is present keeps the record that is
    there, and a graph merge with the same arguments creates nothing. *)
Theorem reingest_keeps_stores {embedding : Type}
    (E : env embedding) file_path w w1 w2 o :
  process_file E file_path w = (w1, Returned) ->
  process_file E file_path w1 = (w2, o) ->
  knowledge w2 = knowledge w1
  /\ db w2 = db w1
  /\ (NoDup (ids (knowledge w)) -> NoDup (ids (knowledge w2)))
  /\ (forall i d e (c : collection embedding),
        In i (ids c) -> collection_add i d e c = c)
  /\ (forall f c t g,
        merge_file_chunk f c t (merge_file_chunk f c t g)
        = merge_file_chunk f c t g).
Proof.
  intros H1 H2.
  assert (Hstores : knowledge w2 = knowledge w1 /\ db w2 = db w1
                    /\ (NoDup (ids (knowledge w))
                        -> NoDup (ids (knowledge w1)))).
  { unfold process_file in H1, H2.
    destruct (extract E (lower (splitext_ext file_path)) file_path)
      as [[text|e]|].
    - destruct (chunk_text text default_chunk_size default_overlap)
        as [chunks|e]; [|discriminate].
      destruct (process_chunks E (basename file_path) (enumerate chunks) w)
        as [wc [|e]] eqn:Hc; [|discriminate].
      injection H1 as <-.
      apply process_chunks_all_stored in Hc as Hall.
      destruct (process_chunks E (basename file_path) (enumerate chunks)
                               (print _ wc)) as [wd o'] eqn:Hd.
      apply process_chunks_noop in Hd as [Hk Hg]; [|exact Hall].
      assert (Hw2 : knowledge w2 = knowledge wd /\ db w2 = db wd).
      { destruct o'; injection H2 as <- _; split; reflexivity. }
      destruct Hw2 as [-> ->]. repeat split; try assumption.
      cbn. eapply process_chunks_NoDup. exact Hc.
    - discriminate.
    - injection H1 as <-. injection H2 as <- _. repeat split. auto. }
  destruct Hstores as (Hk & Hg & Hn).
  repeat split; try assumption.
  - rewrite Hk. exact Hn.
  - intros. now apply collection_add_present.
  - intros. apply merged_fix, merged_after.
Qed.

Lemma reingest_keeps_stores_witness :
  knowledge (fst (process_file Examples.E_up Examples.doc1 Examples.w_doc1))
  = knowledge Examples.w_doc1
  /\ db (fst (process_file Examples.E_up Examples.doc1 Examples.w_doc1))
     = db Examples.w_doc1.
Proof.
  destruct (reingest_keeps_stores Examples.E_up Examples.doc1 Examples.w0
              Examples.w_doc1
              (fst (process_file Examples.E_up Examples.doc1 Examples.w_doc1))
              (snd (process_file Examples.E_up Examples.doc1 Examples.w_doc1)))
    as (H1 & H2 & _).
  - vm_compute. reflexivity.
  - vm_compute. reflexivity.
  - split; assumption.
Defined.

(** C6, as the specification states it, fails: a write under an id that is
    present does not replace the record.  The record of [c_old] keeps its
    text and vector; and after [doc1.txt] is ingested twice, with the
    service answering the second request with another vector, the stored
    vector is still the first one. *)
Lemma add_keeps_the_old_record :
  In (lit "doc1.txt_chunk_0") (ids Examples.c_old)
  /\ knowledge (add_to_chroma (lit "doc1.txt_chunk_0") (lit "new text") 8
                  (mkWorld Examples.c_old init_graph [] []))
     = [mkRecord (lit "doc1.txt_chunk_0") (lit "old text") 7 None]
  /\ embeddings_create Examples.E_up 1 (lit "hello world") = Ok 1
  /\ List.map (@vector nat)
       (knowledge (fst (process_file Examples.E_up Examples.doc1
                                     Examples.w_doc1))) = [0].
Proof. repeat split; vm_compute; auto. Qed.

(** ** The invariants of the stores *)

Lemma graph_wf_init : graph_wf init_graph.
Proof. split; constructor. Qed.

Lemma graph_wf_merge_node l pat g : graph_wf g -> graph_wf (merge_node l pat g).
Proof.
  intros [Hnd Hlt]. unfold merge_node.
  destruct (existsb (matches l pat) (nodes g)); [now split|].
  split; cbn [nodes next_nid].
  - rewrite map_app. apply NoDup_app; [exact Hnd | repeat constructor; intros [] |].
    intros a Ha [<-|[]]. apply in_map_iff in Ha as [n [Hn Hin]].
    rewrite Forall_forall in Hlt. specialize (Hlt n Hin). simpl in Hn. lia.
  - apply Forall_app. split.
    + revert Hlt. apply Forall_impl. intros n Hn. lia.
    + repeat constructor.
Qed.

Lemma graph_wf_merge_file_chunk f c t g :
  graph_wf g -> graph_wf (merge_file_chunk f c t g).
Proof.
  intros H. unfold merge_file_chunk.
  pose proof (graph_wf_merge_node Chunk [(lit "id", c); (lit "text", t)] _
                (graph_wf_merge_node File [(lit "id", f)] g H)) as [H1 H2].
  split; assumption.
Qed.

Lemma NoDup_filter_map {A B : Type} (g : A -> B) (p : A -> bool) l :
  NoDup (List.map g l) -> NoDup (List.map g (filter p l)).
Proof.
  induction l as [|x l IH]; simpl; [auto|].
  intros H. inversion H as [|? ? Hx Hl]; subst.
  destruct (p x); simpl; [constructor|]; auto.
  intros Hin. apply Hx. apply in_map_iff in Hin as [y [Hy Hin]].
  apply filter_In in Hin as [Hin _]. apply in_map_iff. eauto.
Qed.

Lemma graph_wf_detach_delete file_id g :
  graph_wf g -> graph_wf (detach_delete_file file_id g).
Proof.
  intros [Hnd Hlt]. split; cbn [detach_delete_file nodes next_nid].
  - now apply NoDup_filter_map.
  - apply Forall_forall. intros n Hn. apply filter_In in Hn as [Hn _].
    rewrite Forall_forall in Hlt. now apply Hlt.
Qed.

Lemma NoDup_map_eq {A B : Type} (g : A -> B) l x y :
  NoDup (List.map g l) -> In x l -> In y l -> g x = g y -> x = y.
Proof.
  induction l as [|a l IH]; simpl; [easy|].
  intros H. inversion H as [|? ? Ha Hl]; subst.
  intros [->|Hx] [->|Hy] E; auto.
  - exfalso. apply Ha. rewrite E. now apply in_map.
  - exfalso. apply Ha. rewrite <- E. now apply in_map.
Qed.

Lemma matches_file_id a b n :
  matches File [(lit "id", a)] n = true ->
  matches File [(lit "id", b)] n = true -> a = b.
Proof.
  unfold matches. cbn [forallb fst snd]. rewrite !andb_true_iff.
  intros [_ [Ha _]] [_ [Hb _]].
  destruct (dict_get (lit "id") (props n)) as [v|]; [|discriminate].
  apply str_eqb_eq in Ha, Hb. congruence.
Qed.

Lemma matches_file_chunk_label file_id n :
  nlabel n = Chunk -> matches File [(lit "id", file_id)] n = false.
Proof. intros H. unfold matches. now rewrite H. Qed.

(** [DETACH DELETE] of the [File] nodes of one id keeps every other node,
    and every relationship between kept nodes. *)
Lemma detach_delete_keeps_node file_id g n :
  In n (nodes g) -> matches File [(lit "id", file_id)] n = false ->
  In n (nodes (detach_delete_file file_id g)).
Proof.
  intros Hn Hm. cbn [detach_delete_file nodes]. apply filter_In.
  split; [assumption | now rewrite Hm].
Qed.

Lemma detach_delete_keeps_rel file_id g a b :
  graph_wf g ->
  In a (nodes g) -> In b (nodes g) ->
  matches File [(lit "id", file_id)] a = false ->
  matches File [(lit "id", file_id)] b = false ->
  In (nid a, nid b) (contains g) ->
  In (nid a, nid b) (contains (detach_delete_file file_id g)).
Proof.
  intros [Hnd _] Ha Hb Ma Mb Hr. cbn [detach_delete_file contains].
  apply filter_In. split; [assumption|]. cbn [fst snd].
  assert (alive : forall x, In x (nodes g) ->
            matches File [(lit "id", file_id)] x = false ->
            existsb (Nat.eqb (nid x))
              (List.map nid (filter (matches File [(lit "id", file_id)])
                                    (nodes g))) = false).
  { intros x Hx Mx.
    destruct (existsb _ _) eqn:Ex; [|reflexivity].
    apply existsb_exists in Ex as [i [Hi Ei]]. apply Nat.eqb_eq in Ei.
    apply in_map_iff in Hi as [y [Hy Hin]]. apply filter_In in Hin as [Hin My].
    assert (x = y) by (apply (NoDup_map_eq nid (nodes g)); congruence).
    congruence. }
  now rewrite (alive a Ha Ma), (alive b Hb Mb).
Qed.

Section Invariants.

Context {embedding : Type} (E : env embedding).

Lemma process_chunks_graph_wf file_id l : forall (w w' : world embedding) o,
  process_chunks E file_id l w = (w', o) ->
  graph_wf (db w) -> graph_wf (db w').
Proof.
  induction l as [|[idx chunk] l IH]; intros w w' o; simpl.
  - now intros [= <- <-].
  - embed_cases E chunk w a.
    + intros H Hn. eapply IH; [exact H|]. cbn.
      now apply graph_wf_merge_file_chunk.
    + now intros [= <- <-].
Qed.

Lemma process_file_inv file_path (w : world embedding) :
  written_by_pipeline (knowledge w) /\ graph_wf (db w) ->
  written_by_pipeline (knowledge (fst (process_file E file_path w)))
  /\ graph_wf (db (fst (process_file E file_path w))).
Proof.
  intros [Hw Hg]. unfold process_file.
  destruct (extract E (lower (splitext_ext file_path)) file_path)
    as [[text|e]|]; [|now split|now split].
  destruct (chunk_text text default_chunk_size default_overlap)
    as [chunks|e]; [|now split].
  destruct (process_chunks E (basename file_path) (enumerate chunks) w)
    as [wc o] eqn:Hc.
  pose proof (process_chunks_written E _ _ _ _ _ Hc Hw).
  pose proof (process_chunks_graph_wf _ _ _ _ _ Hc Hg).
  now destruct o.
Qed.

Lemma on_deleted_inv ev (w : world embedding) :
  written_by_pipeline (knowledge w) /\ graph_wf (db w) ->
  written_by_pipeline (knowledge (fst (on_deleted ev w)))
  /\ graph_wf (db (fst (on_deleted ev w))).
Proof.
  intros [Hw Hg]. unfold on_deleted.
  destruct (is_directory ev); [now split|].
  rewrite (ids_to_remove_written _ _ Hw).
  destruct (knowledge w) eqn:Hk; cbn; [|now rewrite Hk].
  split; [constructor | now apply graph_wf_detach_delete].
Qed.

End Invariants.

(** ** Claims about [on_deleted] *)

(** On a collection that holds a record written by [add_to_chroma], the
    handler of a file deletion raises before it deletes anything. *)
Lemma on_deleted_raises {embedding : Type} ev (w : world embedding) :
  is_directory ev = false ->
  written_by_pipeline (knowledge w) ->
  knowledge w <> [] ->
  on_deleted ev w = (w, Raised TypeError).
Proof.
  intros Hd Hw Hne. unfold on_deleted.
  rewrite Hd, (ids_to_remove_written _ _ Hw).
  now destruct (knowledge w).
Qed.

(** C1: after [doc1.txt] is ingested, the handler of its deletion raises
    [TypeError] and leaves the chunk [doc1.txt_chunk_0] in the vector store
    and the [File] node in the graph store; and with only the chunks of
    [other.txt] in the collection, where no chunk of [doc1.txt] exists, the
    handler raises as well. *)
Theorem on_deleted_after_ingest :
  snd (process_file Examples.E_up Examples.doc1 Examples.w0) = Returned
  /\ on_deleted (mkEvent false Examples.doc1) Examples.w_doc1
     = (Examples.w_doc1, Raised TypeError)
  /\ filter (fun i => startswith i (lit "doc1.txt_chunk_"))
            (ids (knowledge Examples.w_doc1))
     = [lit "doc1.txt_chunk_0"]
  /\ existsb (matches File [(lit "id", lit "doc1.txt")])
             (nodes (db Examples.w_doc1)) = true
  /\ filter (fun i => startswith i (lit "doc1.txt_chunk_"))
            (ids (knowledge Examples.w_other)) = []
  /\ on_deleted (mkEvent false Examples.doc1) Examples.w_other
     = (Examples.w_other, Raised TypeError).
Proof. repeat split; vm_compute; reflexivity. Qed.

(** On a collection whose records carry their ids in the metadata the
    comprehension returns, and it selects by [startswith(file_id)]. *)
Lemma ids_to_remove_carried {embedding : Type} (c : collection embedding)
    file_id :
  carries_ids c ->
  ids_to_remove (get_metadatas c) file_id
  = Ok (filter (fun i => startswith i file_id) (ids c)).
Proof.
  induction 1 as [|r c (d & Hm & Hd) _ IH]; [reflexivity|].
  change (get_metadatas (r :: c)) with (metadata r :: get_metadatas c).
  change (ids (r :: c)) with (rec_id r :: ids c).
  cbn [ids_to_remove filter]. rewrite Hm, Hd, IH. reflexivity.
Qed.

(** So on such a collection the handler of a deletion returns, and the
    records it leaves are those whose id does not start with the name of
    the deleted file: the records of every file whose name starts with
    that name are removed with it. *)
Lemma on_deleted_removes_by_prefix {embedding : Type} ev
    (w : world embedding) :
  is_directory ev = false ->
  carries_ids (knowledge w) ->
  snd (on_deleted ev w) = Returned
  /\ knowledge (fst (on_deleted ev w))
     = filter (fun r => negb (startswith (rec_id r) (basename (src_path ev))))
              (knowledge w).
Proof.
  intros Hd Hc. unfold on_deleted.
  rewrite Hd, (ids_to_remove_carried _ _ Hc).
  cbn [fst snd print knowledge]. split; [reflexivity|].
  set (file_id := basename (src_path ev)).
  set (l := filter (fun i => startswith i file_id) (ids (knowledge w))).
  assert (Hsel : forall r, In r (knowledge w) ->
            existsb (str_eqb (rec_id r)) l = startswith (rec_id r) file_id).
  { intros r Hr. destruct (startswith (rec_id r) file_id) eqn:Hs.
    - apply existsb_exists. exists (rec_id r).
      split; [|apply str_eqb_refl].
      apply filter_In. split; [now apply in_map | exact Hs].
    - destruct (existsb (str_eqb (rec_id r)) l) eqn:Hex; [|reflexivity].
      apply existsb_exists in Hex as [i [Hi Heq]].
      apply str_eqb_eq in Heq. subst i.
      apply filter_In in Hi as [_ Hi]. congruence. }
  assert (Hdel : collection_delete l (knowledge w)
                 = filter (fun r => negb (startswith (rec_id r) file_id))
                          (knowledge w)).
  { unfold collection_delete. apply filter_ext_in.
    intros r Hr. now rewrite Hsel. }
  destruct l as [|i l'] eqn:Hl; [|exact Hdel].
  rewrite <- Hdel. unfold collection_delete. simpl.
  clear. induction (knowledge w) as [|r c IH]; simpl; congruence.
Qed.


(** On a collection written by the pipeline, which gives no metadata, the
    handler of a deletion changes the vector store not at all (it raises
    before the filter unless the collection is empty), and in the graph
    store every [Chunk] node, every [File] node of another file [G] and
    every relationship from such a [File] node to a [Chunk] node stays. *)
Lemma on_deleted_written_keeps_others {embedding : Type}
    ev (w w' : world embedding) o G :
  written_by_pipeline (knowledge w) ->
  graph_wf (db w) ->
  G <> basename (src_path ev) ->
  on_deleted ev w = (w', o) ->
  knowledge w' = knowledge w
  /\ (forall n, In n (nodes (db w)) -> nlabel n = Chunk ->
                In n (nodes (db w')))
  /\ (forall n, In n (nodes (db w)) ->
                matches File [(lit "id", G)] n = true ->
                In n (nodes (db w')))
  /\ (forall f c,
        In f (nodes (db w)) -> In c (nodes (db w)) ->
        matches File [(lit "id", G)] f = true -> nlabel c = Chunk ->
        In (nid f, nid c) (contains (db w)) ->
        In (nid f, nid c) (contains (db w'))).
Proof.
  intros Hw Hg HG H. unfold on_deleted in H.
  assert (Hother : forall n, matches File [(lit "id", G)] n = true ->
            matches File [(lit "id", basename (src_path ev))] n = false).
  { intros n Mn.
    destruct (matches File [(lit "id", basename (src_path ev))] n) eqn:Mf;
      [|reflexivity].
    exfalso. apply HG. exact (matches_file_id _ _ n Mn Mf). }
  destruct (is_directory ev).
  { injection H as <- _. repeat split; auto. }
  rewrite (ids_to_remove_written _ _ Hw) in H.
  destruct (knowledge w) eqn:Hk in H.
  - injection H as <- _. cbn [print knowledge db]. repeat split.
    + now rewrite Hk.
    + intros n Hn Hl. apply detach_delete_keeps_node; [assumption|].
      now apply matches_file_chunk_label.
    + intros n Hn Mn. apply detach_delete_keeps_node; auto.
    + intros f c Hf Hc Mf Hl Hr. apply detach_delete_keeps_rel; auto.
      now apply matches_file_chunk_label.
  - injection H as <- _. repeat split; auto.
Qed.

(** ** Claims about reading text files *)

(** [FileProcessor._read_text_file] returns the content of every file that
    exists: what is not UTF-8 is read as Latin-1, which decodes every
    byte. *)
Lemma read_text_file_decodes fs file_path bs :
  fs file_path = Some bs ->
  exists content,
    FileProcessor._read_text_file fs file_path
    = Ok (FileProcessor.content_header ++ content).
Proof.
  intros H. unfold FileProcessor._read_text_file, FileProcessor.encodings.
  cbn [FileProcessor.try_encodings]. unfold open_read. rewrite H.
  destruct (decode utf_8 bs) as [s|]; [eauto|].
  cbn [decode]. eauto.
Qed.

(** C5: on a file that holds the Latin-1 byte 0xE9, which is not UTF-8,
    [extract_text_from_txt] raises [UnicodeDecodeError] and so does
    [process_file], where [FileProcessor._read_text_file] falls back to
    Latin-1 and returns the text. *)
Theorem legacy_encoding_not_extracted :
  Examples.fs Examples.cafe = Some [xe9]
  /\ decode utf_8 [xe9] = None
  /\ decode latin_1 [xe9] = Some [233%N]
  /\ extract_text_from_txt Examples.fs Examples.cafe
     = Raise UnicodeDecodeError
  /\ process_file Examples.E_up Examples.cafe Examples.w0
     = (Examples.w0, Raised UnicodeDecodeError)
  /\ FileProcessor._read_text_file Examples.fs Examples.cafe
     = Ok (FileProcessor.content_header ++ [233%N]).
Proof. repeat split; vm_compute; reflexivity. Qed.

(** * Further properties *)

(** ** The windows of [chunk_text] *)

Lemma window_start_in_text W step k :
  (0 < step)%Z ->
  k < Z.to_nat (ceil_div (Z.of_nat W) step) ->
  k * Z.to_nat step < W.
Proof.
  intros Hs Hk.
  assert (Z.of_nat k * step < Z.of_nat W)%Z by (apply window_start_lt; lia).
  nia.
Qed.

Lemma window_length words size i :
  List.length (window words size i)
  = Nat.min (Z.to_nat size) (List.length words - i).
Proof. unfold window. now rewrite length_firstn, length_skipn. Qed.

(** The chunks of a text, as windows over its words. *)
Lemma chunk_text_nth text size overlap chunks k c :
  (0 < size)%Z -> (overlap < size)%Z ->
  chunk_text text size overlap = Ok chunks ->
  nth_error chunks k = Some c ->
  k * Z.to_nat (size - overlap) < List.length (split text)
  /\ c = join (lit " ")
           (window (split text) size (k * Z.to_nat (size - overlap)))
  /\ split c = window (split text) size (k * Z.to_nat (size - overlap)).
Proof.
  intros Hs Ho Hc Hk.
  rewrite chunk_text_windows in Hc by assumption. injection Hc as <-.
  rewrite nth_error_map, nth_error_seq in Hk.
  destruct (Nat.ltb_spec k
              (Z.to_nat (window_count (Z.of_nat (List.length (split text)))
                                      size overlap))) as [Hlt|]; [|discriminate].
  injection Hk as <-. split; [|split; [reflexivity|]].
  - apply window_start_in_text; [lia | exact Hlt].
  - apply split_join, window_words, split_words.
Qed.

(** X1: with [0 < size] and [overlap < size] every chunk holds at least one
    word and at most [size] words, and is those words joined by single
    spaces. *)
Theorem chunk_word_bounds text size overlap chunks c :
  (0 < size)%Z -> (overlap < size)%Z ->
  chunk_text text size overlap = Ok chunks ->
  In c chunks ->
  1 <= List.length (split c) <= Z.to_nat size
  /\ join (lit " ") (split c) = c.
Proof.
  intros Hs Ho Hc Hin. apply In_nth_error in Hin as [k Hk].
  destruct (chunk_text_nth text size overlap chunks k c Hs Ho Hc Hk)
    as (Hlt & Hj & Hsp).
  split; [|now rewrite Hsp].
  rewrite Hsp, window_length. lia.
Qed.

Lemma chunk_word_bounds_witness :
  1 <= List.length (split (lit "c d e")) <= Z.to_nat 3
  /\ join (lit " ") (split (lit "c d e")) = lit "c d e".
Proof.
  apply (chunk_word_bounds (lit "a b  c d e") 3 1
           [lit "a b c"; lit "c d e"; lit "e"] (lit "c d e"));
    [lia | lia | vm_compute; reflexivity | right; left; reflexivity].
Defined.

(** X2: with [0 <= overlap < size], what chunk [k] holds from word
    [size - overlap] on is what chunk [k + 1] starts with: consecutive
    chunks share those words, [overlap] of them when chunk [k] is full. *)
Theorem consecutive_chunks_overlap text size overlap chunks k c c' :
  (0 <= overlap)%Z -> (overlap < size)%Z ->
  chunk_text text size overlap = Ok chunks ->
  nth_error chunks k = Some c ->
  nth_error chunks (S k) = Some c' ->
  let step := Z.to_nat (size - overlap) in
  skipn step (split c) = firstn (List.length (split c) - step) (split c')
  /\ (List.length (split c) = Z.to_nat size ->
      List.length (skipn step (split c)) = Z.to_nat overlap).
Proof.
  intros Ho Hs Hc Hk Hk' step.
  destruct (chunk_text_nth text size overlap chunks k c ltac:(lia) Hs Hc Hk)
    as (Hlt & _ & ->).
  destruct (chunk_text_nth text size overlap chunks (S k) c' ltac:(lia) Hs
              Hc Hk') as (Hlt' & _ & ->).
  fold step in Hlt, Hlt' |- *. set (words := split text) in *.
  split.
  - rewrite window_length. unfold window.
    rewrite skipn_firstn_comm, skipn_skipn, firstn_firstn.
    replace (step + k * step) with (S k * step) by lia.
    destruct (Nat.le_gt_cases (Z.to_nat size) (List.length words - k * step)).
    + f_equal. subst step. lia.
    + rewrite !firstn_all2; auto; rewrite length_skipn; subst step; lia.
  - rewrite length_skipn. intros ->. subst step. lia.
Qed.

Lemma consecutive_chunks_overlap_witness :
  skipn (Z.to_nat (3 - 1)) (split (lit "a b c"))
  = firstn (List.length (split (lit "a b c")) - Z.to_nat (3 - 1))
           (split (lit "c d e"))
  /\ (List.length (split (lit "a b c")) = Z.to_nat 3 ->
      List.length (skipn (Z.to_nat (3 - 1)) (split (lit "a b c")))
      = Z.to_nat 1).
Proof.
  apply (consecutive_chunks_overlap (lit "a b  c d e") 3 1
           [lit "a b c"; lit "c d e"; lit "e"] 0 (lit "a b c") (lit "c d e"));
    [lia | lia | vm_compute; reflexivity | reflexivity | reflexivity].
Defined.

Lemma firstn_plus {A : Type} a b (l : list A) :
  firstn (a + b) l = firstn a l ++ firstn b (skipn a l).
Proof.
  revert l. induction a as [|a IH]; intros [|x l]; simpl;
    rewrite ?firstn_nil; try reflexivity.
  now rewrite IH.
Qed.

Lemma concat_blocks {A : Type} s n (l : list A) :
  List.concat (List.map (fun k => firstn s (skipn (k * s) l)) (seq 0 n))
  = firstn (n * s) l.
Proof.
  induction n as [|n IH]; [reflexivity|].
  rewrite seq_S, map_app, concat_app, IH. simpl.
  rewrite app_nil_r. replace (s + n * s) with (n * s + s) by lia.
  now rewrite firstn_plus.
Qed.

(** X3: with [0 <= overlap < size] the text's words are recovered from the
    chunks: the first [size - overlap] words of each chunk, one chunk after
    the other, are the tokenization of the text. *)
Theorem chunks_reassemble text size overlap chunks :
  (0 <= overlap)%Z -> (overlap < size)%Z ->
  chunk_text text size overlap = Ok chunks ->
  List.concat (List.map (fun c => firstn (Z.to_nat (size - overlap)) (split c))
                   chunks)
  = split text.
Proof.
  intros Ho Hs Hc.
  rewrite chunk_text_windows in Hc by lia. injection Hc as <-.
  set (step := Z.to_nat (size - overlap)). set (words := split text).
  set (n := Z.to_nat (window_count (Z.of_nat (List.length words))
                                   size overlap)).
  rewrite map_map.
  rewrite (map_ext _ (fun k => firstn step (skipn (k * step) words))).
  - rewrite concat_blocks. apply firstn_all2.
    subst n. unfold window_count, ceil_div.
    assert (Hstep : (size - overlap = Z.of_nat step)%Z) by (subst step; lia).
    rewrite Hstep.
    assert (0 < step) by (subst step; lia).
    pose proof (Z.mul_succ_div_gt
                  (Z.of_nat (List.length words) + Z.of_nat step - 1)
                  (Z.of_nat step) ltac:(lia)).
    assert (0 <= (Z.of_nat (List.length words) + Z.of_nat step - 1)
                 / Z.of_nat step)%Z by (apply Z.div_pos; lia).
    nia.
  - intros k. rewrite split_join by (apply window_words, split_words).
    unfold window. rewrite firstn_firstn. f_equal. subst step. lia.
Qed.

Lemma chunks_reassemble_witness :
  List.concat (List.map (fun c => firstn (Z.to_nat (3 - 1)) (split c))
                   [lit "a b c"; lit "c d e"; lit "e"])
  = split (lit "a b  c d e").
Proof.
  apply (chunks_reassemble (lit "a b  c d e") 3 1);
    [lia | lia | vm_compute; reflexivity].
Defined.

(** ** What [process_file] sends and writes *)

Section ProcessFile.

Context {embedding : Type} (E : env embedding).
Implicit Types (w : world embedding).

Lemma process_chunks_trace file_id l : forall w w',
  process_chunks E file_id l w = (w', Returned) ->
  exists embs ns,
    List.length embs = List.length l
    /\ List.length ns = List.length l
    /\ Forall (fun n => 1 <= n <= S max_retries) ns
    /\ knowledge w' = add_chunks file_id (combine l embs) (knowledge w)
    /\ db w' = merge_chunks file_id l (db w)
    /\ stdout w' = stdout w
    /\ requests w' = requests w ++ sent (combine (List.map snd l) ns)
    /\ all_answered E (List.length (requests w))
                    (combine (List.map snd l) ns).
Proof.
  induction l as [|[idx chunk] l IH]; intros w w'; simpl.
  - intros [= <-]. exists [], []. rewrite app_nil_r. repeat split.
    constructor.
  - destruct (embed_text E chunk w) as [w1 r] eqn:He.
    apply embed_text_spec in He as (n & Hn & -> & Hr).
    destruct r as [emb|e]; [|discriminate]. destruct Hr as [Hn1 Hr].
    intros H.
    apply IH in H as (embs & ns & H1 & H2 & H3 & H4 & H5 & H6 & H7 & H8).
    cbn in H4, H5, H6, H7, H8.
    rewrite length_app, repeat_length in H8.
    exists (emb :: embs), (n :: ns). simpl.
    rewrite H1, H2, <- app_assoc in *.
    repeat split; try assumption. constructor; [lia | assumption].
Qed.

Lemma grows_refl w : grows w w.
Proof. repeat split; exists []; now rewrite app_nil_r. Qed.

Lemma grows_same_stores w w1 w2 :
  grows w w1 -> knowledge w2 = knowledge w1 -> db w2 = db w1 -> grows w w2.
Proof. unfold grows. now intros H -> ->. Qed.

Lemma grows_trans w1 w2 w3 : grows w1 w2 -> grows w2 w3 -> grows w1 w3.
Proof.
  intros ([a Ha] & [b Hb] & [c Hc]) ([a' Ha'] & [b' Hb'] & [c' Hc']).
  repeat split.
  - exists (a ++ a'). now rewrite Ha', Ha, app_assoc.
  - exists (b ++ b'). now rewrite Hb', Hb, app_assoc.
  - exists (c ++ c'). now rewrite Hc', Hc, app_assoc.
Qed.

Lemma merge_node_grows l pat g :
  (exists ns, nodes (merge_node l pat g) = nodes g ++ ns)
  /\ contains (merge_node l pat g) = contains g.
Proof.
  unfold merge_node. destruct (existsb (matches l pat) (nodes g)); simpl.
  - split; [exists []; now rewrite app_nil_r | reflexivity].
  - split; [eauto | reflexivity].
Qed.

Lemma fold_merge_rel_grows rows : forall rels,
  exists es, fold_left merge_rel rows rels = rels ++ es.
Proof.
  induction rows as [|r rows IH]; intros rels; simpl.
  - exists []. now rewrite app_nil_r.
  - destruct (IH (merge_rel rels r)) as [es Hes]. rewrite Hes.
    unfold merge_rel. destruct (existsb (rel_eqb r) rels); [eauto|].
    exists ([r] ++ es). now rewrite app_assoc.
Qed.

Lemma merge_file_chunk_grows f c t g :
  (exists ns, nodes (merge_file_chunk f c t g) = nodes g ++ ns)
  /\ (exists es, contains (merge_file_chunk f c t g) = contains g ++ es).
Proof.
  unfold merge_file_chunk, merge_contains. cbn [nodes contains].
  set (g1 := merge_node File [(lit "id", f)] g).
  set (g2 := merge_node Chunk [(lit "id", c); (lit "text", t)] g1).
  destruct (merge_node_grows File [(lit "id", f)] g) as [[n1 H1] C1].
  destruct (merge_node_grows Chunk [(lit "id", c); (lit "text", t)] g1)
    as [[n2 H2] C2].
  fold g1 in H1, C1. fold g2 in H2, C2. split.
  - exists (n1 ++ n2). now rewrite H2, H1, app_assoc.
  - rewrite C2, C1. apply fold_merge_rel_grows.
Qed.

Lemma collection_add_grows i d e (c : collection embedding) :
  exists rs, collection_add i d e c = c ++ rs.
Proof.
  unfold collection_add. destruct (existsb (str_eqb i) (ids c)); [|eauto].
  exists []. now rewrite app_nil_r.
Qed.

Lemma process_chunks_grows file_id l : forall w w' o,
  process_chunks E file_id l w = (w', o) -> grows w w'.
Proof.
  induction l as [|[idx chunk] l IH]; intros w w' o; simpl.
  - intros [= <- _]. apply grows_refl.
  - embed_cases E chunk w a.
    + intros H. apply IH in H. eapply grows_trans; [|exact H].
      unfold grows. cbn.
      pose proof (collection_add_grows (chunk_id_of file_id idx) chunk a
                    (knowledge w)).
      pose proof (merge_file_chunk_grows file_id (chunk_id_of file_id idx)
                    chunk (db w)) as [? ?].
      auto.
    + intros [= <- _].
      apply (grows_same_stores w w); [apply grows_refl | reflexivity ..].
Qed.

End ProcessFile.

(** X4: when [process_file] returns normally, the embedding requests it
    has sent are those for the chunks, in the order of the chunks and
    nothing else: the request for a chunk is sent at least once and, with
    the re-sends of the client, at most [S max_retries] = 3 times; it is
    sent again exactly as long as the service answers with an error that
    the client takes to be transient, and its last sending is answered. *)
Theorem process_file_requests {embedding : Type}
    (E : env embedding) file_path text chunks w w' :
  extract E (lower (splitext_ext file_path)) file_path = Some (Ok text) ->
  chunk_text text default_chunk_size default_overlap = Ok chunks ->
  process_file E file_path w = (w', Returned) ->
  exists ns,
    List.length ns = List.length chunks
    /\ Forall (fun n => 1 <= n <= 3) ns
    /\ requests w' = requests w ++ sent (combine chunks ns)
    /\ all_answered E (List.length (requests w)) (combine chunks ns).
Proof.
  intros Hext Hc H. unfold process_file in H. rewrite Hext, Hc in H.
  destruct (process_chunks E (basename file_path) (enumerate chunks) w)
    as [wc [|e]] eqn:Hp; [|discriminate].
  injection H as <-. cbn [print requests].
  destruct (process_chunks_trace E _ _ _ _ Hp)
    as (embs & ns & _ & H2 & H3 & _ & _ & _ & H7 & H8).
  exists ns. rewrite enumerate_values in H7, H8. unfold enumerate in H2.
  rewrite length_combine, length_seq, Nat.min_id in H2.
  split; [exact H2|]. split; [exact H3|]. split; [exact H7 | exact H8].
Qed.

Lemma process_file_requests_witness :
  exists ns,
    List.length ns = List.length Examples.long_chunks
    /\ Forall (fun n => 1 <= n <= 3) ns
    /\ requests (fst (process_file Examples.E_flaky Examples.long
                                   Examples.w0))
       = requests Examples.w0 ++ sent (combine Examples.long_chunks ns)
    /\ all_answered Examples.E_flaky (List.length (requests Examples.w0))
                    (combine Examples.long_chunks ns).
Proof.
  apply (process_file_requests Examples.E_flaky Examples.long
           Examples.long_text Examples.long_chunks Examples.w0);
    vm_compute; reflexivity.
Defined.

(** With [E_flaky] the request for the first chunk is sent twice. *)
Example flaky_requests :
  requests (fst (process_file Examples.E_flaky Examples.long Examples.w0))
  = sent (combine Examples.long_chunks [2; 1]).
Proof. vm_compute. reflexivity. Qed.

Lemma process_file_grows {embedding : Type}
    (E : env embedding) file_path (w : world embedding) :
  grows w (fst (process_file E file_path w)).
Proof.
  unfold process_file.
  destruct (extract E (lower (splitext_ext file_path)) file_path)
    as [[text|e]|]; cbn [fst].
  - destruct (chunk_text text default_chunk_size default_overlap)
      as [chunks|e]; [|apply grows_refl].
    destruct (process_chunks E (basename file_path) (enumerate chunks) w)
      as [wc o] eqn:Hp.
    apply process_chunks_grows in Hp.
    destruct o; [|exact Hp].
    apply (grows_same_stores w wc); [exact Hp | reflexivity ..].
  - apply grows_refl.
  - apply (grows_same_stores w w); [apply grows_refl | reflexivity ..].
Qed.

(** X5: [process_file] only appends to the stores, whatever its outcome:
    the records, nodes and relationships that were there stay as they are
    and where they are.  A chunk that is no longer produced, or whose text
    has changed, keeps its old record. *)
Theorem process_file_only_appends {embedding : Type}
    (E : env embedding) file_path (w : world embedding) :
  grows w (fst (process_file E file_path w)).
Proof. exact (process_file_grows E file_path w). Qed.

(** ** Chunk ids *)

Lemma lit_inj s s' : lit s = lit s' -> s = s'.
Proof.
  unfold lit. intros H.
  assert (Hb : list_byte_of_string s = list_byte_of_string s').
  { revert H. generalize (list_byte_of_string s) (list_byte_of_string s').
    induction l as [|x l IH]; intros [|y l']; simpl; try discriminate;
      [reflexivity|].
    intros [= Hxy Hl]. f_equal; [|now apply IH].
    pose proof (Byte.of_to_N x) as Hx. rewrite Hxy, Byte.of_to_N in Hx.
    congruence. }
  rewrite <- (string_of_list_byte_of_string s),
          <- (string_of_list_byte_of_string s'). now rewrite Hb.
Qed.

Lemma str_of_nat_inj i j : str_of_nat i = str_of_nat j -> i = j.
Proof.
  unfold str_of_nat. intros H. apply lit_inj in H.
  apply DecimalNat.Unsigned.to_uint_inj.
  pose proof (NilEmpty.usu (Nat.to_uint i)) as Hi.
  rewrite H, NilEmpty.usu in Hi. congruence.
Qed.

Lemma chunk_id_of_inj file_id i j :
  chunk_id_of file_id i = chunk_id_of file_id j -> i = j.
Proof.
  unfold chunk_id_of. intros H.
  apply app_inv_head in H. apply app_inv_head in H.
  now apply str_of_nat_inj.
Qed.

Lemma NoDup_map_injective {A B : Type} (f : A -> B) l :
  (forall x y, f x = f y -> x = y) -> NoDup l -> NoDup (List.map f l).
Proof.
  intros Hf. induction 1 as [|x l Hx Hl IH]; simpl; constructor; auto.
  intros Hin. apply in_map_iff in Hin as [y [Hy Hin]].
  apply Hf in Hy. now subst.
Qed.

Section FirstIngestion.

Context {embedding : Type} (E : env embedding).
Implicit Types (w : world embedding).

Lemma collection_add_fresh i d e (c : collection embedding) :
  ~ In i (ids c) -> collection_add i d e c = c ++ [mkRecord i d e None].
Proof.
  intros H. unfold collection_add.
  now rewrite (mem_not_In _ _ H : existsb (str_eqb i) (ids c) = false).
Qed.

Lemma process_chunks_fresh file_id l : forall w w',
  process_chunks E file_id l w = (w', Returned) ->
  NoDup (List.map fst l) ->
  (forall kc, In kc l ->
              ~ In (chunk_id_of file_id (fst kc)) (ids (knowledge w))) ->
  ids (knowledge w')
  = ids (knowledge w) ++ List.map (fun kc => chunk_id_of file_id (fst kc)) l
  /\ List.map (@document embedding) (knowledge w')
     = List.map (@document embedding) (knowledge w) ++ List.map snd l.
Proof.
  induction l as [|[idx chunk] l IH]; intros w w'; simpl.
  - intros [= <-] _ _. now rewrite !app_nil_r.
  - embed_cases E chunk w a;
      [|discriminate].
    intros H Hnd Hfresh. inversion Hnd as [|? ? Hidx Hnd']; subst.
    apply IH in H; [|exact Hnd'|].
    + cbn in H. rewrite collection_add_fresh in H
        by (apply (Hfresh (idx, chunk)); now left).
      unfold ids in *. rewrite !map_app in H. simpl in H.
      now rewrite <- !app_assoc in H.
    + intros kc Hkc. cbn.
      rewrite collection_add_fresh
        by (apply (Hfresh (idx, chunk)); now left).
      unfold ids. rewrite map_app, in_app_iff. simpl.
      intros [Hin|[Heq|[]]].
      * apply (Hfresh kc); [now right | exact Hin].
      * apply chunk_id_of_inj in Heq. apply Hidx. rewrite Heq.
        now apply in_map.
Qed.

End FirstIngestion.

(** X7: the chunk ids of a file are pairwise distinct; and when no id of
    the file is in the vector store, a [process_file] that returns normally
    adds exactly one record per chunk, with the ids
    [<file_id>_chunk_0 .. <file_id>_chunk_<n-1>] and the chunk texts, in
    order. *)
Theorem first_ingestion_records {embedding : Type}
    (E : env embedding) file_path text chunks w w' :
  extract E (lower (splitext_ext file_path)) file_path = Some (Ok text) ->
  chunk_text text default_chunk_size default_overlap = Ok chunks ->
  process_file E file_path w = (w', Returned) ->
  (forall k, ~ In (chunk_id_of (basename file_path) k) (ids (knowledge w))) ->
  NoDup (List.map (chunk_id_of (basename file_path))
                  (seq 0 (List.length chunks)))
  /\ ids (knowledge w')
     = ids (knowledge w)
       ++ List.map (chunk_id_of (basename file_path))
                   (seq 0 (List.length chunks))
  /\ List.map (@document embedding) (knowledge w')
     = List.map (@document embedding) (knowledge w) ++ chunks.
Proof.
  intros Hext Hc H Hfresh. split.
  { apply NoDup_map_injective; [apply chunk_id_of_inj | apply seq_NoDup]. }
  unfold process_file in H. rewrite Hext, Hc in H.
  destruct (process_chunks E (basename file_path) (enumerate chunks) w)
    as [wc [|e]] eqn:Hp; [|discriminate].
  injection H as <-. cbn [print knowledge].
  apply process_chunks_fresh in Hp.
  - rewrite <- (map_map fst (chunk_id_of (basename file_path))) in Hp.
    now rewrite enumerate_ordinals, enumerate_values in Hp.
  - rewrite enumerate_ordinals. apply seq_NoDup.
  - intros kc _. apply Hfresh.
Qed.

Lemma first_ingestion_records_witness :
  NoDup (List.map (chunk_id_of (basename Examples.long))
                  (seq 0 (List.length Examples.long_chunks)))
  /\ ids (knowledge (fst (process_file Examples.E_up Examples.long
                                       Examples.w0)))
     = ids (knowledge Examples.w0)
       ++ List.map (chunk_id_of (basename Examples.long))
                   (seq 0 (List.length Examples.long_chunks))
  /\ List.map (@document nat)
              (knowledge (fst (process_file Examples.E_up Examples.long
                                            Examples.w0)))
     = List.map (@document nat) (knowledge Examples.w0)
       ++ Examples.long_chunks.
Proof.
  apply (first_ingestion_records Examples.E_up Examples.long
           Examples.long_text Examples.long_chunks Examples.w0).
  - vm_compute. reflexivity.
  - vm_compute. reflexivity.
  - vm_compute. reflexivity.
  - intros k H. exact H.
Defined.

(** ** The record of a chunk *)

Section ChunkRecords.

Context {embedding : Type} (E : env embedding).
Implicit Types (w : world embedding) (c : collection embedding).







End ChunkRecords.



(** The two cases on examples: the second chunk of [long.txt] is new to the
    empty store and gets its record; the chunk of [doc1.txt] finds the id
    taken in [c_old] and the record stays as it was. *)
Example chunk_record_new_and_kept :
  records_of (lit "long.txt_chunk_1")
    (knowledge (fst (process_file Examples.E_up Examples.long Examples.w0)))
  = [mkRecord (lit "long.txt_chunk_1") (nth 1 Examples.long_chunks []) 1 None]
  /\ records_of (lit "doc1.txt_chunk_0")
       (knowledge (fst (process_file Examples.E_up Examples.doc1
                          (mkWorld Examples.c_old init_graph [] []))))
     = [mkRecord (lit "doc1.txt_chunk_0") (lit "old text") 7 None].
Proof. split; vm_compute; reflexivity. Qed.

(** ** A failed embedding *)

Lemma firstn_seq_min k : forall s n,
  firstn k (seq s n) = seq s (Nat.min k n).
Proof.
  induction k as [|k IH]; intros s [|n]; simpl; [reflexivity ..|].
  now rewrite IH.
Qed.

Lemma firstn_enumerate {A : Type} (l : list A) k :
  firstn k (enumerate l) = enumerate (firstn k l).
Proof.
  unfold enumerate.
  now rewrite combine_firstn, firstn_seq_min, length_firstn.
Qed.

(** C3, as the code has it: [embed_text] stands bare in the loop, so when
    the embedding of chunk [k] fails (after the re-sends of the client) the
    exception leaves [process_file].  The chunks before [k] have been
    written to both stores and nothing else has: the collection is the old
    one with the records the loop adds for chunks [0 .. k-1], the graph is
    the old one with what the loop merges for them, so chunk [k] and the
    chunks after it are in neither store; nothing is printed; and the
    requests are those for the chunks [0 .. k], none for a later chunk:
    the calls for the chunks before [k] were answered, and the call for
    chunk [k] met the exception on a sending after which the client sends
    no more, the third, or one whose error it does not take to be
    transient; or no request was sent for chunk [k] because there is no
    key to build the client with. *)
Theorem embed_failure_ends_file {embedding : Type}
    (E : env embedding) file_path text chunks k c w w1 w2 e :
  extract E (lower (splitext_ext file_path)) file_path = Some (Ok text) ->
  chunk_text text default_chunk_size default_overlap = Ok chunks ->
  nth_error chunks k = Some c ->
  process_chunks E (basename file_path) (firstn k (enumerate chunks)) w
  = (w1, Returned) ->
  embed_text E c w1 = (w2, Raise e) ->
  process_file E file_path w = (w2, Raised e)
  /\ (exists embs,
        List.length embs = k
        /\ knowledge w2
           = add_chunks (basename file_path)
               (combine (firstn k (enumerate chunks)) embs) (knowledge w))
  /\ db w2
     = merge_chunks (basename file_path) (firstn k (enumerate chunks)) (db w)
  /\ Forall (stored (knowledge w2) (db w2) (basename file_path))
            (firstn k (enumerate chunks))
  /\ ((forall j, j < List.length chunks ->
         ~ In (chunk_id_of (basename file_path) j) (ids (knowledge w))) ->
      ids (knowledge w2)
      = ids (knowledge w)
        ++ List.map (chunk_id_of (basename file_path)) (seq 0 k)
      /\ List.map (@document embedding) (knowledge w2)
         = List.map (@document embedding) (knowledge w) ++ firstn k chunks)
  /\ stdout w2 = stdout w
  /\ exists ns n,
       List.length ns = k
       /\ Forall (fun m => 1 <= m <= 3) ns
       /\ n <= 3
       /\ requests w2
          = requests w ++ sent (combine (firstn k chunks) ns) ++ repeat c n
       /\ all_answered E (List.length (requests w))
                       (combine (firstn k chunks) ns)
       /\ ((n = 0 /\ OPENAI_API_KEY E = None /\ e = OpenAIError)
           \/ (1 <= n /\ OPENAI_API_KEY E <> None
               /\ refused E (List.length (requests w1)) c n e
               /\ (n = 3 \/ should_retry e = false))).
Proof.
  intros Hext Hchunks Hk Hpre Hfail.
  assert (Hlt : k < List.length chunks)
    by (apply nth_error_Some; congruence).
  destruct (embed_text_spec E c w1 w2 _ Hfail) as (n & Hn & -> & Href).
  destruct (process_chunks_trace E _ _ _ _ Hpre)
    as (embs & ns & H1 & H2 & H3 & H4 & H5 & H6 & H7 & H8).
  assert (Hlen : List.length (firstn k (enumerate chunks)) = k).
  { rewrite firstn_enumerate. unfold enumerate.
    rewrite length_combine, length_seq, Nat.min_id, length_firstn. lia. }
  rewrite Hlen in H1, H2.
  split; [|split; [|split; [|split; [|split; [|split]]]]].
  - unfold process_file. rewrite Hext, Hchunks.
    pose proof (firstn_skipn_middle k (enumerate chunks)
                  (nth_error_enumerate chunks k c Hk)) as Hmid.
    rewrite <- Hmid, process_chunks_app, Hpre.
    cbn [process_chunks]. rewrite Hfail. reflexivity.
  - exists embs. split; [exact H1 | exact H4].
  - exact H5.
  - exact (process_chunks_all_stored E _ _ _ _ Hpre).
  - intros Hfresh. cbn [resent knowledge].
    destruct (process_chunks_fresh E (basename file_path)
                (firstn k (enumerate chunks)) w w1 Hpre) as [Hi Hd].
    + rewrite firstn_enumerate, enumerate_ordinals. apply seq_NoDup.
    + intros [j t] Hin. cbn [fst]. apply Hfresh.
      rewrite firstn_enumerate in Hin.
      assert (Hj : In j (List.map fst (enumerate (firstn k chunks))))
        by (apply in_map_iff; now exists (j, t)).
      rewrite enumerate_ordinals, length_firstn in Hj.
      apply in_seq in Hj. lia.
    + rewrite <- (map_map fst (chunk_id_of (basename file_path))) in Hi.
      rewrite firstn_enumerate, enumerate_ordinals, length_firstn in Hi.
      rewrite firstn_enumerate, enumerate_values in Hd.
      replace (Nat.min k (List.length chunks)) with k in Hi by lia.
      now split.
  - exact H6.
  - exists ns, n. rewrite firstn_enumerate, enumerate_values in H7, H8.
    unfold max_retries in *.
    split; [exact H2|]. split; [exact H3|]. split; [lia|].
    split; [cbn [resent requests]; now rewrite H7, <- app_assoc|].
    split; [exact H8 | exact Href].
Qed.

Lemma embed_failure_ends_file_witness :
  let E := Examples.E_second_fails in
  let chunks := Examples.long3_chunks in
  let file_id := basename Examples.long3 in
  let w := Examples.w0 in
  let w1 := fst (process_chunks E file_id (firstn 1 (enumerate chunks)) w) in
  let w2 := fst (embed_text E (nth 1 chunks []) w1) in
  process_file E Examples.long3 w = (w2, Raised (APIStatusError 503 None))
  /\ (exists embs,
        List.length embs = 1
        /\ knowledge w2
           = add_chunks file_id (combine (firstn 1 (enumerate chunks)) embs)
                        (knowledge w))
  /\ db w2 = merge_chunks file_id (firstn 1 (enumerate chunks)) (db w)
  /\ Forall (stored (knowledge w2) (db w2) file_id)
            (firstn 1 (enumerate chunks))
  /\ ((forall j, j < List.length chunks ->
         ~ In (chunk_id_of file_id j) (ids (knowledge w))) ->
      ids (knowledge w2)
      = ids (knowledge w) ++ List.map (chunk_id_of file_id) (seq 0 1)
      /\ List.map (@document nat) (knowledge w2)
         = List.map (@document nat) (knowledge w) ++ firstn 1 chunks)
  /\ stdout w2 = stdout w
  /\ exists ns n,
       List.length ns = 1
       /\ Forall (fun m => 1 <= m <= 3) ns
       /\ n <= 3
       /\ requests w2
          = requests w ++ sent (combine (firstn 1 chunks) ns)
            ++ repeat (nth 1 chunks []) n
       /\ all_answered E (List.length (requests w))
                       (combine (firstn 1 chunks) ns)
       /\ ((n = 0 /\ OPENAI_API_KEY E = None
            /\ APIStatusError 503 None = OpenAIError)
           \/ (1 <= n /\ OPENAI_API_KEY E <> None
               /\ refused E (List.length (requests w1)) (nth 1 chunks []) n
                          (APIStatusError 503 None)
               /\ (n = 3 \/ should_retry (APIStatusError 503 None) = false))).
Proof.
  intros E chunks file_id w w1 w2.
  apply (embed_failure_ends_file E Examples.long3 Examples.long3_text chunks
           1 (nth 1 chunks []) w w1 w2 (APIStatusError 503 None));
    vm_compute; reflexivity.
Defined.

(** C3, as the specification states it, fails on a file of three chunks
    when the service answers the request for the first chunk, meets the
    status 503 on the three requests the client sends for the second, and
    would answer every later request: the third chunk is never sent to the
    service, only the first chunk is in the stores, and nothing is
    printed. *)
Lemma embed_failure_drops_later_chunks :
  let run := process_file Examples.E_second_fails Examples.long3
                          Examples.w0 in
  let c0 := nth 0 Examples.long3_chunks [] in
  let c1 := nth 1 Examples.long3_chunks [] in
  let c2 := nth 2 Examples.long3_chunks [] in
  List.length Examples.long3_chunks = 3
  /\ chunk_text Examples.long3_text default_chunk_size default_overlap
     = Ok Examples.long3_chunks
  /\ embeddings_create Examples.E_second_fails 4 c2 = Ok 4
  /\ snd run = Raised (APIStatusError 503 None)
  /\ requests (fst run) = [c0; c1; c1; c1]
  /\ knowledge (fst run) = [mkRecord (lit "long3.txt_chunk_0") c0 0 None]
  /\ db (fst run)
     = merge_file_chunk (lit "long3.txt") (lit "long3.txt_chunk_0") c0
                        init_graph
  /\ stdout (fst run) = [].
Proof.
  intros run c0 c1 c2.
  split; [|split; [|split; [|split; [|split; [|split; [|split]]]]]];
    vm_compute; reflexivity.
Qed.

(** Without a key the first chunk ends the file before any request. *)
Example no_key_no_request :
  process_file Examples.E_no_key Examples.doc1 Examples.w0
  = (Examples.w0, Raised OpenAIError).
Proof. vm_compute. reflexivity. Qed.

(** ** The stores after any sequence of events *)

Lemma fold_merge_rel_inv rows : forall rels r,
  In r (fold_left merge_rel rows rels) -> In r rels \/ In r rows.
Proof.
  induction rows as [|r' rows IH]; intros rels r; simpl; [auto|].
  intros H. apply IH in H as [H|H]; [|auto].
  unfold merge_rel in H. destruct (existsb (rel_eqb r') rels); [auto|].
  apply in_app_iff in H as [H|[<-|[]]]; auto.
Qed.

Lemma matches_node_label l pat n : matches l pat n = true -> nlabel n = l.
Proof.
  unfold matches. rewrite andb_true_iff. intros [H _].
  now destruct l, (nlabel n).
Qed.

Lemma matches_chunk_id_new chunk_id text i :
  matches Chunk [(lit "id", chunk_id)]
          (mkNode i Chunk [(lit "id", chunk_id); (lit "text", text)]) = true.
Proof.
  unfold matches. cbn [nlabel props label_eqb forallb fst snd dict_get].
  now rewrite !str_eqb_refl.
Qed.

Lemma rels_closed_merge_file_chunk f c t g :
  rels_closed g -> rels_closed (merge_file_chunk f c t g).
Proof.
  intros Hg a b Hab.
  assert (Hold : forall i, In i (List.map nid (nodes g)) ->
                 In i (List.map nid (nodes (merge_file_chunk f c t g)))).
  { intros i Hi. apply in_map_iff in Hi as [n [<- Hn]]. apply in_map.
    now apply merge_file_chunk_nodes_incl. }
  unfold merge_file_chunk, merge_contains in Hab. cbn [contains] in Hab.
  apply fold_merge_rel_inv in Hab as [Hab|Hab].
  - rewrite !merge_node_contains in Hab. apply Hg in Hab as [Ha Hb]. auto.
  - apply in_map_iff in Hab as [[x y] [[= <- <-] Hxy]].
    apply in_prod_iff in Hxy as [Hx Hy].
    apply filter_In in Hx as [Hx _]. apply filter_In in Hy as [Hy _].
    split; now apply in_map.
Qed.

Lemma collection_add_nonempty {embedding : Type} i d e
    (c : collection embedding) : collection_add i d e c <> [].
Proof.
  unfold collection_add. destruct (existsb (str_eqb i) (ids c)) eqn:Hm.
  - destruct c; [discriminate | discriminate].
  - now destruct c.
Qed.

Lemma cross_consistent_step {embedding : Type} f cid chunk e
    (c : collection embedding) g :
  cross_consistent c g ->
  cross_consistent (collection_add cid chunk e c)
                   (merge_file_chunk f cid chunk g).
Proof.
  intros (H1 & H2 & H3).
  pose proof (merged_after g f cid chunk) as (Mf & Mc & Mrel).
  split; [|split].
  - intros r Hr. unfold collection_add in Hr.
    destruct (existsb (str_eqb cid) (ids c)).
    + generalize (H1 r Hr). apply existsb_incl. intros n.
      apply merge_file_chunk_nodes_incl.
    + apply in_app_iff in Hr as [Hr|[<-|[]]].
      * generalize (H1 r Hr). apply existsb_incl. intros n.
        apply merge_file_chunk_nodes_incl.
      * exact Mc.
  - intros n Hn Hl. apply merge_file_chunk_nodes in Hn as [Hn|[[_ ->]|[i ->]]].
    + destruct (H2 n Hn Hl) as [j [Hj Hin]]. exists j.
      split; [assumption | now apply collection_add_keeps].
    + discriminate.
    + exists cid. split; [|apply collection_add_In].
      cbn [props dict_get]. now rewrite str_eqb_refl.
  - intros n Hn Hl. pose proof Hn as Hn'.
    apply merge_file_chunk_nodes in Hn as [Hn|[[_ ->]|[i ->]]].
    + destruct (H3 n Hn Hl) as [f0 (Hf0 & Lf0 & Hr)]. exists f0.
      repeat split; [now apply merge_file_chunk_nodes_incl | assumption |
                     now apply merge_file_chunk_contains_incl].
    + discriminate.
    + apply existsb_exists in Mf as [f0 [Hf0 Mf0]]. exists f0.
      repeat split; [assumption | now apply matches_node_label in Mf0 |].
      apply Mrel; auto. apply matches_chunk_id_new.
Qed.

Lemma stores_ok_init {embedding : Type} :
  stores_ok (@nil (record embedding)) init_graph.
Proof.
  repeat split; try constructor; try easy.
Qed.

Lemma stores_ok_step {embedding : Type} f cid chunk e
    (c : collection embedding) g :
  stores_ok c g ->
  stores_ok (collection_add cid chunk e c) (merge_file_chunk f cid chunk g).
Proof.
  intros (H1 & H2 & H3 & H4 & H5 & H6).
  split; [|split; [|split; [|split; [|split]]]].
  - now apply collection_add_NoDup.
  - now apply collection_add_written.
  - now apply graph_wf_merge_file_chunk.
  - now apply rels_closed_merge_file_chunk.
  - now apply cross_consistent_step.
  - intros Hnil. now apply collection_add_nonempty in Hnil.
Qed.

Section StoresOk.

Context {embedding : Type} (E : env embedding).
Implicit Types (w : world embedding).

Lemma process_chunks_ok file_id l : forall w w' o,
  process_chunks E file_id l w = (w', o) ->
  stores_ok (knowledge w) (db w) -> stores_ok (knowledge w') (db w').
Proof.
  induction l as [|[idx chunk] l IH]; intros w w' o; simpl.
  - now intros [= <- _].
  - embed_cases E chunk w a.
    + intros H Hok. eapply IH; [exact H|]. cbn. now apply stores_ok_step.
    + now intros [= <- _].
Qed.

Lemma process_file_ok file_path w :
  stores_ok (knowledge w) (db w) ->
  stores_ok (knowledge (fst (process_file E file_path w)))
            (db (fst (process_file E file_path w))).
Proof.
  intros Hok. unfold process_file.
  destruct (extract E (lower (splitext_ext file_path)) file_path)
    as [[text|e]|]; [|exact Hok|exact Hok].
  destruct (chunk_text text default_chunk_size default_overlap)
    as [chunks|e]; [|exact Hok].
  destruct (process_chunks E (basename file_path) (enumerate chunks) w)
    as [wc o] eqn:Hc.
  pose proof (process_chunks_ok _ _ _ _ _ Hc Hok). now destruct o.
Qed.

Lemma stores_ok_inv w :
  stores_ok (knowledge w) (db w) -> stores_inv (knowledge w) (db w).
Proof.
  intros (H1 & H2 & H3 & H4 & (_ & H5 & _) & H6).
  split; [exact H1|]. split; [exact H2|]. split; [exact H3|].
  split; [exact H4|]. split; [exact H5 | exact H6].
Qed.

Lemma rels_closed_merge_node l pat g :
  rels_closed g -> rels_closed (merge_node l pat g).
Proof.
  intros Hg a b Hab. rewrite merge_node_contains in Hab.
  destruct (Hg a b Hab) as [Ha Hb].
  assert (Hold : forall i, In i (List.map nid (nodes g)) ->
                 In i (List.map nid (nodes (merge_node l pat g)))).
  { intros i Hi. apply in_map_iff in Hi as [n [<- Hn]]. apply in_map.
    apply merge_node_nodes. now left. }
  split; now apply Hold.
Qed.

(** The invariant at each of the writes for a chunk. *)
Lemma stores_inv_add i d (e : embedding) c g :
  stores_inv c g -> stores_inv (collection_add i d e c) g.
Proof.
  intros (H1 & H2 & H3 & H4 & H5 & H6).
  split; [now apply collection_add_NoDup|].
  split; [now apply collection_add_written|].
  split; [exact H3|]. split; [exact H4|]. split.
  - intros n Hn Hl. destruct (H5 n Hn Hl) as [j [Hj Hin]]. exists j.
    split; [assumption | now apply collection_add_keeps].
  - intros Hnil. now apply collection_add_nonempty in Hnil.
Qed.

Lemma stores_inv_merge_file f (c : collection embedding) g :
  c <> [] -> stores_inv c g ->
  stores_inv c (merge_node File [(lit "id", f)] g).
Proof.
  intros Hc (H1 & H2 & H3 & H4 & H5 & H6).
  split; [exact H1|]. split; [exact H2|].
  split; [now apply graph_wf_merge_node|].
  split; [now apply rels_closed_merge_node|]. split; [|contradiction].
  intros n Hn Hl. apply merge_node_nodes in Hn as [Hn|[_ ->]];
    [now apply H5 | discriminate].
Qed.

Lemma stores_inv_merge_chunk i t (c : collection embedding) g :
  In i (ids c) -> stores_inv c g ->
  stores_inv c (merge_node Chunk [(lit "id", i); (lit "text", t)] g).
Proof.
  intros Hi (H1 & H2 & H3 & H4 & H5 & H6).
  split; [exact H1|]. split; [exact H2|].
  split; [now apply graph_wf_merge_node|].
  split; [now apply rels_closed_merge_node|]. split.
  - intros n Hn Hl. apply merge_node_nodes in Hn as [Hn|[_ ->]];
      [now apply H5|].
    exists i. split; [|exact Hi]. cbn [props dict_get].
    now rewrite str_eqb_refl.
  - intros ->. destruct Hi.
Qed.

Lemma stores_inv_step f cid chunk (e : embedding) c g :
  stores_inv c g ->
  stores_inv (collection_add cid chunk e c) (merge_file_chunk f cid chunk g).
Proof.
  intros H. apply (stores_inv_add cid chunk e) in H.
  destruct H as (H1 & H2 & H3 & H4 & H5 & H6).
  split; [exact H1|]. split; [exact H2|].
  split; [now apply graph_wf_merge_file_chunk|].
  split; [now apply rels_closed_merge_file_chunk|]. split.
  - intros n Hn Hl.
    apply merge_file_chunk_nodes in Hn as [Hn|[[_ ->]|[i ->]]].
    + now apply H5.
    + discriminate.
    + exists cid. split; [|apply collection_add_In].
      cbn [props dict_get]. now rewrite str_eqb_refl.
  - intros Hnil. now apply collection_add_nonempty in Hnil.
Qed.

Lemma process_chunks_stores_inv file_id l : forall w w' o,
  process_chunks E file_id l w = (w', o) ->
  stores_inv (knowledge w) (db w) -> stores_inv (knowledge w') (db w').
Proof.
  induction l as [|[idx chunk] l IH]; intros w w' o; simpl.
  - now intros [= <- _].
  - embed_cases E chunk w a.
    + intros H Hok. eapply IH; [exact H|]. cbn. now apply stores_inv_step.
    + now intros [= <- _].
Qed.

Lemma process_file_stores_inv file_path w :
  stores_inv (knowledge w) (db w) ->
  stores_inv (knowledge (fst (process_file E file_path w)))
             (db (fst (process_file E file_path w))).
Proof.
  intros Hok. unfold process_file.
  destruct (extract E (lower (splitext_ext file_path)) file_path)
    as [[text|e]|]; [|exact Hok|exact Hok].
  destruct (chunk_text text default_chunk_size default_overlap)
    as [chunks|e]; [|exact Hok].
  destruct (process_chunks E (basename file_path) (enumerate chunks) w)
    as [wc o] eqn:Hc.
  pose proof (process_chunks_stores_inv _ _ _ _ _ Hc Hok). now destruct o.
Qed.

(** With the stores in such a state the handler of a deletion removes
    nothing: it raises, or both stores are empty. *)
Lemma on_deleted_stores ev w :
  stores_inv (knowledge w) (db w) ->
  knowledge (fst (on_deleted ev w)) = knowledge w
  /\ db (fst (on_deleted ev w)) = db w.
Proof.
  intros (_ & Hw & _ & _ & _ & Hnil). unfold on_deleted.
  destruct (is_directory ev); [now split|].
  rewrite (ids_to_remove_written _ _ Hw).
  destruct (knowledge w) eqn:Hk; [|now split].
  cbn [fst print knowledge db]. split; [reflexivity|].
  now rewrite (Hnil eq_refl).
Qed.

(** A store that raises in the middle of a handler leaves the invariant. *)
Lemma interrupted_stores_inv x w w' :
  interrupted E x w w' ->
  stores_inv (knowledge w) (db w) -> stores_inv (knowledge w') (db w').
Proof.
  intros Hcut Hinv.
  destruct Hcut as [x ev text chunks k c w w1 w2 emb point _ _ _ _ _ Hpre He
                   |ev w l _ Hl].
  - apply (process_chunks_stores_inv _ _ _ _ _ Hpre) in Hinv.
    destruct (embed_text_shape E c w1) as (n & r & _ & Hs).
    rewrite He in Hs. injection Hs as -> _.
    change (knowledge (resent c n w1)) with (knowledge w1) in *.
    change (db (resent c n w1)) with (db w1) in *.
    set (cid := chunk_id_of (basename (src_path ev)) k).
    pose proof (stores_inv_add cid c emb _ _ Hinv) as Hadd.
    assert (Hne : collection_add cid c emb (knowledge w1) <> [])
      by apply collection_add_nonempty.
    destruct point; cbn [cut_writes knowledge db resent].
    + exact Hinv.
    + exact Hadd.
    + now apply stores_inv_merge_file.
    + apply stores_inv_merge_chunk; [apply collection_add_In|].
      now apply stores_inv_merge_file.
  - destruct Hinv as (H1 & Hw & H3 & H4 & H5 & H6).
    rewrite (ids_to_remove_written _ _ Hw) in Hl.
    destruct (knowledge w) eqn:Hk; [|discriminate].
    injection Hl as <-. cbn [knowledge db].
    split; [exact H1|]. split; [exact Hw|]. split; [exact H3|].
    split; [exact H4|]. split; [exact H5 | exact H6].
Qed.

Lemma stores_inv_init : stores_inv (@nil (record embedding)) init_graph.
Proof.
  repeat split; try constructor; try easy.
Qed.

(** Every world the handlers reach from empty stores has the invariant. *)
Lemma reachable_stores_inv w :
  reachable E w -> stores_inv (knowledge w) (db w).
Proof.
  induction 1 as [|x w _ IH|x w w' _ IH Hcut].
  - apply stores_inv_init.
  - destruct x as [ev|ev|ev]; cbn [dispatch].
    + unfold on_created. destruct (is_directory ev); [exact IH|].
      now apply process_file_stores_inv.
    + unfold on_modified. destruct (is_directory ev); [exact IH|].
      now apply process_file_stores_inv.
    + destruct (on_deleted_stores ev w IH) as [-> ->]. exact IH.
  - exact (interrupted_stores_inv x w w' Hcut IH).
Qed.

End StoresOk.

Lemma reachable_w_doc1 : reachable Examples.E_up Examples.w_doc1.
Proof.
  exact (reach_event Examples.E_up (Created (mkEvent false Examples.doc1))
           init_world (reach_init Examples.E_up)).
Qed.

(** A store that raises is part of the reachable worlds: when the graph
    store raises at the first statement for the chunk of [doc1.txt], the
    record is in the vector store and the graph store is empty. *)
Example reachable_after_graph_failure :
  let ev := mkEvent false Examples.doc1 in
  let c := lit "hello world" in
  let w2 := fst (embed_text Examples.E_up c Examples.w0) in
  let w := cut_writes (basename (src_path ev))
             (chunk_id_of (basename (src_path ev)) 0) c 0 AtMergeFile w2 in
  reachable Examples.E_up w
  /\ ids (knowledge w) = [lit "doc1.txt_chunk_0"]
  /\ nodes (db w) = [].
Proof.
  intros ev c w2 w. split; [|split; vm_compute; reflexivity].
  apply (reach_cut Examples.E_up (Created ev) Examples.w0 w
           (reach_init Examples.E_up)).
  apply (cut_ingest Examples.E_up (Created ev) ev c [c] 0 c Examples.w0
           Examples.w0 w2 0 AtMergeFile).
  - now left.
  - reflexivity.
  - vm_compute. reflexivity.
  - vm_compute. reflexivity.
  - reflexivity.
  - reflexivity.
  - vm_compute. reflexivity.
Qed.

(** X8: in every world the handlers reach from empty stores, the ids of the
    vector store are pairwise distinct, the nodes of the graph store have
    pairwise distinct identities, and every relationship joins two nodes
    that exist. *)
Theorem reachable_identities_unique {embedding : Type}
    (E : env embedding) (w : world embedding) :
  reachable E w ->
  NoDup (ids (knowledge w))
  /\ NoDup (List.map nid (nodes (db w)))
  /\ rels_closed (db w).
Proof.
  intros H.
  destruct (reachable_stores_inv E w H) as (H1 & _ & [H3 _] & H4 & _).
  auto.
Qed.

Lemma reachable_identities_unique_witness :
  NoDup (ids (knowledge Examples.w_doc1))
  /\ NoDup (List.map nid (nodes (db Examples.w_doc1)))
  /\ rels_closed (db Examples.w_doc1).
Proof.
  exact (reachable_identities_unique Examples.E_up Examples.w_doc1
           reachable_w_doc1).
Defined.

(** X9: in every world the handlers reach from empty stores, also when a
    store has raised in the middle of a handler, every [Chunk] node of the
    graph store carries the id of a record of the vector store: a chunk is
    merged into the graph only after the vector store has taken its id,
    and no event removes a record. *)
Theorem reachable_chunk_nodes_have_records {embedding : Type}
    (E : env embedding) (w : world embedding) :
  reachable E w ->
  forall n, In n (nodes (db w)) -> nlabel n = Chunk ->
    exists i, dict_get (lit "id") (props n) = Some i
              /\ In i (ids (knowledge w)).
Proof.
  intros H.
  destruct (reachable_stores_inv E w H) as (_ & _ & _ & _ & H5 & _).
  exact H5.
Qed.

Lemma reachable_chunk_nodes_have_records_witness :
  reachable Examples.E_up Examples.w_doc1
  /\ (forall n, In n (nodes (db Examples.w_doc1)) -> nlabel n = Chunk ->
        exists i, dict_get (lit "id") (props n) = Some i
                  /\ In i (ids (knowledge Examples.w_doc1))).
Proof.
  split; [exact reachable_w_doc1|].
  exact (reachable_chunk_nodes_have_records Examples.E_up Examples.w_doc1
           reachable_w_doc1).
Defined.

(** X10: in every world the handlers reach from empty stores, no event
    removes anything: a [Deleted] event leaves both stores exactly as they
    are, and every event leaves the records, nodes and relationships that
    were there. *)
Theorem no_event_removes {embedding : Type}
    (E : env embedding) (w : world embedding) x :
  reachable E w ->
  grows w (fst (dispatch E x w))
  /\ (forall ev, x = Deleted ev ->
        knowledge (fst (dispatch E x w)) = knowledge w
        /\ db (fst (dispatch E x w)) = db w).
Proof.
  intros H. pose proof (reachable_stores_inv E w H) as Hok. split.
  - destruct x as [ev|ev|ev]; cbn [dispatch].
    + unfold on_created. destruct (is_directory ev);
        [apply grows_refl | apply process_file_grows].
    + unfold on_modified. destruct (is_directory ev);
        [apply grows_refl | apply process_file_grows].
    + destruct (on_deleted_stores ev w Hok) as [Hk Hg].
      apply (grows_same_stores w w); [apply grows_refl | assumption ..].
  - intros ev ->. cbn [dispatch]. now apply on_deleted_stores.
Qed.

Lemma no_event_removes_witness :
  grows Examples.w_doc1
        (fst (dispatch Examples.E_up (Deleted (mkEvent false Examples.doc1))
                       Examples.w_doc1))
  /\ (forall ev, Deleted (mkEvent false Examples.doc1) = Deleted ev ->
        knowledge (fst (dispatch Examples.E_up
                                 (Deleted (mkEvent false Examples.doc1))
                                 Examples.w_doc1))
        = knowledge Examples.w_doc1
        /\ db (fst (dispatch Examples.E_up
                             (Deleted (mkEvent false Examples.doc1))
                             Examples.w_doc1))
           = db Examples.w_doc1).
Proof.
  exact (no_event_removes Examples.E_up Examples.w_doc1
           (Deleted (mkEvent false Examples.doc1)) reachable_w_doc1).
Defined.

(** ** The polling loop *)

Lemma set_of_In l x : In x (set_of l) <-> In x l.
Proof.
  induction l as [|y l IH]; simpl; [tauto|].
  rewrite filter_In, IH. split.
  - intros [H|[H _]]; auto.
  - intros [H|H]; [now left|].
    destruct (str_eqb x y) eqn:Exy.
    + apply str_eqb_eq in Exy. now left.
    + right. split; [assumption | reflexivity].
Qed.

Lemma insert_by_In rank x y l : In x (insert_by rank y l) <-> x = y \/ In x l.
Proof.
  induction l as [|z l IH]; simpl; [intuition|].
  destruct (rank y <=? rank z); simpl; [intuition|].
  rewrite IH. intuition.
Qed.

Lemma sort_by_In rank l x : In x (sort_by rank l) <-> In x l.
Proof.
  induction l as [|y l IH]; simpl; [tauto|].
  rewrite insert_by_In, IH. intuition.
Qed.

Section Polling.

Context {embedding : Type} (E : env embedding).
Implicit Types (w : world embedding) (p : list str).

(** Whatever the order of the iteration, it meets the names of the set and
    no other. *)
Lemma iteration_In s x : In x (iteration E s) <-> In x s.
Proof. apply sort_by_In. Qed.

(** Equal ranks give the order of the listing, other ranks another one. *)
Example iteration_orders :
  sort_by (fun _ => 0) [lit "b.txt"; lit "a.txt"; lit "c.txt"]
  = [lit "b.txt"; lit "a.txt"; lit "c.txt"]
  /\ sort_by (fun f => List.length (filter (N.eqb 97) f))
             [lit "b.txt"; lit "a.txt"; lit "c.txt"]
     = [lit "b.txt"; lit "c.txt"; lit "a.txt"].
Proof. split; reflexivity. Qed.

Lemma new_files_In entries p f :
  In f (filter (fun f => negb (mem f p))
               (set_of (List.map fst (filter snd entries))))
  <-> In (f, true) entries /\ ~ In f p.
Proof.
  rewrite filter_In, set_of_In, in_map_iff. split.
  - intros [[[g b] [Hg Hin]] Hm]. simpl in Hg. subst g.
    apply filter_In in Hin as [Hin Hb]. simpl in Hb. subst b.
    split; [assumption|]. intros Hp. apply mem_In in Hp.
    now rewrite Hp in Hm.
  - intros [Hin Hp]. split.
    + exists (f, true). split; [reflexivity|]. now apply filter_In.
    + now rewrite (mem_not_In _ _ Hp).
Qed.

(** A listing of names that are all marked is passed over. *)
Lemma tick_all_processed entries p w :
  (forall f, In (f, true) entries -> In f p) ->
  tick E entries p w = (p, w, Returned).
Proof.
  intros H. unfold tick.
  destruct (iteration E _) as [|f nf] eqn:Hnf; [reflexivity|].
  assert (Hf : In f (f :: nf)) by now left.
  rewrite <- Hnf in Hf. apply iteration_In, new_files_In in Hf as [Hin Hp].
  now apply H in Hin.
Qed.

Lemma process_new_raises nf f e : forall w,
  In f nf ->
  extract E (lower (splitext_ext (path_join KNOWLEDGE_BASE_DIR f)))
          (path_join KNOWLEDGE_BASE_DIR f) = Some (Raise e) ->
  exists w' e', process_new E nf w = (w', Raised e').
Proof.
  induction nf as [|g nf IH]; intros w; simpl; [easy|].
  intros [->|Hin] Hx.
  - unfold process_file. rewrite Hx. eauto.
  - destruct (process_file E (path_join KNOWLEDGE_BASE_DIR g) w)
      as [w1 [|e1]]; [now apply IH | eauto].
Qed.

End Polling.

(** X11: when a pass of the polling loop goes through, every regular file
    of the listing is marked as processed, and a later pass whose listing
    holds only marked names does nothing, whatever the files hold by
    then. *)
Theorem tick_marks_files {embedding : Type}
    (E : env embedding) entries p (w : world embedding) p' w' :
  tick E entries p w = (p', w', Returned) ->
  (forall f, In (f, true) entries -> In f p')
  /\ (forall entries2 (w2 : world embedding),
        (forall f, In (f, true) entries2 -> In f p') ->
        tick E entries2 p' w2 = (p', w2, Returned)).
Proof.
  intros H. split; [|intros; now apply tick_all_processed].
  intros f Hf. unfold tick in H.
  destruct (in_dec (list_eq_dec N.eq_dec) f p) as [Hp|Hp].
  - destruct (iteration E _) as [|g nf]; [now injection H as <- _|].
    destruct (process_new E (g :: nf) w) as [w1 [|e]]; [|discriminate].
    injection H as <- _. apply in_app_iff. now left.
  - assert (Hnew : In f (iteration E
                           (filter (fun f => negb (mem f p))
                              (set_of (List.map fst (filter snd entries))))))
      by now apply iteration_In, new_files_In.
    destruct (iteration E _) as [|g nf]; [destruct Hnew|].
    destruct (process_new E (g :: nf) w) as [w1 [|e]]; [|discriminate].
    injection H as <- _. apply in_app_iff. now right.
Qed.

Lemma tick_marks_files_witness :
  (forall f, In (f, true) [(lit "doc1.txt", true); (lit "sub", false)] ->
             In f [lit "doc1.txt"])
  /\ (forall entries2 (w2 : world nat),
        (forall f, In (f, true) entries2 -> In f [lit "doc1.txt"]) ->
        tick Examples.E_up entries2 [lit "doc1.txt"] w2
        = ([lit "doc1.txt"], w2, Returned)).
Proof.
  apply (tick_marks_files Examples.E_up
           [(lit "doc1.txt", true); (lit "sub", false)] [] Examples.w0
           [lit "doc1.txt"] Examples.w_doc1).
  vm_compute. reflexivity.
Defined.

(** X12: a file whose text extraction raises ends the polling loop in the
    first pass that lists it as new: the pass raises, no file of the pass
    is marked as processed, and the later listings are not looked at. *)
Theorem poll_ends_on_extraction_error {embedding : Type}
    (E : env embedding) entries rest p (w : world embedding) f e :
  In (f, true) entries ->
  ~ In f p ->
  extract E (lower (splitext_ext (path_join KNOWLEDGE_BASE_DIR f)))
          (path_join KNOWLEDGE_BASE_DIR f) = Some (Raise e) ->
  exists w' e', poll E (entries :: rest) p w = (p, w', Raised e').
Proof.
  intros Hin Hp Hx. cbn [poll]. unfold tick.
  assert (Hnew : In f (iteration E
                         (filter (fun f => negb (mem f p))
                            (set_of (List.map fst (filter snd entries))))))
    by now apply iteration_In, new_files_In.
  destruct (iteration E _) as [|g nf] eqn:Hnf; [destruct Hnew|].
  destruct (process_new_raises E (g :: nf) f e w Hnew Hx) as (w' & e' & Hr).
  rewrite Hr. eauto.
Qed.

Lemma poll_ends_on_extraction_error_witness :
  exists w' e',
    poll Examples.E_up
         [[(lit "cafe.txt", true); (lit "doc1.txt", true)];
          [(lit "doc1.txt", true)]]
         [] Examples.w0
    = ([], w', Raised e').
Proof.
  apply (poll_ends_on_extraction_error Examples.E_up
           [(lit "cafe.txt", true); (lit "doc1.txt", true)]
           [[(lit "doc1.txt", true)]] [] Examples.w0 (lit "cafe.txt")
           UnicodeDecodeError).
  - now left.
  - intros [].
  - vm_compute. reflexivity.
Defined.

(** ** Decoding and text mode *)

Ltac bool_to_prop :=
  repeat match goal with
         | H : (_ && _)%bool = true |- _ =>
             apply andb_true_iff in H; destruct H
         | H : negb _ = true |- _ => apply negb_true_iff in H
         | H : (_ && _)%bool = false |- _ =>
             apply andb_false_iff in H; destruct H
         | H : (_ <=? _)%N = true |- _ => apply N.leb_le in H
         | H : (_ <=? _)%N = false |- _ => apply N.leb_gt in H
         | H : (_ <? _)%N = true |- _ => apply N.ltb_lt in H
         | H : (_ <? _)%N = false |- _ => apply N.ltb_ge in H
         | H : (_ =? _)%N = true |- _ => apply N.eqb_eq in H
         | H : (_ =? _)%N = false |- _ => apply N.eqb_neq in H
         end.

Lemma option_map_cons_Some {A : Type} (x : A) o s :
  option_map (cons x) o = Some s -> exists t, o = Some t /\ s = x :: t.
Proof. destruct o as [t|]; simpl; [intros [= <-]; eauto | discriminate]. Qed.

Lemma utf8_decode_scalar_bounded n : forall bs s,
  List.length bs <= n -> utf8_decode bs = Some s ->
  Forall scalar_value s /\ List.length s <= List.length bs.
Proof.
  induction n as [|n IH]; intros bs s Hlen H.
  - destruct bs; [|simpl in Hlen; lia]. injection H as <-.
    split; [constructor | reflexivity].
  - destruct bs as [|b0 r0]; [injection H as <-; split; [constructor|auto]|].
    cbn [utf8_decode] in H. simpl in Hlen.
    destruct (b0 <? 128)%N eqn:E1.
    { apply option_map_cons_Some in H as (t & Ht & ->).
      apply IH in Ht as [Hf Hl]; [|lia]. bool_to_prop;
      (split; [constructor; [unfold scalar_value; lia | exact Hf]|simpl; lia]). }
    destruct ((194 <=? b0) && (b0 <=? 223))%N eqn:E2.
    { destruct r0 as [|b1 r1]; [discriminate|].
      destruct (is_cont b1) eqn:C1; [|discriminate]. unfold is_cont in C1.
      apply option_map_cons_Some in H as (t & Ht & ->).
      simpl in Hlen. apply IH in Ht as [Hf Hl]; [|lia]. bool_to_prop;
      (split; [constructor; [unfold scalar_value; lia | exact Hf]|simpl; lia]). }
    destruct ((224 <=? b0) && (b0 <=? 239))%N eqn:E3.
    { destruct r0 as [|b1 [|b2 r2]]; try discriminate.
      cbv zeta in H.
      destruct (is_cont b1 && is_cont b2
                && (2048 <=? (b0 - 224) * 4096 + (b1 - 128) * 64 + (b2 - 128))%N
                && negb ((55296 <=? (b0 - 224) * 4096 + (b1 - 128) * 64
                                    + (b2 - 128))
                         && ((b0 - 224) * 4096 + (b1 - 128) * 64 + (b2 - 128)
                             <=? 57343))%N) eqn:C; [|discriminate].
      apply option_map_cons_Some in H as (t & Ht & ->).
      simpl in Hlen. apply IH in Ht as [Hf Hl]; [|lia].
      unfold is_cont in C. bool_to_prop;
      (split; [constructor; [unfold scalar_value; lia | exact Hf]|simpl; lia]). }
    destruct ((240 <=? b0) && (b0 <=? 244))%N eqn:E4; [|discriminate].
    destruct r0 as [|b1 [|b2 [|b3 r3]]]; try discriminate.
    cbv zeta in H.
    destruct (is_cont b1 && is_cont b2 && is_cont b3
              && (65536 <=? (b0 - 240) * 262144 + (b1 - 128) * 4096
                            + (b2 - 128) * 64 + (b3 - 128))%N
              && ((b0 - 240) * 262144 + (b1 - 128) * 4096 + (b2 - 128) * 64
                  + (b3 - 128) <=? 1114111)%N) eqn:C; [|discriminate].
    apply option_map_cons_Some in H as (t & Ht & ->).
    simpl in Hlen. apply IH in Ht as [Hf Hl]; [|lia].
    unfold is_cont in C. bool_to_prop;
    (split; [constructor; [unfold scalar_value; lia | exact Hf]|simpl; lia]).
Qed.

(** What the strict UTF-8 decoder accepts is a sequence of Unicode scalar
    values, with at most one code point per byte. *)
Lemma utf8_decode_scalar_values bs s :
  decode utf_8 bs = Some s ->
  Forall scalar_value s /\ List.length s <= List.length bs.
Proof.
  unfold decode. intros H.
  apply (utf8_decode_scalar_bounded _ _ _ (le_n _)) in H.
  now rewrite length_map in H.
Qed.

Lemma universal_newlines_no_cr_bounded n : forall s,
  List.length s <= n -> ~ In 13%N (universal_newlines s).
Proof.
  induction n as [|n IH]; intros s Hlen.
  - destruct s; [intros [] | simpl in Hlen; lia].
  - destruct s as [|c r]; [intros []|]. simpl in Hlen.
    cbn [universal_newlines]. destruct (N.eqb_spec c 13) as [->|Hc].
    + destruct r as [|c' r'].
      * intros [H|[]]. discriminate.
      * simpl in Hlen. destruct (c' =? 10)%N.
        -- intros [H|H]; [discriminate|]. apply (IH r'); [lia | exact H].
        -- intros [H|H]; [discriminate|].
           apply (IH (c' :: r')); [simpl; lia | exact H].
    + intros [H|H]; [congruence|]. apply (IH r); [lia | exact H].
Qed.

Lemma universal_newlines_keeps (Q : char -> Prop) n : forall s,
  List.length s <= n -> Q 10%N -> Forall Q s ->
  Forall Q (universal_newlines s)
  /\ List.length (universal_newlines s) <= List.length s.
Proof.
  induction n as [|n IH]; intros s Hlen H10 Hs.
  - destruct s; [split; [constructor|reflexivity] | simpl in Hlen; lia].
  - destruct s as [|c r]; [split; [constructor|reflexivity]|].
    simpl in Hlen. inversion Hs as [|? ? Hc Hr]; subst.
    cbn [universal_newlines]. destruct (N.eqb c 13).
    + destruct r as [|c' r'].
      * split; [repeat constructor; assumption | reflexivity].
      * simpl in Hlen. inversion Hr as [|? ? Hc' Hr']; subst.
        destruct (N.eqb c' 10).
        -- destruct (IH r' ltac:(lia) H10 Hr') as [Hf Hl].
           split; [now constructor | simpl; lia].
        -- destruct (IH (c' :: r') ltac:(simpl; lia) H10 Hr) as [Hf Hl].
           split; [now constructor | simpl in *; lia].
    + destruct (IH r ltac:(lia) H10 Hr) as [Hf Hl].
      split; [now constructor | simpl; lia].
Qed.

(** X13: the text [extract_text_from_txt] returns for a file is a sequence
    of Unicode scalar values (no surrogate, nothing above U+10FFFF) without
    a carriage return, and has at most one character per byte of the
    file. *)
Theorem extracted_text_wellformed fs txt_path text :
  extract_text_from_txt fs txt_path = Ok text ->
  exists bs,
    fs txt_path = Some bs
    /\ Forall scalar_value text
    /\ ~ In 13%N text
    /\ List.length text <= List.length bs.
Proof.
  unfold extract_text_from_txt, open_read.
  destruct (fs txt_path) as [bs|]; [|discriminate].
  destruct (decode utf_8 bs) as [s|] eqn:Hd; [|discriminate].
  intros [= <-]. exists bs. split; [reflexivity|].
  apply utf8_decode_scalar_values in Hd as [Hs Hl].
  assert (H10 : scalar_value 10%N) by (unfold scalar_value; lia).
  destruct (universal_newlines_keeps scalar_value _ s (le_n _) H10 Hs)
    as [Hf Hl'].
  split; [exact Hf|]. split; [|lia].
  apply (universal_newlines_no_cr_bounded _ _ (le_n _)).
Qed.

Lemma extracted_text_wellformed_witness :
  exists bs,
    Examples.fs Examples.blank = Some bs
    /\ Forall scalar_value [32; 9; 10; 32]%N
    /\ ~ In 13%N [32; 9; 10; 32]%N
    /\ List.length [32; 9; 10; 32]%N <= List.length bs.
Proof.
  apply (extracted_text_wellformed Examples.fs Examples.blank).
  vm_compute. reflexivity.
Defined.

Lemma read_text_file_eq fs file_path :
  FileProcessor._read_text_file fs file_path
  = match fs file_path with
    | None => Raise FileNotFoundError
    | Some bs =>
        Ok (FileProcessor.content_header
            ++ universal_newlines
                 match decode utf_8 bs with
                 | Some s => s
                 | None => List.map Byte.to_N bs
                 end)
    end.
Proof.
  unfold FileProcessor._read_text_file, FileProcessor.encodings.
  cbn [FileProcessor.try_encodings]. unfold open_read.
  destruct (fs file_path) as [bs|]; [|reflexivity].
  destruct (decode utf_8 bs); reflexivity.
Qed.

(** X14: [FileProcessor._read_text_file] on a missing file raises
    [FileNotFoundError]; on a file that exists it returns the header
    followed by the file's bytes read as UTF-8 or, when they are not UTF-8,
    as Latin-1.  The third encoding is never tried and the
    could-not-decode text is never returned. *)
Theorem read_text_file_result fs file_path :
  FileProcessor._read_text_file fs file_path
  = match fs file_path with
    | None => Raise FileNotFoundError
    | Some bs =>
        Ok (FileProcessor.content_header
            ++ universal_newlines
                 match decode utf_8 bs with
                 | Some s => s
                 | None => List.map Byte.to_N bs
                 end)
    end
  /\ FileProcessor._read_text_file fs file_path
     <> Ok FileProcessor.undecodable.
Proof.
  split; [apply read_text_file_eq|]. rewrite read_text_file_eq.
  destruct (fs file_path); discriminate.
Qed.

(** X15: the two readers of text files agree on every file that
    [extract_text_from_txt] can read: [_read_text_file] returns the same
    text behind its header. *)
Theorem readers_agree_on_utf8 fs path text :
  extract_text_from_txt fs path = Ok text ->
  FileProcessor._read_text_file fs path
  = Ok (FileProcessor.content_header ++ text).
Proof.
  unfold extract_text_from_txt, FileProcessor._read_text_file,
    FileProcessor.encodings.
  cbn [FileProcessor.try_encodings]. now intros ->.
Qed.

Lemma readers_agree_on_utf8_witness :
  FileProcessor._read_text_file Examples.fs Examples.doc1
  = Ok (FileProcessor.content_header ++ lit "hello world").
Proof.
  apply (readers_agree_on_utf8 Examples.fs Examples.doc1 (lit "hello world")).
  vm_compute. reflexivity.
Defined.

(** ** Paths and file names *)

Lemma rfind_from_absent c s : forall i, ~ In c s -> rfind_from c s i = (-1)%Z.
Proof.
  induction s as [|x r IH]; intros i H; simpl; [reflexivity|].
  rewrite IH by (intros Hr; apply H; now right). simpl.
  destruct (N.eqb_spec x c) as [->|]; [exfalso; apply H; now left|reflexivity].
Qed.

Lemma rfind_from_last c a b : forall i,
  (0 <= i)%Z -> ~ In c b ->
  rfind_from c (a ++ c :: b) i = (i + len a)%Z.
Proof.
  induction a as [|x a IH]; intros i Hi Hb; simpl.
  - rewrite (rfind_from_absent c b _ Hb). simpl. rewrite N.eqb_refl.
    unfold len. simpl. lia.
  - rewrite IH by (lia || assumption). unfold len. simpl List.length.
    destruct (Z.leb_spec 0 (i + 1 + Z.of_nat (List.length a))); lia.
Qed.

Lemma rfind_cases c s :
  (~ In c s /\ rfind c s = (-1)%Z)
  \/ (exists a b, s = a ++ c :: b /\ ~ In c b /\ rfind c s = len a).
Proof.
  destruct (in_dec N.eq_dec c s) as [Hin|Hn].
  - right. induction s as [|x r IH]; [destruct Hin|].
    destruct (in_dec N.eq_dec c r) as [Hr|Hr].
    + destruct (IH Hr) as (a & b & -> & Hb & _). exists (x :: a), b.
      repeat split; auto.
      exact (rfind_from_last c (x :: a) b 0 ltac:(lia) Hb).
    + destruct Hin as [->|Hin]; [|contradiction]. exists [], r.
      repeat split; auto.
      exact (rfind_from_last c [] r 0 ltac:(lia) Hr).
  - left. split; [assumption | now apply rfind_from_absent].
Qed.

Lemma py_slice_range {A : Type} (l : list A) lo hi :
  lo <= hi <= List.length l ->
  py_slice l (Z.of_nat lo) (Z.of_nat hi) = firstn (hi - lo) (skipn lo l).
Proof.
  intros H. unfold py_slice, slice_index.
  destruct (Z.ltb_spec (Z.of_nat lo) 0); [lia|].
  destruct (Z.ltb_spec (Z.of_nat hi) 0); [lia|].
  rewrite !Z.min_l by lia. rewrite Nat2Z.id. f_equal. lia.
Qed.

Lemma py_slice_prefix {A : Type} (l : list A) k :
  k <= List.length l -> py_slice l 0 (Z.of_nat k) = firstn k l.
Proof.
  intros H. change (py_slice l (Z.of_nat 0) (Z.of_nat k) = firstn k l).
  rewrite py_slice_range by lia. simpl. f_equal. lia.
Qed.

Lemma py_slice_suffix {A : Type} (l : list A) k :
  k <= List.length l ->
  py_slice l (Z.of_nat k) (Z.of_nat (List.length l)) = skipn k l.
Proof.
  intros H. rewrite py_slice_range by lia.
  apply firstn_all2. rewrite length_skipn. lia.
Qed.

Lemma py_slice_length_le {A : Type} (l : list A) k :
  List.length (py_slice l 0 (Z.of_nat k)) <= k.
Proof.
  unfold py_slice, slice_index.
  destruct (Z.ltb_spec 0 0); [lia|].
  destruct (Z.ltb_spec (Z.of_nat k) 0); [lia|].
  rewrite length_firstn. lia.
Qed.

Lemma skipn_app_exact {A : Type} (a b : list A) :
  skipn (List.length a) (a ++ b) = b.
Proof. induction a; simpl; auto. Qed.

Lemma firstn_app_exact {A : Type} (a b : list A) :
  firstn (List.length a) (a ++ b) = a.
Proof. induction a; simpl; [reflexivity | now f_equal]. Qed.

Lemma basename_after_slash a b :
  ~ In slash b -> basename (a ++ slash :: b) = b.
Proof.
  intros Hb. unfold basename, rfind.
  rewrite (rfind_from_last slash a b 0 ltac:(lia) Hb). unfold len.
  replace (0 + Z.of_nat (List.length a) + 1)%Z
    with (Z.of_nat (S (List.length a))) by lia.
  rewrite py_slice_suffix by (rewrite length_app; simpl; lia).
  change (a ++ slash :: b) with (a ++ [slash] ++ b).
  rewrite app_assoc.
  replace (S (List.length a)) with (List.length (a ++ [slash]))
    by (rewrite length_app; simpl; lia).
  apply skipn_app_exact.
Qed.

Lemma basename_no_slash b : ~ In slash b -> basename b = b.
Proof.
  intros Hb. unfold basename, rfind. rewrite (rfind_from_absent _ _ _ Hb).
  change (-1 + 1)%Z with (Z.of_nat 0). unfold len.
  now rewrite py_slice_suffix by lia.
Qed.

(** A name without a slash, joined to a directory, is the base name of the
    path. *)
Lemma basename_path_join a b : ~ In slash b -> basename (path_join a b) = b.
Proof.
  intros Hb. unfold path_join.
  destruct (startswith b [slash]) eqn:Es.
  { destruct b as [|c b']; [discriminate|]. cbn [startswith] in Es.
    apply andb_true_iff in Es as [Es _]. apply N.eqb_eq in Es.
    exfalso. apply Hb. now left. }
  destruct (negb (truthy a) || endswith_sep a) eqn:Ea.
  - destruct a as [|x a']; [now apply basename_no_slash|].
    simpl in Ea. unfold endswith_sep in Ea.
    destruct (rev (x :: a')) as [|y r] eqn:Er; [discriminate|].
    apply N.eqb_eq in Ea. subst y.
    apply (f_equal (@rev char)) in Er. rewrite rev_involutive in Er.
    simpl in Er. rewrite Er, <- app_assoc.
    now apply basename_after_slash.
  - now apply basename_after_slash.
Qed.

(** *** Decimal digits *)

Lemma string_of_uint_digits d :
  Forall is_digit (lit (NilEmpty.string_of_uint d)).
Proof.
  induction d; simpl; constructor; try assumption;
    unfold is_digit; vm_compute; split; discriminate.
Qed.

Lemma str_of_nat_digits n : Forall is_digit (str_of_nat n).
Proof. apply string_of_uint_digits. Qed.

Lemma pad2_digits n : Forall is_digit (pad2 n).
Proof.
  unfold pad2. destruct (n <? 10); [|apply str_of_nat_digits].
  apply Forall_app. split; [|apply str_of_nat_digits].
  change (lit "0") with [48%N].
  constructor; [unfold is_digit; lia | constructor].
Qed.

Lemma strftime_stamp_chars d :
  Forall (fun c => is_digit c \/ c = 95%N) (strftime_stamp d).
Proof.
  unfold strftime_stamp.
  repeat (apply Forall_app; split);
    try (eapply Forall_impl; [|first [apply str_of_nat_digits
                                     | apply pad2_digits]];
         intros c Hc; now left).
  change (lit "_") with [95%N]. constructor; [now right | constructor].
Qed.

(** *** [splitext] and the safe file name *)

Lemma rfind_lower_bound c s : (-1 <= rfind c s)%Z.
Proof.
  destruct (rfind_cases c s) as [[_ ->]|(a & b & _ & _ & ->)];
    unfold len; lia.
Qed.

Lemma In_skipn {A : Type} (x : A) n l : In x (skipn n l) -> In x l.
Proof.
  intros H. rewrite <- (firstn_skipn n l). apply in_app_iff. now right.
Qed.

(** [splitext] leaves the path whole, or cuts it at a dot that is followed
    by neither a dot nor a slash. *)
Lemma splitext_cases p :
  splitext p = (p, [])
  \/ (exists a e, p = a ++ dot :: e /\ ~ In dot e /\ ~ In slash e
                  /\ splitext p = (a, dot :: e)).
Proof.
  unfold splitext.
  destruct (rfind_cases dot p) as [[_ Hr]|(a & e & Hp & He & Hr)]; rewrite Hr.
  - left. pose proof (rfind_lower_bound slash p).
    now destruct (Z.ltb_spec (rfind slash p) (-1)); [lia|].
  - destruct (Z.ltb_spec (rfind slash p) (len a)) as [Hlt|]; [|now left].
    destruct (existsb _ _); [|now left].
    right. exists a, e. split; [exact Hp|]. split; [exact He|].
    assert (Hla : List.length a <= List.length p).
    { rewrite Hp, length_app. lia. }
    split.
    + destruct (rfind_cases slash p) as [[Hn _]|(a2 & b2 & Hp2 & Hb2 & Hr2)].
      * intros Hs. apply Hn. rewrite Hp. apply in_app_iff. right. now right.
      * rewrite Hr2 in Hlt. unfold len in Hlt. intros Hs. apply Hb2.
        assert (Hb : b2 = skipn (S (List.length a2)) p).
        { rewrite Hp2. change (a2 ++ slash :: b2) with (a2 ++ [slash] ++ b2).
          rewrite app_assoc.
          replace (S (List.length a2)) with (List.length (a2 ++ [slash]))
            by (rewrite length_app; simpl; lia).
          now rewrite skipn_app_exact. }
        assert (Hee : e = skipn (S (List.length a)) p).
        { rewrite Hp at 1. change (a ++ dot :: e) with (a ++ [dot] ++ e).
          rewrite app_assoc.
          replace (S (List.length a)) with (List.length (a ++ [dot]))
            by (rewrite length_app; simpl; lia).
          now rewrite skipn_app_exact. }
        rewrite Hb. rewrite Hee in Hs.
        replace (S (List.length a))
          with ((List.length a - List.length a2) + S (List.length a2))
          in Hs by lia.
        rewrite <- skipn_skipn in Hs. now apply In_skipn in Hs.
    + unfold len. rewrite py_slice_prefix, py_slice_suffix by assumption.
      rewrite Hp at 1 2. now rewrite firstn_app_exact, skipn_app_exact.
Qed.

Lemma lstrip_In c s : In c (lstrip s) -> In c s.
Proof.
  induction s as [|x s IH]; simpl; [auto|].
  destruct (isspace x); [intros H; right; now apply IH | auto].
Qed.

Lemma rstrip_In c s : In c (rstrip s) -> In c s.
Proof.
  unfold rstrip. intros H. apply in_rev in H. apply lstrip_In in H.
  now apply in_rev.
Qed.

Section SafeName.

Variable P : platform.
Hypothesis Halnum : isalnum_on_ascii P.

Lemma keeps_not_sep c : FP.keeps P c = true -> c <> slash /\ c <> dot.
Proof.
  intros H. split; intros ->; unfold FP.keeps in H;
    rewrite Halnum in H by reflexivity; discriminate.
Qed.

Lemma safe_name_chars name c :
  In c (rstrip (filter (FP.keeps P) name)) -> c <> slash /\ c <> dot.
Proof.
  intros H. apply rstrip_In, filter_In in H as [_ H].
  now apply keeps_not_sep.
Qed.

(** The part of the safe file name before the extension has neither a
    slash nor a dot, and holds the underscore after the stamp. *)
Lemma safe_stem_chars name c :
  In c (strftime_stamp (now P) ++ lit "_"
        ++ rstrip (filter (FP.keeps P) name)) ->
  c <> slash /\ c <> dot.
Proof.
  rewrite !in_app_iff. intros [H|[H|H]].
  - pose proof (strftime_stamp_chars (now P)) as Hf.
    rewrite Forall_forall in Hf. destruct (Hf c H) as [[? ?]| ->].
    + unfold slash, dot. split; intros ->; lia.
    + split; discriminate.
  - destruct H as [<-|[]]. split; discriminate.
  - now apply safe_name_chars in H.
Qed.

Lemma safe_filename_splitext name :
  splitext (FP._generate_safe_filename P name)
  = (strftime_stamp (now P) ++ lit "_"
     ++ rstrip (filter (FP.keeps P) (fst (splitext name))),
     snd (splitext name)).
Proof.
  unfold FP._generate_safe_filename.
  destruct (splitext_cases name) as [Hs|(a & e & _ & He & Hes & Hs)];
    rewrite Hs; cbn [fst snd].
  - rewrite app_nil_r.
    set (stem := strftime_stamp (now P) ++ lit "_"
                 ++ rstrip (filter (FP.keeps P) name)).
    replace (strftime_stamp (now P)
             ++ lit "_" ++ rstrip (filter (FP.keeps P) name) ++ [])
      with stem by (subst stem; now rewrite app_nil_r).
    unfold splitext.
    rewrite (rfind_from_absent dot stem 0
               (fun H => proj2 (safe_stem_chars name dot H) eq_refl)
             : rfind dot stem = (-1)%Z).
    pose proof (rfind_lower_bound slash stem).
    now destruct (Z.ltb_spec (rfind slash stem) (-1)); [lia|].
  - set (stem := strftime_stamp (now P) ++ lit "_"
                 ++ rstrip (filter (FP.keeps P) a)).
    replace (strftime_stamp (now P)
             ++ lit "_" ++ rstrip (filter (FP.keeps P) a) ++ dot :: e)
      with (stem ++ dot :: e) by (subst stem; now rewrite <- !app_assoc).
    assert (Hstem : forall c, In c stem -> c <> slash /\ c <> dot)
      by (intros c; apply safe_stem_chars).
    unfold splitext.
    rewrite (rfind_from_last dot stem e 0 ltac:(lia) He
             : rfind dot (stem ++ dot :: e) = (0 + len stem)%Z).
    assert (Hsl : rfind slash (stem ++ dot :: e) = (-1)%Z).
    { apply rfind_from_absent. rewrite in_app_iff.
      intros [H|[H|H]]; [now apply Hstem in H | discriminate | auto]. }
    rewrite Hsl. simpl Z.add.
    destruct (Z.ltb_spec (-1) (len stem)) as [_|Hl]; [|unfold len in Hl; lia].
    unfold len. rewrite length_app.
    assert (Hpre : py_slice (stem ++ dot :: e) 0
                            (Z.of_nat (List.length stem)) = stem).
    { rewrite py_slice_prefix by (rewrite length_app; lia).
      apply firstn_app_exact. }
    rewrite Hpre.
    assert (Hex : existsb (fun x => negb (N.eqb x dot)) stem = true).
    { apply existsb_exists. exists 95%N. split; [|reflexivity].
      subst stem. rewrite !in_app_iff. right. left. now left. }
    rewrite Hex. f_equal.
    rewrite <- length_app, py_slice_suffix by (rewrite length_app; lia).
    apply skipn_app_exact.
Qed.

Lemma safe_filename_no_slash name :
  ~ In slash (FP._generate_safe_filename P name).
Proof.
  unfold FP._generate_safe_filename.
  destruct (splitext_cases name) as [Hs|(a & e & _ & He & Hes & Hs)];
    rewrite Hs; rewrite !app_assoc, in_app_iff, <- !app_assoc.
  - intros [H|[]]. now apply safe_stem_chars in H.
  - intros [H|[H|H]]; [now apply safe_stem_chars in H | discriminate | auto].
Qed.

End SafeName.

Lemma example_platform_isalnum : isalnum_on_ascii example_platform.
Proof.
  intros c Hc. cbn [isalnum example_platform].
  now rewrite (proj2 (N.ltb_lt c 128) Hc).
Qed.

(** *** Writing the upload *)

Lemma fs_write_frame P path content fs p :
  p <> path -> fst (fs_write P path content fs) p = fs p.
Proof.
  intros Hp. unfold fs_write.
  destruct (path_error path); [reflexivity|].
  destruct (open_error P path); [reflexivity|].
  destruct (write_error P path) as [[e k]|]; cbn [fst];
    now rewrite (str_eqb_neq _ _ Hp).
Qed.

Lemma fs_write_done P path content fs :
  snd (fs_write P path content fs) = None ->
  fst (fs_write P path content fs) path = Some content.
Proof.
  unfold fs_write.
  destruct (path_error path); [discriminate|].
  destruct (open_error P path); [discriminate|].
  destruct (write_error P path) as [[e k]|]; [discriminate|].
  intros _. cbn [fst]. now rewrite str_eqb_refl.
Qed.

Lemma fs_write_failed P path content fs e :
  snd (fs_write P path content fs) = Some e ->
  fst (fs_write P path content fs) path = fs path
  \/ exists k, fst (fs_write P path content fs) path
               = Some (firstn k content).
Proof.
  unfold fs_write.
  destruct (path_error path); [now left|].
  destruct (open_error P path); [now left|].
  destruct (write_error P path) as [[e' k]|]; [|discriminate].
  intros _. right. exists k. cbn [fst]. now rewrite str_eqb_refl.
Qed.

Lemma fs_write_succeeds P path content fs :
  path_error path = None -> open_error P path = None ->
  write_error P path = None ->
  snd (fs_write P path content fs) = None.
Proof. intros H1 H2 H3. unfold fs_write. now rewrite H1, H2, H3. Qed.

Lemma save_uploaded_file_fs P upload_dir content name fs :
  fst (FP.save_uploaded_file P upload_dir content name fs)
  = fst (fs_write P (path_join upload_dir (FP._generate_safe_filename P name))
                  content fs).
Proof.
  unfold FP.save_uploaded_file.
  now destruct (fs_write P _ content fs) as [fs1 [e|]].
Qed.

Lemma save_uploaded_file_result P upload_dir content name fs :
  snd (FP.save_uploaded_file P upload_dir content name fs)
  = match snd (fs_write P (path_join upload_dir
                             (FP._generate_safe_filename P name))
                        content fs) with
    | Some e => Raise e
    | None =>
        Ok (FP.mkFileInfo (FP._generate_safe_filename P name) name
              (path_join upload_dir (FP._generate_safe_filename P name))
              (List.length content) (guess_type P name)
              (lower (path_suffix name)))
    end.
Proof.
  unfold FP.save_uploaded_file.
  now destruct (fs_write P _ content fs) as [fs1 [e|]].
Qed.

(** X16: an upload touches one path at most, whether it is saved or the
    writing raises: the path of the safe file name, which has no slash,
    directly in the upload directory.  When [save_uploaded_file] returns,
    the file information names that path and the path holds the uploaded
    bytes; when it raises, the path is as it was or holds a first part of
    the bytes. *)
Theorem saved_upload_path P upload_dir content name fs :
  isalnum_on_ascii P ->
  let safe := FP._generate_safe_filename P name in
  let path := path_join upload_dir safe in
  let saved := FP.save_uploaded_file P upload_dir content name fs in
  ~ In slash safe
  /\ basename path = safe
  /\ (forall p, p <> path -> fst saved p = fs p)
  /\ match snd saved with
     | Ok info =>
         FP.filename info = safe
         /\ FP.file_path info = path
         /\ FP.size info = List.length content
         /\ fst saved path = Some content
     | Raise e =>
         fst saved path = fs path
         \/ exists k, fst saved path = Some (firstn k content)
     end.
Proof.
  intros H safe path saved. subst saved.
  pose proof (safe_filename_no_slash P H name) as Hn.
  split; [exact Hn|]. split; [now apply basename_path_join|].
  rewrite save_uploaded_file_fs, save_uploaded_file_result.
  fold safe. fold path. split.
  - intros p Hp. now apply fs_write_frame.
  - destruct (snd (fs_write P path content fs)) as [e|] eqn:Hw.
    + exact (fs_write_failed P path content fs e Hw).
    + cbn [FP.filename FP.file_path FP.size].
      repeat split. exact (fs_write_done P path content fs Hw).
Qed.

Lemma saved_upload_path_witness :
  let safe := FP._generate_safe_filename example_platform
                (lit "../../etc/my notes.txt") in
  let path := path_join (lit "uploads") safe in
  let saved := FP.save_uploaded_file example_platform (lit "uploads")
                 [x68; x69] (lit "../../etc/my notes.txt") (fun _ => None) in
  ~ In slash safe
  /\ basename path = safe
  /\ (forall p, p <> path -> fst saved p = None)
  /\ match snd saved with
     | Ok info =>
         FP.filename info = safe
         /\ FP.file_path info = path
         /\ FP.size info = List.length [x68; x69]
         /\ fst saved path = Some [x68; x69]
     | Raise e =>
         fst saved path = None
         \/ exists k, fst saved path = Some (firstn k [x68; x69])
     end.
Proof.
  exact (saved_upload_path example_platform (lit "uploads") [x68; x69]
           (lit "../../etc/my notes.txt") (fun _ => None)
           example_platform_isalnum).
Defined.

(** The three ends of [save_uploaded_file] on examples: the upload is
    saved under the safe name; an extension with a null character, which
    the safe name keeps, makes [open] raise [ValueError]; and a stem of 300
    letters makes a name the file system refuses. *)
Example save_uploaded_file_ends :
  (let saved := FP.save_uploaded_file example_platform (lit "uploads")
                  [x68; x69] (lit "../../etc/my notes.txt") (fun _ => None) in
   option_map (fun _ => tt) (fst saved (lit "uploads/20240307_090500_etcmy notes.txt"))
   = Some tt
   /\ match snd saved with
      | Ok info => FP.filename info = lit "20240307_090500_etcmy notes.txt"
      | Raise _ => False
      end)
  /\ FP.save_uploaded_file example_platform (lit "uploads") [x68; x69]
       (lit "a.t" ++ [0%N]) (fun _ => None)
     = (fun _ => None, Raise ValueError)
  /\ snd (FP.save_uploaded_file example_platform (lit "uploads") [x68; x69]
            long_name (fun _ => None))
     = Raise (OSError 36).
Proof.
  split; [split|split]; vm_compute; reflexivity.
Qed.

(** X17: the safe file name keeps the extension of the uploaded name:
    [os.path.splitext] of the safe name gives the stamp, an underscore and
    the kept characters of the stem, and the same extension. *)
Theorem safe_filename_keeps_extension P name :
  isalnum_on_ascii P ->
  splitext (FP._generate_safe_filename P name)
  = (strftime_stamp (now P) ++ lit "_"
     ++ rstrip (filter (FP.keeps P) (fst (splitext name))),
     snd (splitext name)).
Proof. intros H. now apply safe_filename_splitext. Qed.

Lemma safe_filename_keeps_extension_witness :
  splitext (FP._generate_safe_filename example_platform
                                       (lit "dir/my report (v2).TAR.gz"))
  = (lit "20240307_090500_dirmy report v2TAR", lit ".gz").
Proof.
  exact (safe_filename_keeps_extension example_platform
           (lit "dir/my report (v2).TAR.gz") example_platform_isalnum).
Defined.

(** ** Uploads *)

(** A name whose lower-cased form is made of Basic Latin characters is
    made of Basic Latin characters, on which [lower] is [str.lower]. *)
Lemma lower_char_ascii c : (lower_char c < 128)%N -> (c < 128)%N.
Proof.
  unfold lower_char.
  destruct (N.leb_spec 65 c), (N.leb_spec c 90); cbn [andb]; try lia;
    destruct (N.leb_spec 192 c), (N.leb_spec c 222); cbn [andb]; try lia;
    destruct (c =? 215)%N; cbn [negb]; lia.
Qed.

Lemma lower_ascii s :
  Forall (fun c => (c < 128)%N) (lower s) -> Forall (fun c => (c < 128)%N) s.
Proof.
  unfold lower. induction s as [|c s IH]; [constructor|].
  cbn [List.map]. intros H. inversion H as [|? ? Hc Hs]; subst.
  constructor; [now apply lower_char_ascii | now apply IH].
Qed.

Lemma supported_suffix_ascii name :
  FP.is_supported_file name = true ->
  Forall (fun c => (c < 128)%N) (path_suffix name).
Proof.
  unfold FP.is_supported_file. intros H. apply mem_In in H.
  apply lower_ascii. revert H. generalize (lower (path_suffix name)).
  intros x Hx.
  assert (Hall : Forall (Forall (fun c => (c < 128)%N))
                        FP.supported_extensions).
  { unfold FP.supported_extensions, FP.text_exts, FP.image_exts.
    cbn [app]. repeat (constructor; [vm_compute; repeat constructor|]).
    constructor. }
  rewrite Forall_forall in Hall. now apply Hall.
Qed.

(** X18: when an upload whose suffix is one of the text extensions has
    been saved and the saved file is opened for reading, what
    [process_file] returns for it is the header followed by the uploaded
    bytes, read as UTF-8 or, when they are not UTF-8, as Latin-1, with the
    line ends normalized. *)
Theorem text_upload_is_read_back P upload_dir content name fs fs1 info :
  In (lower (path_suffix name)) FP.text_exts ->
  FP.save_uploaded_file P upload_dir content name fs = (fs1, Ok info) ->
  read_error P (FP.file_path info) = None ->
  FP.process_file P fs1 info
  = FileProcessor.content_header
    ++ universal_newlines
         match decode utf_8 content with
         | Some s => s
         | None => List.map Byte.to_N content
         end.
Proof.
  intros Hext Hsave Hread.
  pose proof (save_uploaded_file_fs P upload_dir content name fs) as Hfs.
  pose proof (save_uploaded_file_result P upload_dir content name fs) as Hr.
  rewrite Hsave in Hfs, Hr. cbn [fst snd] in Hfs, Hr.
  destruct (snd (fs_write P _ content fs)) as [e|] eqn:Hw; [discriminate|].
  injection Hr as ->.
  unfold FP.process_file, FP.dispatch_file.
  cbn [FP.extension FP.file_path] in *.
  rewrite (proj2 (mem_In _ _) Hext), Hread, read_text_file_eq.
  rewrite Hfs, (fs_write_done P _ content fs Hw). reflexivity.
Qed.

Lemma text_upload_is_read_back_witness :
  let saved := FP.save_uploaded_file example_platform (lit "uploads")
                 [x68; xe9; x0d; x0a] (lit "Notes.TXT") (fun _ => None) in
  match snd saved with
  | Ok info =>
      FP.process_file example_platform (fst saved) info
      = FileProcessor.content_header ++ [104; 233; 10]%N
  | Raise _ => False
  end.
Proof.
  intros saved.
  set (info := FP.mkFileInfo (lit "20240307_090500_Notes.TXT")
                 (lit "Notes.TXT") (lit "uploads/20240307_090500_Notes.TXT")
                 4 None (lit ".txt")).
  assert (Hsnd : snd saved = Ok info) by (vm_compute; reflexivity).
  rewrite Hsnd.
  apply (text_upload_is_read_back example_platform (lit "uploads")
           [x68; xe9; x0d; x0a] (lit "Notes.TXT") (fun _ => None)
           (fst saved) info).
  - vm_compute. tauto.
  - rewrite <- Hsnd. apply surjective_pairing.
  - reflexivity.
Defined.

Lemma preview_length text : List.length (Main.preview text) <= 503.
Proof.
  unfold Main.preview. rewrite length_app.
  pose proof (py_slice_length_le text 500) as H.
  change (Z.of_nat 500) with 500%Z in H.
  destruct (500 <? len text)%Z; simpl; lia.
Qed.

(** X19: an upload of at most 10 MiB with a supported suffix is answered
    with a response, never with an HTTP error, and touches no path of the
    upload directory but that of the safe file name.  The response reports
    success exactly when the file was saved and the session, if one is
    given, was written: then the file id is the safe file name, which has
    no slash, the uploaded bytes are at that name in the upload directory,
    and the preview has at most 503 characters.  Otherwise an exception
    [e] of the saving or of the session has been caught: the response
    carries the uploaded name, an empty file id, an empty preview and
    [str(e)].  With no session and a platform that does not fail on the
    path, the response reports success. *)
Theorem upload_accepted P content name session fs chats :
  isalnum_on_ascii P ->
  (Z.of_nat (List.length content) <= Main.max_upload)%Z ->
  FP.is_supported_file name = true ->
  let safe := FP._generate_safe_filename P name in
  let path := path_join Main.upload_dir safe in
  let saved := FP.save_uploaded_file P Main.upload_dir content name fs in
  exists fs' chats' r,
    Main.upload_file P content name session fs chats
    = (fs', chats', Main.Response r)
    /\ ~ In slash safe
    /\ (forall p, p <> path -> fs' p = fs p)
    /\ (Main.success r = true ->
        r = Main.mkFileUploadResponse true safe safe (Main.content_preview r)
                                      None
        /\ fs' path = Some content
        /\ List.length (Main.content_preview r) <= 503
        /\ exists info,
             snd saved = Ok info
             /\ Main.content_preview r
                = Main.preview (FP.process_file P fs' info)
             /\ Main.record_upload P session name
                  (FP.process_file P fs' info) chats
                = (chats', Returned))
    /\ (Main.success r = false ->
        exists e,
          r = Main.mkFileUploadResponse false name [] []
                                        (Some (str_of_exn P e))
          /\ ((snd saved = Raise e /\ chats' = chats)
              \/ exists info,
                   snd saved = Ok info
                   /\ Main.record_upload P session name
                        (FP.process_file P fs' info) chats
                      = (chats', Raised e)))
    /\ (path_error path = None -> open_error P path = None ->
        write_error P path = None -> session = None ->
        Main.success r = true /\ chats' = chats).
Proof.
  intros Hal Hsize Hsup safe path saved. unfold Main.upload_file.
  destruct (Z.ltb_spec Main.max_upload (Z.of_nat (List.length content)));
    [lia|].
  rewrite Hsup. cbn [negb].
  pose proof (save_uploaded_file_fs P Main.upload_dir content name fs) as Hfs.
  pose proof (save_uploaded_file_result P Main.upload_dir content name fs)
    as Hr.
  fold safe in Hfs, Hr. fold path in Hfs, Hr. fold saved in Hfs, Hr.
  fold saved.
  destruct saved as [fs1 res] eqn:Hsaved. cbn [fst snd] in Hfs, Hr.
  assert (Hframe : forall p, p <> path -> fs1 p = fs p).
  { intros p Hp. rewrite Hfs. now apply fs_write_frame. }
  pose proof (safe_filename_no_slash P Hal name) as Hn. fold safe in Hn.
  destruct (snd (fs_write P path content fs)) as [e|] eqn:Hw; subst res.
  - exists fs1, chats, (Main.failed P name e).
    split; [reflexivity|]. split; [exact Hn|]. split; [exact Hframe|].
    split; [discriminate|]. split.
    + intros _. exists e. split; [reflexivity|]. left. now split.
    + intros H1 H2 H3 _.
      rewrite (fs_write_succeeds P path content fs H1 H2 H3) in Hw.
      discriminate.
  - set (info := FP.mkFileInfo safe name path (List.length content)
                               (guess_type P name)
                               (lower (path_suffix name))).
    destruct (Main.record_upload P session name
                (FP.process_file P fs1 info) chats) as [chats1 [|e]] eqn:Hrec.
    + exists fs1, chats1,
        (Main.mkFileUploadResponse true (FP.filename info) (FP.filename info)
           (Main.preview (FP.process_file P fs1 info)) None).
      split; [reflexivity|]. split; [exact Hn|]. split; [exact Hframe|].
      split; [|split; [discriminate|]].
      * intros _. split; [reflexivity|].
        split; [rewrite Hfs; exact (fs_write_done P path content fs Hw)|].
        split; [apply preview_length|].
        exists info. now repeat split.
      * intros _ _ _ ->. cbn in Hrec. injection Hrec as <-. now split.
    + exists fs1, chats1, (Main.failed P name e).
      split; [reflexivity|]. split; [exact Hn|]. split; [exact Hframe|].
      split; [discriminate|]. split.
      * intros _. exists e. split; [reflexivity|]. right.
        exists info. now split.
      * intros _ _ _ ->. cbn in Hrec. discriminate.
Qed.

Lemma upload_accepted_witness :
  let P := example_platform in
  let safe := FP._generate_safe_filename P (lit "a.txt") in
  let path := path_join Main.upload_dir safe in
  exists fs' chats' r,
    Main.upload_file P [x68; x69] (lit "a.txt") None
                     (fun _ => None) (fun _ => None)
    = (fs', chats', Main.Response r)
    /\ Main.success r = true
    /\ Main.file_id r = safe
    /\ fs' path = Some [x68; x69]
    /\ List.length (Main.content_preview r) <= 503.
Proof.
  intros P safe path.
  destruct (upload_accepted P [x68; x69] (lit "a.txt") None
              (fun _ => None) (fun _ => None) example_platform_isalnum)
    as (fs' & chats' & r & Hrun & _ & _ & Hyes & _ & Hplain).
  - vm_compute. discriminate.
  - vm_compute. reflexivity.
  - exists fs', chats', r. split; [exact Hrun|].
    destruct Hplain as [Hs _]; try reflexivity.
    destruct (Hyes Hs) as (Hr & Hfile & Hlen & _).
    split; [exact Hs|]. split; [now rewrite Hr|].
    split; [exact Hfile | exact Hlen].
Defined.

(** The three answers of [upload_file] on examples: success for a small
    text file; the answer of the [except] branch for a name the file
    system refuses; and the same answer when the file of the session was
    left cut by an earlier failure and cannot be read: the upload is saved
    all the same. *)
Example upload_file_answers :
  snd (Main.upload_file example_platform [x68; x69] (lit "a.txt") None
         (fun _ => None) (fun _ => None))
  = Main.Response
      (Main.mkFileUploadResponse true (lit "20240307_090500_a.txt")
         (lit "20240307_090500_a.txt")
         (FileProcessor.content_header ++ lit "hi") None)
  /\ Main.upload_file example_platform [x68; x69] long_name None
       (fun _ => None) (fun _ => None)
     = (fun _ => None, fun _ => None,
        Main.Response
          (Main.mkFileUploadResponse false long_name [] [] (Some (lit "error"))))
  /\ (let run := Main.upload_file example_platform [x68; x69]
                   (lit "a.txt") (Some (lit "s1")) (fun _ => None)
                   (ChatHistoryManager.put (lit "chat_sessions/s1.json")
                      (ChatHistoryManager.Garbled JSONDecodeError)
                      example_sessions) in
      snd run
      = Main.Response
          (Main.mkFileUploadResponse false (lit "a.txt") [] []
                                     (Some (lit "error")))
      /\ fst (fst run) (lit "uploads/20240307_090500_a.txt")
         = Some [x68; x69]
      /\ snd (fst run) (lit "chat_sessions/s1.json")
         = Some (ChatHistoryManager.Garbled JSONDecodeError)).
Proof.
  split; [|split; [|split; [|split]]]; vm_compute; reflexivity.
Qed.

(** ** Session titles *)

Lemma shorten_length text :
  List.length (ChatHistoryManager.shorten text) <= 63.
Proof.
  unfold ChatHistoryManager.shorten. rewrite length_app.
  pose proof (py_slice_length_le text 60) as H.
  change (Z.of_nat 60) with 60%Z in H.
  destruct (60 <? len text)%Z; simpl; lia.
Qed.

(** X20: the title [summarize_session] gives has at most 63 characters:
    it is "New Chat", or the first 60 characters of a message followed by
    "..." when the message is longer. *)
Theorem session_title_length ms :
  List.length (ChatHistoryManager.summarize_session ms) <= 63.
Proof.
  unfold ChatHistoryManager.summarize_session.
  assert (H : List.length (ChatHistoryManager.first_user_title ms) <= 63).
  { induction ms as [|m ms IH]; simpl; [lia|].
    destruct (_ && _); [apply shorten_length | exact IH]. }
  destruct ms; [simpl; lia | exact H].
Qed.

Lemma first_user_title_app ms more m :
  In m ms ->
  ChatHistoryManager.role m = lit "user" ->
  strip (ChatHistoryManager.content m) <> [] ->
  ChatHistoryManager.first_user_title (ms ++ more)
  = ChatHistoryManager.first_user_title ms.
Proof.
  intros Hin Hr Hs. induction ms as [|x ms IH]; [destruct Hin|].
  simpl. destruct (_ && _) eqn:E; [reflexivity|].
  destruct Hin as [->|Hin]; [|now apply IH].
  rewrite Hr, str_eqb_refl in E. simpl in E.
  destruct (strip (ChatHistoryManager.content m)); [contradiction|discriminate].
Qed.

Lemma put_same path f files :
  ChatHistoryManager.put path f files path = Some f.
Proof. unfold ChatHistoryManager.put. now rewrite str_eqb_refl. Qed.

Lemma put_other path f files p :
  p <> path -> ChatHistoryManager.put path f files p = files p.
Proof.
  intros Hp. unfold ChatHistoryManager.put. now rewrite (str_eqb_neq _ _ Hp).
Qed.

(** [save_session] touches the file of the session only: it leaves it
    with the document when it returns, and as it was or cut when it
    raises. *)
Lemma save_session_ends P dir id data files :
  let path := ChatHistoryManager.session_path dir id in
  let saved := ChatHistoryManager.save_session P dir id data files in
  (forall p, p <> path -> fst saved p = files p)
  /\ (snd saved = Returned ->
      fst saved path = Some (ChatHistoryManager.Valid data))
  /\ (forall e, snd saved = Raised e ->
      fst saved path = files path
      \/ exists e', fst saved path = Some (ChatHistoryManager.Garbled e'))
  /\ (path_error path = None -> open_error P path = None ->
      dump_error P path = None ->
      ChatHistoryManager.session_encodable data = true ->
      snd saved = Returned).
Proof.
  intros path saved. subst saved. unfold ChatHistoryManager.save_session.
  fold path.
  destruct (path_error path).
  { cbn [fst snd]. repeat split; try discriminate; auto. }
  destruct (open_error P path).
  { cbn [fst snd]. repeat split; try discriminate; auto. }
  destruct (dump_error P path) as [[e e']|].
  { cbn [fst snd]. split; [intros p Hp; now apply put_other|].
    split; [discriminate|]. split; [|discriminate].
    intros _ _. right. exists e'. apply put_same. }
  destruct (ChatHistoryManager.session_encodable data); cbn [fst snd].
  - split; [intros p Hp; now apply put_other|].
    split; [intros _; apply put_same|]. split; [discriminate|reflexivity].
  - split; [intros p Hp; now apply put_other|].
    split; [discriminate|]. split; [|discriminate].
    intros _ _. right. exists JSONDecodeError. apply put_same.
Qed.

(** X21: for a session that holds a user message with visible text,
    [add_message] touches the file of the session only.  When it returns,
    the file holds the session with the message appended and with the
    title, the id and the date it had.  When it raises, the file is as it
    was or is left cut, no JSON document any more.  It returns when the
    platform does not fail on the file and no string of the session with
    the new message holds a surrogate. *)
Theorem add_message_keeps_title P dir id role_in content_in files data m :
  ChatHistoryManager.load_session P dir id files = Ok (Some data) ->
  ChatHistoryManager.title data
  = ChatHistoryManager.summarize_session (ChatHistoryManager.messages data) ->
  In m (ChatHistoryManager.messages data) ->
  ChatHistoryManager.role m = lit "user" ->
  strip (ChatHistoryManager.content m) <> [] ->
  let path := ChatHistoryManager.session_path dir id in
  let data' :=
    ChatHistoryManager.mkSession
      (ChatHistoryManager.session_id data)
      (ChatHistoryManager.created_at data)
      (ChatHistoryManager.title data)
      (ChatHistoryManager.messages data
       ++ [ChatHistoryManager.mkMessage role_in content_in
                                        (now_isoformat P)]) in
  let after :=
    ChatHistoryManager.add_message P dir id role_in content_in files in
  (forall p, p <> path -> fst after p = files p)
  /\ (snd after = Returned ->
      fst after path = Some (ChatHistoryManager.Valid data'))
  /\ (forall e, snd after = Raised e ->
      fst after path = files path
      \/ exists e', fst after path = Some (ChatHistoryManager.Garbled e'))
  /\ (open_error P path = None -> dump_error P path = None ->
      ChatHistoryManager.session_encodable data' = true ->
      snd after = Returned).
Proof.
  intros Hload Ht Hin Hr Hs path data' after. subst after.
  unfold ChatHistoryManager.add_message. rewrite Hload.
  assert (Htitle :
    ChatHistoryManager.summarize_session
      (ChatHistoryManager.messages data
       ++ [ChatHistoryManager.mkMessage role_in content_in (now_isoformat P)])
    = ChatHistoryManager.title data).
  { rewrite Ht. unfold ChatHistoryManager.summarize_session.
    destruct (ChatHistoryManager.messages data) as [|x ms] eqn:Hm;
      [destruct Hin|].
    change ((x :: ms) ++ [ChatHistoryManager.mkMessage role_in content_in
                            (now_isoformat P)])
      with (x :: (ms ++ [ChatHistoryManager.mkMessage role_in content_in
                           (now_isoformat P)])).
    cbv iota.
    exact (first_user_title_app (x :: ms) _ m Hin Hr Hs). }
  rewrite Htitle. fold data'.
  assert (Hnul : path_error path = None).
  { unfold ChatHistoryManager.load_session in Hload. fold path in Hload.
    now destruct (path_error path). }
  destruct (save_session_ends P dir id data' files) as (H1 & H2 & H3 & H4).
  fold path in H1, H2, H3, H4.
  split; [exact H1|]. split; [exact H2|]. split; [exact H3|].
  intros Ho Hd He. now apply H4.
Qed.

Lemma add_message_keeps_title_witness :
  let after :=
    ChatHistoryManager.add_message example_platform (lit "chat_sessions")
      (lit "s1") (lit "assistant") (lit "hi") example_sessions in
  snd after = Returned
  /\ fst after (lit "chat_sessions/s1.json")
     = Some (ChatHistoryManager.Valid
               (ChatHistoryManager.mkSession
                  (lit "s1") (lit "2024-03-07T09:00:00") (lit "hello")
                  [ChatHistoryManager.mkMessage (lit "user") (lit "hello")
                     (lit "2024-03-07T09:00:01");
                   ChatHistoryManager.mkMessage (lit "assistant") (lit "hi")
                     (now_isoformat example_platform)])).
Proof.
  intros after.
  destruct (add_message_keeps_title example_platform (lit "chat_sessions")
              (lit "s1") (lit "assistant") (lit "hi") example_sessions
              (ChatHistoryManager.mkSession
                 (lit "s1") (lit "2024-03-07T09:00:00") (lit "hello")
                 [ChatHistoryManager.mkMessage (lit "user") (lit "hello")
                    (lit "2024-03-07T09:00:01")])
              (ChatHistoryManager.mkMessage (lit "user") (lit "hello")
                 (lit "2024-03-07T09:00:01")))
    as (_ & Hret & _ & Hruns).
  - vm_compute. reflexivity.
  - vm_compute. reflexivity.
  - now left.
  - reflexivity.
  - vm_compute. discriminate.
  - assert (Hs : snd after = Returned)
      by (apply Hruns; vm_compute; reflexivity).
    split; [exact Hs|]. exact (Hret Hs).
Defined.

(** A message with a lone surrogate is refused by the session file: the
    call raises [UnicodeEncodeError], the file is left cut, and the next
    reading of the session raises. *)
Example add_message_with_surrogate :
  let after :=
    ChatHistoryManager.add_message example_platform (lit "chat_sessions")
      (lit "s1") (lit "user") [55357%N] example_sessions in
  snd after = Raised UnicodeEncodeError
  /\ fst after (lit "chat_sessions/s1.json")
     = Some (ChatHistoryManager.Garbled JSONDecodeError)
  /\ ChatHistoryManager.load_session example_platform (lit "chat_sessions")
       (lit "s1") (fst after)
     = Raise JSONDecodeError.
Proof.
  intros after. split; [|split]; vm_compute; reflexivity.
Qed.

(** ** Deleting and rewriting in the graph store *)

Lemma rels_closed_detach_delete file_id g :
  rels_closed g -> rels_closed (detach_delete_file file_id g).
Proof.
  intros Hg a b Hab. cbn [detach_delete_file contains nodes] in *.
  apply filter_In in Hab as [Hab Halive]. cbn [fst snd] in Halive.
  apply andb_true_iff in Halive as [Ha Hb].
  destruct (Hg a b Hab) as [Hina Hinb].
  assert (keep : forall i,
            In i (List.map nid (nodes g)) ->
            negb (existsb (Nat.eqb i)
                    (List.map nid
                       (filter (matches File [(lit "id", file_id)])
                               (nodes g)))) = true ->
            In i (List.map nid
                    (filter (fun n => negb (matches File [(lit "id", file_id)]
                                                    n)) (nodes g)))).
  { intros i Hi Hal. apply in_map_iff in Hi as [n [<- Hn]].
    apply in_map, filter_In. split; [assumption|].
    destruct (matches File [(lit "id", file_id)] n) eqn:Mn; [|reflexivity].
    apply negb_true_iff in Hal.
    assert (Hex : existsb (Nat.eqb (nid n))
                    (List.map nid
                       (filter (matches File [(lit "id", file_id)])
                               (nodes g))) = true).
    { apply existsb_exists. exists (nid n). split; [|apply Nat.eqb_refl].
      apply in_map, filter_In. now split. }
    congruence. }
  split; now apply keep.
Qed.

Lemma rels_closed_init : rels_closed init_graph.
Proof. intros a b []. Qed.

Lemma matches_file_node file_id n :
  matches File [(lit "id", file_id)] n = true <-> file_node file_id n.
Proof.
  unfold matches, file_node. cbn [forallb fst snd].
  rewrite !andb_true_iff. split.
  - intros [Hl [Hd _]]. split.
    + now destruct (nlabel n).
    + destruct (dict_get (lit "id") (props n)) as [v|]; [|discriminate].
      apply str_eqb_eq in Hd. now subst.
  - intros [Hl Hd]. rewrite Hl, Hd, str_eqb_refl. auto.
Qed.

Lemma not_dead_iff file_id (g : graph) a :
  existsb (Nat.eqb a)
          (List.map nid (filter (matches File [(lit "id", file_id)])
                                (nodes g))) = false
  <-> forall f, In f (nodes g) -> file_node file_id f -> nid f <> a.
Proof.
  split.
  - intros Hex f Hf Mf Heq.
    assert (Ht : existsb (Nat.eqb a)
                   (List.map nid (filter (matches File [(lit "id", file_id)])
                                         (nodes g))) = true).
    { apply existsb_exists. exists (nid f).
      split; [|now apply Nat.eqb_eq].
      apply in_map, filter_In. split; [exact Hf|].
      now apply matches_file_node. }
    congruence.
  - intros H. destruct (existsb _ _) eqn:Hex; [|reflexivity].
    apply existsb_exists in Hex as [i [Hi Heq]]. apply Nat.eqb_eq in Heq.
    apply in_map_iff in Hi as [f [Hf Hin]].
    apply filter_In in Hin as [Hin Mf]. apply matches_file_node in Mf.
    exfalso. apply (H f Hin Mf). congruence.
Qed.

(** X22: on an empty vector store the handler of a deletion returns and
    leaves the vector store empty.  In the graph store the nodes it leaves
    are the nodes that were there except the [File] nodes with the id of
    the file, and the relationships it leaves are those that were there
    except the ones at such a [File] node: no other node and no other
    relationship goes, so every [Chunk] node stays, those of the deleted
    file without the relationship from it; and every relationship that is
    left joins two nodes that are left. *)
Theorem on_deleted_leaves_chunk_nodes {embedding : Type}
    ev (w : world embedding) :
  is_directory ev = false ->
  knowledge w = [] ->
  rels_closed (db w) ->
  let file_id := basename (src_path ev) in
  let w' := fst (on_deleted ev w) in
  snd (on_deleted ev w) = Returned
  /\ knowledge w' = []
  /\ (forall n, In n (nodes (db w'))
                <-> In n (nodes (db w)) /\ ~ file_node file_id n)
  /\ (forall a b, In (a, b) (contains (db w'))
                  <-> In (a, b) (contains (db w))
                      /\ forall f, In f (nodes (db w)) ->
                                   file_node file_id f ->
                                   nid f <> a /\ nid f <> b)
  /\ (forall n, In n (nodes (db w)) -> nlabel n = Chunk ->
                In n (nodes (db w')))
  /\ rels_closed (db w').
Proof.
  intros Hd Hk Hc file_id w'. subst w'. unfold on_deleted.
  rewrite Hd, Hk.
  cbn [get_metadatas List.map ids_to_remove fst snd print db knowledge].
  fold file_id. split; [reflexivity|]. split; [reflexivity|].
  split; [|split; [|split]].
  - intros n. cbn [detach_delete_file nodes]. rewrite filter_In.
    rewrite negb_true_iff, <- matches_file_node.
    split; intros [Hn Hm]; (split; [exact Hn|]).
    + congruence.
    + now destruct (matches File [(lit "id", file_id)] n).
  - intros a b. cbn [detach_delete_file contains]. rewrite filter_In.
    cbn [fst snd]. rewrite andb_true_iff, !negb_true_iff, !not_dead_iff.
    split.
    + intros [Hr [Ha Hb]]. split; [exact Hr|]. intros f Hf Mf.
      split; [now apply Ha | now apply Hb].
    + intros [Hr H]. split; [exact Hr|].
      split; intros f Hf Mf; now apply (H f Hf Mf).
  - intros n Hn Hl. apply detach_delete_keeps_node; [assumption|].
    now apply matches_file_chunk_label.
  - now apply rels_closed_detach_delete.
Qed.

Lemma stores_ok_w_a :
  stores_ok (knowledge Examples.w_a) (db Examples.w_a).
Proof.
  unfold Examples.w_a. do 3 apply process_file_ok. apply stores_ok_init.
Qed.

Lemma on_deleted_leaves_chunk_nodes_witness :
  let w := restart Examples.w_a in
  let ev := mkEvent false Examples.a_txt in
  let file_id := basename (src_path ev) in
  let w' := fst (on_deleted ev w) in
  snd (on_deleted ev w) = Returned
  /\ knowledge w' = []
  /\ (forall n, In n (nodes (db w'))
                <-> In n (nodes (db w)) /\ ~ file_node file_id n)
  /\ (forall a b, In (a, b) (contains (db w'))
                  <-> In (a, b) (contains (db w))
                      /\ forall f, In f (nodes (db w)) ->
                                   file_node file_id f ->
                                   nid f <> a /\ nid f <> b)
  /\ (forall n, In n (nodes (db w)) -> nlabel n = Chunk ->
                In n (nodes (db w')))
  /\ rels_closed (db w').
Proof.
  intros w ev.
  apply (on_deleted_leaves_chunk_nodes ev w eq_refl eq_refl).
  change (db w) with (db Examples.w_a).
  now destruct stores_ok_w_a as (_ & _ & _ & H & _).
Defined.

(** The same deletion node by node: after [a.txt], [a.txt.md] and [b.txt]
    were ingested and the monitor was started again, the deletion of
    [a.txt] takes the [File] node 0 and the relationship from it; the
    [Chunk] node 1 of [a.txt] stays without a relationship, and the nodes
    and the relationship of [a.txt.md] stay. *)
Example restarted_delete_of_a_txt :
  let w := restart Examples.w_a in
  let w' := fst (on_deleted (mkEvent false Examples.a_txt) w) in
  List.map (fun n => (nid n, nlabel n, dict_get (lit "id") (props n)))
           (nodes (db w))
  = [(0, File, Some (lit "a.txt")); (1, Chunk, Some (lit "a.txt_chunk_0"));
     (2, File, Some (lit "a.txt.md"));
     (3, Chunk, Some (lit "a.txt.md_chunk_0"));
     (4, File, Some (lit "b.txt")); (5, Chunk, Some (lit "b.txt_chunk_0"))]
  /\ contains (db w) = [(0, 1); (2, 3); (4, 5)]
  /\ List.map (fun n => (nid n, nlabel n, dict_get (lit "id") (props n)))
              (nodes (db w'))
     = [(1, Chunk, Some (lit "a.txt_chunk_0"));
        (2, File, Some (lit "a.txt.md"));
        (3, Chunk, Some (lit "a.txt.md_chunk_0"));
        (4, File, Some (lit "b.txt")); (5, Chunk, Some (lit "b.txt_chunk_0"))]
  /\ contains (db w') = [(2, 3); (4, 5)].
Proof.
  intros w w'. split; [|split; [|split]]; vm_compute; reflexivity.
Qed.

(** X23: when a chunk id is in the vector store and the text of the chunk
    has changed, the two writes of [process_file] for that chunk leave the
    record as it is and add a second [Chunk] node with the same id and the
    new text, contained in the [File] nodes of the file. *)
Theorem changed_chunk_is_duplicated {embedding : Type}
    file_id chunk_id text' (e : embedding) (w : world embedding) :
  In chunk_id (ids (knowledge w)) ->
  existsb (matches File [(lit "id", file_id)]) (nodes (db w)) = true ->
  existsb (matches Chunk [(lit "id", chunk_id); (lit "text", text')])
          (nodes (db w)) = false ->
  let w' := add_to_neo4j file_id chunk_id text'
              (add_to_chroma chunk_id text' e w) in
  knowledge w' = knowledge w
  /\ nodes (db w')
     = nodes (db w)
       ++ [mkNode (next_nid (db w)) Chunk
                  [(lit "id", chunk_id); (lit "text", text')]]
  /\ (forall f, In f (nodes (db w)) ->
                matches File [(lit "id", file_id)] f = true ->
                In (nid f, next_nid (db w)) (contains (db w'))).
Proof.
  intros Hid Hf Hc w'. subst w'.
  cbn [add_to_neo4j add_to_chroma knowledge db].
  split; [now apply collection_add_present|].
  assert (Hn : nodes (merge_file_chunk file_id chunk_id text' (db w))
               = nodes (db w)
                 ++ [mkNode (next_nid (db w)) Chunk
                            [(lit "id", chunk_id); (lit "text", text')]]).
  { unfold merge_file_chunk. rewrite (merge_node_present _ _ _ Hf).
    cbn [merge_contains nodes]. unfold merge_node. now rewrite Hc. }
  split; [exact Hn|].
  intros f Hin Mf.
  pose proof (merged_after (db w) file_id chunk_id text') as (_ & _ & Hrel).
  apply (Hrel f (mkNode (next_nid (db w)) Chunk
                        [(lit "id", chunk_id); (lit "text", text')])).
  - now apply merge_file_chunk_nodes_incl.
  - rewrite Hn. apply in_app_iff. right. now left.
  - exact Mf.
  - apply matches_chunk_id_new.
Qed.

Lemma changed_chunk_is_duplicated_witness :
  let w' := add_to_neo4j (lit "doc1.txt") (lit "doc1.txt_chunk_0")
              (lit "hello there")
              (add_to_chroma (lit "doc1.txt_chunk_0") (lit "hello there") 5
                             Examples.w_doc1) in
  knowledge w' = knowledge Examples.w_doc1
  /\ nodes (db w')
     = nodes (db Examples.w_doc1)
       ++ [mkNode (next_nid (db Examples.w_doc1)) Chunk
                  [(lit "id", lit "doc1.txt_chunk_0");
                   (lit "text", lit "hello there")]]
  /\ (forall f, In f (nodes (db Examples.w_doc1)) ->
                matches File [(lit "id", lit "doc1.txt")] f = true ->
                In (nid f, next_nid (db Examples.w_doc1)) (contains (db w'))).
Proof.
  apply (changed_chunk_is_duplicated (lit "doc1.txt")
           (lit "doc1.txt_chunk_0") (lit "hello there") 5 Examples.w_doc1).
  - vm_compute. now left.
  - vm_compute. reflexivity.
  - vm_compute. reflexivity.
Defined.
